(** * Phonon density of states (phonon/dos.py)

    A shallow embedding of the total and partial density-of-states engines
    of [phonon/dos.py], together with the index-grouping helpers and the
    Debye fit, and the properties of them stated by the specification.

    Conventions of the embedding.
    - A Python [float] / numpy [float64] is a real number ([R]): rounding is
      not modelled, so every equation below is an equation of exact
      arithmetic.  Where numpy produces [inf] or [nan] and goes on, as in
      the Debye frequency, the value is a [float64], which has them; where
      Python raises on them, the model raises.
    - A numpy array is a list (a matrix a list of rows, and so on).  Shape
      agreement, which numpy guarantees or checks, is a well-formedness
      predicate on the data and a hypothesis of the theorems about values;
      the in-place additions of the index-grouping functions raise on a
      mismatch as numpy does.
    - A Python exception is the [None] of [option], or the [Raise] of
      [result] where the kind of the exception matters.  The state in which
      a raising method leaves its object is not modelled, except for the
      axes object of the plotting function.
    - An attribute that can hold [None], or is not set yet, is an [option].
    - A class is a module with the record [t] of its attributes; a method
      takes [self] and returns the new [self]; a derived class holds the
      attributes of its base class in the field [base].
    - What the module calls from outside [dos.py] (the tetrahedron engine,
      [np.linalg.inv], [scipy.optimize.curve_fit]) is a variable of the
      section that uses it. *)

From Stdlib Require Import String.
From Stdlib Require Import Reals Lra Lia ZArith List Bool Permutation.
Import ListNotations.
Open Scope R_scope.

Notation "x <- e ;; k" := (match e with Some x => k | None => None end)
  (at level 61, e at next level, right associativity).

(** ** numpy and Python primitives used by the module *)

Module Np.

(** [np.sum] of a one-dimensional array. *)
Definition sum (a : list R) : R := fold_right Rplus 0 a.

(** The finite sum [f 0 + ... + f (n-1)], the index form of [sum]. *)
Fixpoint sum_n (n : nat) (f : nat -> R) : R :=
  match n with
  | O => 0
  | S k => sum_n k f + f k
  end.

(** [np.prod] of a tuple of integers. *)
Definition prod (a : list Z) : Z := fold_right Z.mul 1%Z a.

(** [a.min()] and [a.max()]: they raise on an empty array. *)
Definition min (a : list R) : option R :=
  match a with
  | [] => None
  | x :: l => Some (fold_right Rmin x l)
  end.

Definition max (a : list R) : option R :=
  match a with
  | [] => None
  | x :: l => Some (fold_right Rmax x l)
  end.

(** The same over all the entries of a matrix. *)
Definition min2 (a : list (list R)) : option R := min (concat a).
Definition max2 (a : list (list R)) : option R := max (concat a).

(** [ceil] of a real, as an integer. *)
Definition ceil (x : R) : Z := (- Int_part (- x))%Z.

(** [np.arange(start, stop, step)]: [ceil((stop - start)/step)] points
    [start + i*step]; a zero step is an error. *)
Definition arange (start stop step : R) : option (list R) :=
  if Req_dec_T step 0 then None
  else Some (map (fun i => start + INR i * step)
               (seq 0 (Z.to_nat (ceil ((stop - start) / step))))).

(** Number of columns of a matrix ([a.shape[1]]). *)
Definition ncols {A} (a : list (list A)) : nat :=
  match a with
  | [] => 0
  | r :: _ => length r
  end.

(** [np.dot(w, m)] of a vector and a matrix: entry [b] is
    [sum over g of w[g] * m[g][b]]. *)
Definition dot (w : list R) (m : list (list R)) : list R :=
  map (fun b => sum_n (length m) (fun g => nth g w 0 * nth b (nth g m []) 0))
    (seq 0 (ncols m)).

(** Elementwise binary operation on arrays of the same shape. *)
Fixpoint zip_with {A B C} (f : A -> B -> C) (a : list A) (b : list B) : list C :=
  match a, b with
  | x :: a', y :: b' => f x y :: zip_with f a' b'
  | _, _ => []
  end.

(** [a - f] and [a * w] with a scalar, [a * b] elementwise, on matrices. *)
Definition sub_scalar (a : list (list R)) (f : R) : list (list R) :=
  map (map (fun x => x - f)) a.

Definition mul_scalar (a : list (list R)) (w : R) : list (list R) :=
  map (map (fun x => x * w)) a.

Definition mul2 (a b : list (list R)) : list (list R) :=
  zip_with (zip_with Rmult) a b.

(** [a.T] of a matrix with [c] columns. *)
Definition transpose (c : nat) (a : list (list R)) : list (list R) :=
  map (fun j => map (fun r => nth j r 0) a) (seq 0 c).

(** All rows of a matrix have length [c]. *)
Definition rectangular {A} (c : nat) (a : list (list A)) : Prop :=
  Forall (fun r => length r = c) a.

End Np.

Module Py.

(** [int(x)] of a float: truncation toward zero. *)
Definition int (x : R) : Z :=
  if Rle_dec 0 x then Int_part x else Np.ceil x.

(** The slice [a[0:n]]: a negative [n] counts from the end. *)
Definition slice_to {A} (n : Z) (a : list A) : list A :=
  if (0 <=? n)%Z then firstn (Z.to_nat n) a
  else firstn (length a - Z.to_nat (- n)) a.

End Py.

(** ** Smearing kernels *)

Inductive smearing_function : Type :=
| NormalDistribution (sigma : option R)
| CauchyDistribution (gamma : option R).

(** [calc]: the density at an offset [x].  A kernel built from [None]
    raises when it is evaluated. *)
Definition calc (k : smearing_function) : option (R -> R) :=
  match k with
  | NormalDistribution (Some s) =>
      Some (fun x => 1 / sqrt (2 * PI) / s * exp (- x ^ 2 / 2 / s ^ 2))
  | CauchyDistribution (Some g) =>
      Some (fun x => g / PI / (x ^ 2 + g ^ 2))
  | _ => None
  end.

(** ** The mesh sample set *)

Record complex : Type := { re : R; im : R }.

(** The complex numbers 0 and 1. *)
Definition c0 : complex := {| re := 0; im := 0 |}.
Definition c1 : complex := {| re := 1; im := 0 |}.

(** [np.abs(z) ** 2]. *)
Definition abs2 (z : complex) : R := sqrt (re z ^ 2 + im z ^ 2) ^ 2.

Record mesh_object : Type := {
  frequencies : list (list R);              (* [G][B] *)
  weights : list R;                         (* [G] *)
  eigenvectors : list (list (list complex)); (* [G][3N][B] *)
  mesh_numbers : list Z;
  grid_address : list (list Z);
  grid_mapping_table : list Z;
  ir_grid_points : list Z;
  primitive : list (list R)                 (* dynamical_matrix.primitive *)
}.

(** The arguments a [TetrahedronMesh] is built from. *)
Record TetrahedronMesh : Type := {
  thm_primitive : list (list R);
  thm_frequencies : list (list R);
  thm_mesh : list Z;
  thm_grid_address : list (list Z);
  thm_grid_mapping_table : list Z;
  thm_ir_grid_points : list Z
}.

(** ** class Dos *)

Module Dos.

Record t : Type := mk {
  _mesh_object : mesh_object;
  _frequencies : list (list R);
  _weights : list R;
  _tetrahedron_mesh : option TetrahedronMesh;
  _frequency_points : option (list R);
  _sigma : option R;
  _smearing_function : option smearing_function
}.

Definition set_smearing_function (self : t) (function_name : string) : t :=
  if String.eqb function_name "Cauchy"%string then
    mk (_mesh_object self) (_frequencies self) (_weights self)
       (_tetrahedron_mesh self) (_frequency_points self) (_sigma self)
       (Some (CauchyDistribution (_sigma self)))
  else
    mk (_mesh_object self) (_frequencies self) (_weights self)
       (_tetrahedron_mesh self) (_frequency_points self) (_sigma self)
       (Some (NormalDistribution (_sigma self))).

Definition set_sigma (self : t) (sigma : option R) : t :=
  mk (_mesh_object self) (_frequencies self) (_weights self)
     (_tetrahedron_mesh self) (_frequency_points self) sigma
     (_smearing_function self).

Definition set_draw_area (self : t) (freq_min freq_max freq_pitch : option R)
  : option t :=
  f_min <- Np.min2 (_frequencies self) ;;
  f_max <- Np.max2 (_frequencies self) ;;
  let sigma :=
    match _sigma self with
    | None => (f_max - f_min) / 100
    | Some s => s
    end in
  let f_min :=
    match freq_min with
    | None => f_min - sigma * 10
    | Some m => m
    end in
  let f_max :=
    match freq_max with
    | None => f_max + sigma * 10
    | Some m => m
    end in
  let f_delta :=
    match freq_pitch with
    | None => (f_max - f_min) / 200
    | Some p => p
    end in
  points <- Np.arange f_min (f_max + f_delta * (1 / 10)) f_delta ;;
  Some (mk (_mesh_object self) (_frequencies self) (_weights self)
          (_tetrahedron_mesh self) (Some points) (Some sigma)
          (_smearing_function self)).

Definition __init__ (mesh : mesh_object) (sigma : option R)
    (use_tetrahedron_method : bool) : option t :=
  let thm :=
    match use_tetrahedron_method, sigma with
    | true, None =>
        Some {| thm_primitive := primitive mesh;
                thm_frequencies := frequencies mesh;
                thm_mesh := mesh_numbers mesh;
                thm_grid_address := grid_address mesh;
                thm_grid_mapping_table := grid_mapping_table mesh;
                thm_ir_grid_points := ir_grid_points mesh |}
    | _, _ => None
    end in
  let self := mk mesh (frequencies mesh) (weights mesh) thm None sigma None in
  self <- set_draw_area self None None None ;;
  Some (set_smearing_function self "Normal"%string).

End Dos.

(** [traverse f l]: the list comprehension [[f(x) for x in l]], which
    raises as soon as one [f(x)] does. *)
Fixpoint traverse {A B} (f : A -> option B) (l : list A) : option (list B) :=
  match l with
  | [] => Some []
  | x :: l' => y <- f x ;; ys <- traverse f l' ;; Some (y :: ys)
  end.

(** ** The tetrahedron method: the interface of the external engine *)

Module Tetrahedron.

Section Engine.

(** The integration weight of band [b] of grid point [g] at the [f]-th
    frequency point, as the linear tetrahedron method computes it from
    the mesh, the frequency points, the band frequencies, the grid
    addressing tables and the relative addresses of the tetrahedra
    vertices: the numeric kernel of the C extension, a black box. *)
Variable integration_weight :
  list Z -> list R -> list (list R) -> list (list Z) -> list Z ->
  list (list (list Z)) -> nat -> nat -> nat -> R.

(** The weight of each irreducible grid point, which the C extension
    recovers from the grid mapping table. *)
Variable ir_weights : list Z -> list R.

(** Modelled from the spec: the weight-computation primitive
    [phonoc.tetrahedron_method_dos] of the C extension, which is not part
    of [dos.py].  It fills the tensor [dos[g][b][f][c]] with the raw
    weights: the weight of grid point [g] times the integration weight of
    [(g, b, f)] times the coefficient [coef[g][c][b]]. *)
Definition tetrahedron_method_dos
    (mesh : list Z) (frequency_points : list R)
    (frequencies : list (list R)) (coef : list (list (list R)))
    (grid_address : list (list Z)) (grid_mapping_table : list Z)
    (relative_grid_address : list (list (list Z)))
  : list (list (list (list R))) :=
  map (fun g =>
    map (fun b =>
      map (fun f =>
        map (fun c =>
          nth g (ir_weights grid_mapping_table) 0
          * integration_weight mesh frequency_points frequencies
              grid_address grid_mapping_table relative_grid_address g b f
          * nth b (nth c (nth g coef []) []) 0)
          (seq 0 (Np.ncols coef)))
        (seq 0 (length frequency_points)))
      (seq 0 (Np.ncols frequencies)))
    (seq 0 (length frequencies)).

(** [a.sum(axis=0)] of a matrix with [n] columns. *)
Definition sum_axis0 (n : nat) (a : list (list R)) : list R :=
  map (fun j => Np.sum_n (length a) (fun i => nth j (nth i a []) 0)) (seq 0 n).

(** [run_tetrahedron_method_dos]: without coefficients the result is a
    vector over the frequency points, with coefficients a matrix
    [f][c]. *)
Definition run_tetrahedron_method_dos
    (mesh : list Z) (frequency_points : list R)
    (frequencies : list (list R))
    (grid_address : list (list Z)) (grid_mapping_table : list Z)
    (relative_grid_address : list (list (list Z)))
    (coef : option (list (list (list R))))
  : list R + list (list R) :=
  let _coef :=
    match coef with
    | None => map (fun _ => [map (fun _ => 1) (seq 0 (Np.ncols frequencies))])
                frequencies
    | Some c => c
    end in
  let nf := length frequency_points in
  let nb := Np.ncols frequencies in
  let dos :=
    tetrahedron_method_dos mesh frequency_points frequencies _coef
      grid_address grid_mapping_table relative_grid_address in
  match coef with
  | None =>
      (* dos[:, :, :, 0].sum(axis=0).sum(axis=0) / np.prod(mesh) *)
      let over_g :=
        map (fun b =>
          map (fun f =>
            Np.sum_n (length dos)
              (fun g => nth 0%nat (nth f (nth b (nth g dos []) []) []) 0))
            (seq 0 nf))
          (seq 0 nb) in
      inl (map (fun x => x / IZR (Np.prod mesh))
             (sum_axis0 nf over_g))
  | Some _ =>
      (* dos.sum(axis=0).sum(axis=0) / np.prod(mesh) *)
      let nc := Np.ncols _coef in
      let over_g :=
        map (fun b =>
          map (fun f =>
            map (fun c =>
              Np.sum_n (length dos)
                (fun g => nth c (nth f (nth b (nth g dos []) []) []) 0))
              (seq 0 nc))
            (seq 0 nf))
          (seq 0 nb) in
      inr (map (fun f =>
             map (fun c =>
               Np.sum_n (length over_g)
                 (fun b => nth c (nth f (nth b over_g []) []) 0)
               / IZR (Np.prod mesh))
               (seq 0 nc))
             (seq 0 nf))
  end.

End Engine.

End Tetrahedron.

(** ** class TotalDos(Dos) *)

(** A numpy float that need not be finite.  [Infinite] is an infinity of
    either sign: the sign of a quotient by zero is that of the zero, which
    the reals do not keep, and the power below maps both infinities to the
    positive one. *)
Inductive float64 : Type :=
| Finite (x : R)
| Infinite
| NaN.

Module Float.

(** [n / a] for an integer [n] and a numpy float [a]: a zero divisor does
    not raise, it gives an infinite quotient, and [nan] for [0 / 0]. *)
Definition divide (n : Z) (a : R) : float64 :=
  if Req_dec_T a 0 then
    if (n =? 0)%Z then NaN else Infinite
  else Finite (IZR n / a).

(** [x ** (1.0 / 3)] for a numpy float [x]: [Rpower] on a positive base,
    zero on zero, [nan] on a negative base, infinite on an infinite one. *)
Definition power_third (x : float64) : float64 :=
  match x with
  | Finite x =>
      if Rlt_dec 0 x then Finite (Rpower x (1 / 3))
      else if Req_dec_T x 0 then Finite 0
      else NaN
  | Infinite => Infinite
  | NaN => NaN
  end.

End Float.

Module TotalDos.

Record t : Type := mk {
  base : Dos.t;
  _dos : option (list R);
  _freq_Debye : option float64;
  _Debye_fit_coef : option R;
  _openmp_thm : bool
}.

Definition __init__ (mesh : mesh_object) (sigma : option R)
    (use_tetrahedron_method : bool) : option t :=
  b <- Dos.__init__ mesh sigma use_tetrahedron_method ;;
  Some (mk b None None None true).

(** The methods inherited from [Dos]. *)
Definition set_sigma (self : t) (sigma : option R) : t :=
  mk (Dos.set_sigma (base self) sigma) (_dos self) (_freq_Debye self)
     (_Debye_fit_coef self) (_openmp_thm self).

Definition set_smearing_function (self : t) (function_name : string) : t :=
  mk (Dos.set_smearing_function (base self) function_name) (_dos self)
     (_freq_Debye self) (_Debye_fit_coef self) (_openmp_thm self).

Definition set_draw_area (self : t) (freq_min freq_max freq_pitch : option R)
  : option t :=
  b <- Dos.set_draw_area (base self) freq_min freq_max freq_pitch ;;
  Some (mk b (_dos self) (_freq_Debye self) (_Debye_fit_coef self)
          (_openmp_thm self)).

Definition get_Debye_frequency (self : t) : option float64 :=
  _freq_Debye self.

Definition _get_density_of_states_at_freq (self : t) (f : R) : option R :=
  k <- Dos._smearing_function (base self) ;;
  c <- calc k ;;
  Some (Np.sum
          (Np.dot (Dos._weights (base self))
             (map (map c) (Np.sub_scalar (Dos._frequencies (base self)) f)))
        / Np.sum (Dos._weights (base self))).

Definition Debye_dos (freq a : R) : R := a * freq ^ 2.

(** The local [N_fit] of [set_Debye_frequency].  A zero range of the
    frequency points makes the quotient infinite or undefined, and [int]
    raises on it. *)
Definition N_fit (self : t) (freq_max_fit : option R) : option Z :=
  points <- Dos._frequency_points (base self) ;;
  freq_min <- Np.min points ;;
  freq_max <- Np.max points ;;
  match freq_max_fit with
  | None => Some (Py.int (INR (length points) / 4))
  | Some m =>
      if Req_dec_T (freq_max - freq_min) 0 then None
      else Some (Py.int (m / (freq_max - freq_min) * INR (length points)))
  end.

Section Methods.

Variable integration_weight :
  list Z -> list R -> list (list R) -> list (list Z) -> list Z ->
  list (list (list Z)) -> nat -> nat -> nat -> R.
Variable ir_weights : list Z -> list R.

(** [np.linalg.inv], which raises on a singular matrix, and the
    relative grid addresses [TetrahedronMethod(...).get_tetrahedra()]. *)
Variable linalg_inv : list (list R) -> option (list (list R)).
Variable get_tetrahedra : list (list R) -> list Z -> list (list (list Z)).

(** The integration weights [iw[f][b]] that iterating a
    [TetrahedronMesh] yields, one matrix per grid point, after
    [thm.set(value='I', frequency_points=...)]. *)
Variable thm_iter : TetrahedronMesh -> list R -> list (list (list R)).

(** [scipy.optimize.curve_fit(model, xdata, ydata)]: the fitted
    parameter [popt[0]], or an exception. *)
Variable curve_fit : (R -> R -> R) -> list R -> list R -> option R.

Definition _run_tetrahedron_method_dos (self : t) : option t :=
  let mesh := Dos._mesh_object (base self) in
  let mesh_numbers := mesh_numbers mesh in
  let cell := primitive mesh in
  reciprocal_lattice <- linalg_inv cell ;;
  points <- Dos._frequency_points (base self) ;;
  match Tetrahedron.run_tetrahedron_method_dos integration_weight ir_weights
          mesh_numbers points (Dos._frequencies (base self))
          (grid_address mesh) (grid_mapping_table mesh)
          (get_tetrahedra reciprocal_lattice mesh_numbers) None with
  | inl dos =>
      Some (mk (base self) (Some dos) (_freq_Debye self)
              (_Debye_fit_coef self) (_openmp_thm self))
  | inr _ => None
  end.

(** The loop [for i, iw in enumerate(thm): dos += np.sum(iw * w[i], axis=1)]. *)
Fixpoint accumulate (weights : list R) (i : nat)
    (iws : list (list (list R))) (dos : list R) : option (list R) :=
  match iws with
  | [] => Some dos
  | iw :: rest =>
      w <- nth_error weights i ;;
      accumulate weights (S i) rest
        (Np.zip_with Rplus dos (map Np.sum (Np.mul_scalar iw w)))
  end.

Definition run (self : t) : option t :=
  match Dos._tetrahedron_mesh (base self) with
  | None =>
      points <- Dos._frequency_points (base self) ;;
      dos <- traverse (_get_density_of_states_at_freq self) points ;;
      Some (mk (base self) (Some dos) (_freq_Debye self)
              (_Debye_fit_coef self) (_openmp_thm self))
  | Some thm =>
      if _openmp_thm self then _run_tetrahedron_method_dos self
      else
        points <- Dos._frequency_points (base self) ;;
        dos <- accumulate (Dos._weights (base self)) 0
                 (thm_iter thm points) (map (fun _ => 0) points) ;;
        Some (mk (base self) (Some dos) (_freq_Debye self)
                (_Debye_fit_coef self) (_openmp_thm self))
  end.

(** [set_Debye_frequency].  Neither the division by the fitted
    coefficient nor the power raises: a coefficient that is zero or of the
    wrong sign leaves an infinite Debye frequency or [nan] in the
    engine. *)
Definition set_Debye_frequency (self : t) (num_atoms : Z)
    (freq_max_fit : option R) : option t :=
  n <- N_fit self freq_max_fit ;;
  points <- Dos._frequency_points (base self) ;;
  dos <- _dos self ;;
  a2 <- curve_fit Debye_dos (Py.slice_to n points) (Py.slice_to n dos) ;;
  Some (mk (base self) (_dos self)
          (Some (Float.power_third (Float.divide (3 * 3 * num_atoms) a2)))
          (Some a2) (_openmp_thm self)).

End Methods.

End TotalDos.

(** ** Index grouping: [get_pdos] and [plot_partial_dos] *)

(** The exceptions of the index-grouping functions.  The two [ValueError]s
    of the index checks carry the number their message prints; the third
    is numpy's, for operands that cannot be broadcast together. *)
Inductive exn : Type :=
| ValueError_too_large (printed : Z)
| ValueError_not_positive (printed : Z)
| ValueError_broadcast
| TypeError
| IndexError.

Inductive result (A : Type) : Type :=
| Ok (a : A)
| Raise (e : exn).
Arguments Ok {A} a.
Arguments Raise {A} e.

(** A running sum that starts as the integer [0] and becomes an array with
    the first row added to it. *)
Inductive value : Type :=
| Int0
| Arr (a : list R).

(** [pdos_sum += row].  On the integer [0] the sum is the row.  On an
    array the addition is in place: the row must have the length of the
    array, or the length one, and then its entry is added to every entry
    of the array; any other row raises numpy's broadcasting
    [ValueError]. *)
Definition add_row (v : value) (row : list R) : result value :=
  match v with
  | Int0 => Ok (Arr row)
  | Arr a =>
      if (length row =? length a)%nat then Ok (Arr (Np.zip_with Rplus a row))
      else if (length row =? 1)%nat then
        Ok (Arr (map (fun x => x + nth 0 row 0) a))
      else Raise ValueError_broadcast
  end.

(** [total_dos += pdos_sum]. *)
Definition add_value (v w : value) : result value :=
  match w with
  | Int0 => Ok v
  | Arr row => add_row v row
  end.

(** The entry of a running sum at a frequency index. *)
Definition value_at (v : value) (i : nat) : R :=
  match v with
  | Int0 => 0
  | Arr a => nth i a 0
  end.

(** The inner loop [for i in set_for_sum] of both functions, from the
    initial value [pdos_sum]. *)
Fixpoint sum_group (natoms : nat) (partial_dos : list (list R))
    (set_for_sum : list Z) (pdos_sum : value) : result value :=
  match set_for_sum with
  | [] => Ok pdos_sum
  | i :: rest =>
      if (i >? Z.of_nat natoms - 1)%Z then Raise (ValueError_too_large (i + 1))
      else if (i <? 0)%Z then Raise (ValueError_not_positive (i + 1))
      else
        match add_row pdos_sum (nth (Z.to_nat i) partial_dos []) with
        | Raise e => Raise e
        | Ok pdos_sum => sum_group natoms partial_dos rest pdos_sum
        end
  end.

(** The drawing calls received by the axes object, oldest first. *)
Inductive ax_call : Type :=
| xaxis_set_ticks_position (position : string)
| yaxis_set_ticks_position (position : string)
| xaxis_set_tick_params
| yaxis_set_tick_params
| ax_plot (x y : value) (label : option string)
| ax_fill_between (x : value) (y : list R)
| ax_fill_betweenx (y : value) (x : list R)
| ax_legend
| ax_set_xlabel (s : string)
| ax_set_ylabel (s : string)
| ax_axvline
| ax_axhline
| ax_grid (b : bool).

Definition axes : Type := list ax_call.

Fixpoint get_pdos_loop (natoms : nat) (partial_dos : list (list R))
    (indices : list (list Z)) : result (list value) :=
  match indices with
  | [] => Ok []
  | set_for_sum :: rest =>
      match sum_group natoms partial_dos set_for_sum Int0 with
      | Raise e => Raise e
      | Ok pdos_sum =>
          match get_pdos_loop natoms partial_dos rest with
          | Raise e => Raise e
          | Ok pdos_list => Ok (pdos_sum :: pdos_list)
          end
      end
  end.

(** [get_pdos].  The default [indices] is the flat list
    [list(np.arange(natoms))], whose elements cannot be iterated. *)
Definition get_pdos (ax : axes) (partial_dos : list (list R))
    (indices : option (list (list Z))) : result (list value) :=
  let natoms := length partial_dos in
  match indices with
  | None =>
      match natoms with
      | O => Ok []
      | S _ => Raise TypeError
      end
  | Some indices => get_pdos_loop natoms partial_dos indices
  end.

(** The outer loop of [plot_partial_dos]: the axes as they are when the
    loop ends or raises, and the total accumulated. *)
Fixpoint plot_loop (natoms : nat) (frequency_points : list R)
    (partial_dos : list (list R)) (total_dos_bool : bool)
    (legend : option (list string)) (flip_xy : bool)
    (indices : list (list Z)) (ax : axes) (total_dos : value)
    (pdos_ind : nat) : axes * result value :=
  match indices with
  | [] => (ax, Ok total_dos)
  | set_for_sum :: rest =>
      match sum_group natoms partial_dos set_for_sum
              (Arr (map (fun _ => 0) frequency_points)) with
      | Raise e => (ax, Raise e)
      | Ok pdos_sum =>
          match (if total_dos_bool then add_value total_dos pdos_sum
                 else Ok total_dos) with
          | Raise e => (ax, Raise e)
          | Ok total_dos =>
              let draw label :=
                if flip_xy then ax_plot pdos_sum (Arr frequency_points) label
                else ax_plot (Arr frequency_points) pdos_sum label in
              match legend with
              | Some names =>
                  match nth_error names pdos_ind with
                  | None => (ax, Raise IndexError)
                  | Some name =>
                      plot_loop natoms frequency_points partial_dos
                        total_dos_bool legend flip_xy rest
                        (ax ++ [draw (Some name)]) total_dos (S pdos_ind)
                  end
              | None =>
                  plot_loop natoms frequency_points partial_dos
                    total_dos_bool legend flip_xy rest (ax ++ [draw None])
                    total_dos (S pdos_ind)
              end
          end
      end
  end.

(** A label is set when it is neither [None] nor empty. *)
Definition truthy (s : option string) : option string :=
  match s with
  | Some EmptyString => None
  | other => other
  end.

Definition plot_partial_dos (ax : axes) (frequency_points : list R)
    (partial_dos : list (list R)) (total_dos_bool : bool)
    (indices : option (list (list Z))) (legend : option (list string))
    (xlabel ylabel : option string) (draw_grid flip_xy : bool)
  : axes * result unit :=
  let ax := ax ++ [xaxis_set_ticks_position "both"%string;
                   yaxis_set_ticks_position "both"%string;
                   xaxis_set_tick_params; yaxis_set_tick_params] in
  let natoms := length partial_dos in
  let looped :=
    match indices with
    | None =>
        match natoms with
        | O => (ax, Ok Int0)
        | S _ => (ax, Raise TypeError)
        end
    | Some indices =>
        plot_loop natoms frequency_points partial_dos total_dos_bool legend
          flip_xy indices ax Int0 0
    end in
  match looped with
  | (ax, Raise e) => (ax, Raise e)
  | (ax, Ok total_dos) =>
      let ax :=
        if total_dos_bool then
          if flip_xy then ax ++ [ax_fill_between total_dos frequency_points]
          else ax ++ [ax_fill_betweenx total_dos frequency_points]
        else ax in
      let ax := match legend with Some _ => ax ++ [ax_legend] | None => ax end in
      let ax := match truthy xlabel with Some s => ax ++ [ax_set_xlabel s] | None => ax end in
      let ax := match truthy ylabel with Some s => ax ++ [ax_set_ylabel s] | None => ax end in
      (ax ++ [ax_axvline; ax_axhline; ax_grid draw_grid], Ok tt)
  end.

(** ** class PartialDos(Dos) *)

Module PartialDos.

Record t : Type := mk {
  base : Dos.t;
  _eigenvectors : list (list (list complex));
  _partial_dos : option (list (list R));
  _eigvecs2 : list (list (list R));       (* [G][channel][B] *)
  _openmp_thm : bool
}.

(** [eigenvectors[:, idx, :]]: an index past the last row raises. *)
Definition take_rows (idx : list nat) (e : list (list (list complex)))
  : option (list (list (list complex))) :=
  traverse (fun rows => traverse (nth_error rows) idx) e.

(** Elementwise operations on arrays [G][N][B]. *)
Definition map3 {A B} (f : A -> B) (a : list (list (list A)))
  : list (list (list B)) :=
  map (map (map f)) a.

Definition zip3 {A B C} (f : A -> B -> C) (a : list (list (list A)))
    (b : list (list (list B))) : list (list (list C)) :=
  Np.zip_with (Np.zip_with (Np.zip_with f)) a b.

Definition cscale (z : complex) (d : R) : complex :=
  {| re := re z * d; im := im z * d |}.

Definition cadd (z w : complex) : complex :=
  {| re := re z + re w; im := im z + im w |}.

(** [np.linalg.norm] of a vector. *)
Definition norm (d : list R) : R := sqrt (Np.sum (map (fun x => x ^ 2) d)).

(** The projection coefficients computed by the constructor. *)
Definition eigvecs2_of (frequencies : list (list R))
    (eigenvectors : list (list (list complex)))
    (direction : option (list R)) (xyz_projection : bool)
  : option (list (list (list R))) :=
  if xyz_projection then Some (map3 abs2 eigenvectors)
  else
    let num_atom := (Np.ncols frequencies / 3)%nat in
    let i_x := map (fun j => j * 3)%nat (seq 0 num_atom) in
    let i_y := map (fun j => j * 3 + 1)%nat (seq 0 num_atom) in
    let i_z := map (fun j => j * 3 + 2)%nat (seq 0 num_atom) in
    ex <- take_rows i_x eigenvectors ;;
    ey <- take_rows i_y eigenvectors ;;
    ez <- take_rows i_z eigenvectors ;;
    match direction with
    | None =>
        Some (zip3 Rplus (zip3 Rplus (map3 abs2 ex) (map3 abs2 ey))
                (map3 abs2 ez))
    | Some direction =>
        let d := map (fun x => x / norm direction) direction in
        d0 <- nth_error d 0 ;;
        d1 <- nth_error d 1 ;;
        d2 <- nth_error d 2 ;;
        let proj_eigvecs :=
          zip3 cadd
            (zip3 cadd (map3 (fun z => cscale z d0) ex)
               (map3 (fun z => cscale z d1) ey))
            (map3 (fun z => cscale z d2) ez) in
        Some (map3 abs2 proj_eigvecs)
    end.

Definition __init__ (mesh : mesh_object) (sigma : option R)
    (use_tetrahedron_method : bool) (direction : option (list R))
    (xyz_projection : bool) : option t :=
  b <- Dos.__init__ mesh sigma use_tetrahedron_method ;;
  e2 <- eigvecs2_of (Dos._frequencies b) (eigenvectors (Dos._mesh_object b))
          direction xyz_projection ;;
  Some (mk b (eigenvectors (Dos._mesh_object b)) None e2 true).

(** The methods inherited from [Dos]. *)
Definition set_sigma (self : t) (sigma : option R) : t :=
  mk (Dos.set_sigma (base self) sigma) (_eigenvectors self)
     (_partial_dos self) (_eigvecs2 self) (_openmp_thm self).

Definition set_smearing_function (self : t) (function_name : string) : t :=
  mk (Dos.set_smearing_function (base self) function_name)
     (_eigenvectors self) (_partial_dos self) (_eigvecs2 self)
     (_openmp_thm self).

(** [eigvecs2[:, j, :]]. *)
Definition channel (j : nat) (e2 : list (list (list R))) : list (list R) :=
  map (fun at_g => nth j at_g []) e2.

(** The value stored in [partial_dos[j, i]] for the frequency point
    [freq], given the amplitudes at that point. *)
Definition pdos_entry (weights : list R) (e2 : list (list (list R)))
    (amplitudes : list (list R)) (j : nat) : R :=
  Np.sum (Np.dot weights (Np.mul2 (channel j e2) amplitudes)).

(** [_run_smearing_method]: the outer loop runs over the frequency points
    and fills one column of [partial_dos] at a time. *)
Definition _run_smearing_method (self : t) : option t :=
  let num_pdos := Np.ncols (_eigvecs2 self) in
  points <- Dos._frequency_points (base self) ;;
  let weights :=
    map (fun w => w / Np.sum (Dos._weights (base self)))
      (Dos._weights (base self)) in
  columns <-
    traverse (fun freq =>
      k <- Dos._smearing_function (base self) ;;
      c <- calc k ;;
      let amplitudes :=
        map (map c) (Np.sub_scalar (Dos._frequencies (base self)) freq) in
      Some (map (pdos_entry weights (_eigvecs2 self) amplitudes)
              (seq 0 num_pdos)))
      points ;;
  Some (mk (base self) (_eigenvectors self)
          (Some (Np.transpose num_pdos columns))
          (_eigvecs2 self) (_openmp_thm self)).

Section Methods.

Variable integration_weight :
  list Z -> list R -> list (list R) -> list (list Z) -> list Z ->
  list (list (list Z)) -> nat -> nat -> nat -> R.
Variable ir_weights : list Z -> list R.
Variable linalg_inv : list (list R) -> option (list (list R)).
Variable get_tetrahedra : list (list R) -> list Z -> list (list (list Z)).
Variable thm_iter : TetrahedronMesh -> list R -> list (list (list R)).

(** The loop of [_run_tetrahedron_method]:
    [partial_dos += np.dot(iw * w, eigvecs2[i].T).T]. *)
Fixpoint accumulate (weights : list R) (e2 : list (list (list R)))
    (nb : nat) (i : nat) (iws : list (list (list R)))
    (pdos : list (list R)) : option (list (list R)) :=
  match iws with
  | [] => Some pdos
  | iw :: rest =>
      w <- nth_error weights i ;;
      e2i <- nth_error e2 i ;;
      let iww := Np.mul_scalar iw w in
      let increment :=
        map (fun j =>
          map (fun f =>
            Np.sum_n nb
              (fun b => nth b (nth f iww []) 0 * nth b (nth j e2i []) 0))
            (seq 0 (length iww)))
          (seq 0 (length e2i)) in
      accumulate weights e2 nb (S i) rest
        (Np.zip_with (Np.zip_with Rplus) pdos increment)
  end.

Definition _run_tetrahedron_method (self : t) (thm : TetrahedronMesh)
  : option t :=
  let num_pdos := Np.ncols (_eigvecs2 self) in
  points <- Dos._frequency_points (base self) ;;
  pdos <- accumulate (Dos._weights (base self)) (_eigvecs2 self)
            (Np.ncols (Dos._frequencies (base self))) 0
            (thm_iter thm points)
            (map (fun _ => map (fun _ => 0) points) (seq 0 num_pdos)) ;;
  Some (mk (base self) (_eigenvectors self) (Some pdos) (_eigvecs2 self)
          (_openmp_thm self)).

(** [_run_tetrahedron_method_dos], which [run] does not call. *)
Definition _run_tetrahedron_method_dos (self : t) : option t :=
  let mesh := Dos._mesh_object (base self) in
  reciprocal_lattice <- linalg_inv (primitive mesh) ;;
  points <- Dos._frequency_points (base self) ;;
  match Tetrahedron.run_tetrahedron_method_dos integration_weight ir_weights
          (mesh_numbers mesh) points (Dos._frequencies (base self))
          (grid_address mesh) (grid_mapping_table mesh)
          (get_tetrahedra reciprocal_lattice (mesh_numbers mesh))
          (Some (_eigvecs2 self)) with
  | inr pdos =>
      Some (mk (base self) (_eigenvectors self)
              (Some (Np.transpose (Np.ncols (_eigvecs2 self)) pdos))
              (_eigvecs2 self) (_openmp_thm self))
  | inl _ => None
  end.

Definition run (self : t) : option t :=
  match Dos._tetrahedron_mesh (base self) with
  | None => _run_smearing_method self
  | Some thm => _run_tetrahedron_method self thm
  end.

End Methods.

End PartialDos.

(** ** Quantities the statements are written with *)

(** The double sum of the smearing path at the frequency [f]: over the grid
    points [g] and the [nb] bands [b], [w[g] * c(F[g][b] - f)]. *)
Definition smeared_sum (w : list R) (F : list (list R)) (nb : nat)
    (c : R -> R) (f : R) : R :=
  Np.sum_n (length F) (fun g =>
    Np.sum_n nb (fun b => nth g w 0 * c (nth b (nth g F []) 0 - f))).

(** Shape agreement of the mesh sample set: one weight per grid point and
    [nb] band frequencies at each grid point. *)
Definition mesh_shape (w : list R) (F : list (list R)) (nb : nat) : Prop :=
  length w = length F /\ Np.rectangular nb F.


(** Shape of the projection coefficients: [ng] grid points, [nch] channels
    at each of them, [nb] bands in each channel. *)
Definition eigvecs2_shape (e2 : list (list (list R))) (ng nch nb : nat) : Prop :=
  length e2 = ng
  /\ Forall (fun at_g => length at_g = nch /\ Np.rectangular nb at_g) e2.

(** The coefficients of the channels sum to one at every grid point and
    band. *)
Definition normalized (e2 : list (list (list R))) (nch nb : nat) : Prop :=
  forall g b, (g < length e2)%nat -> (b < nb)%nat ->
    Np.sum_n nch (fun j => nth b (nth j (nth g e2 []) []) 0) = 1.

(** A running sum is the integer zero or an array over [n] points. *)
Definition value_shape (n : nat) (v : value) : Prop :=
  match v with
  | Int0 => True
  | Arr a => length a = n
  end.

(** Every channel index of a grouping lies in [[0, natoms)]. *)
Definition in_range (natoms : nat) (i : Z) : Prop :=
  (0 <= i < Z.of_nat natoms)%Z.

(** A strictly increasing sequence. *)
Definition strictly_increasing (l : list R) : Prop :=
  forall i j, (i < j < length l)%nat -> nth i l 0 < nth j l 0.

(** The smearing width in force once the grid is built: the one given, or
    a hundredth of the range [[lo, hi]] of the frequencies. *)
Definition chosen_sigma (sigma : option R) (lo hi : R) : R :=
  match sigma with
  | None => (hi - lo) / 100
  | Some s => s
  end.

(** The default pitch: the range widened by ten widths on each side,
    divided by 200. *)
Definition default_pitch (sigma : option R) (lo hi : R) : R :=
  ((hi + chosen_sigma sigma lo hi * 10) - (lo - chosen_sigma sigma lo hi * 10))
  / 200.

(** The evenly spaced points [start + i * pitch], [i < n]. *)
Definition even_grid (start pitch : R) (n : nat) : list R :=
  map (fun i => start + INR i * pitch) (seq 0 n).

(** The squared error of the model [model x a] on the data. *)
Definition sse (model : R -> R -> R) (xdata ydata : list R) (a : R) : R :=
  Np.sum (Np.zip_with (fun x y => (model x a - y) ^ 2) xdata ydata).

(** A fit routine returns a least-squares solution: what
    [scipy.optimize.curve_fit] promises for the model it is given. *)
Definition least_squares (fit : (R -> R -> R) -> list R -> list R -> option R)
    (model : R -> R -> R) : Prop :=
  forall xdata ydata a, fit model xdata ydata = Some a ->
    forall b, sse model xdata ydata a <= sse model xdata ydata b.

(** An exact least-squares routine for a model that is linear in its
    parameter, standing for [curve_fit] in the examples: it solves the
    normal equation, keeps the initial parameter 1 when that equation is
    degenerate, and raises on empty or mismatched data. *)
Definition linear_fit (model : R -> R -> R) (xdata ydata : list R) : option R :=
  if (length xdata =? length ydata)%nat && negb (length ydata =? 0)%nat then
    let g := map (fun x => model x 1) xdata in
    let gg := Np.sum (map (fun v => v ^ 2) g) in
    if Req_dec_T gg 0 then Some 1
    else Some (Np.sum (Np.zip_with Rmult g ydata) / gg)
  else None.

(** [N_fit] in the words of the specification: the floor of a quarter of
    the number of frequency points, or of
    [freq_max_fit / (freq_max - freq_min) * len(grid)] with a cutoff. *)
Definition spec_N_fit (points : list R) (freq_min freq_max : R)
    (freq_max_fit : option R) : Z :=
  match freq_max_fit with
  | None => Int_part (INR (length points) / 4)
  | Some m => Int_part (m / (freq_max - freq_min) * INR (length points))
  end.

(** The smearing branch of [TotalDos.run]: the comprehension over the
    frequency points. *)
Definition total_smearing_path (self : TotalDos.t) : option TotalDos.t :=
  points <- Dos._frequency_points (TotalDos.base self) ;;
  dos <- traverse (TotalDos._get_density_of_states_at_freq self) points ;;
  Some (TotalDos.mk (TotalDos.base self) (Some dos) (TotalDos._freq_Debye self)
          (TotalDos._Debye_fit_coef self) (TotalDos._openmp_thm self)).

(** The double sum of the tetrahedron path at the [f]-th frequency point:
    over the grid points [g] and the [nb] bands [b], [w[g] * iw g b f]. *)
Definition tetrahedron_sum (w : list R) (ng nb : nat)
    (iw : nat -> nat -> nat -> R) (f : nat) : R :=
  Np.sum_n ng (fun g => Np.sum_n nb (fun b => nth g w 0 * iw g b f)).

(** The error raised for a channel index outside [[0, natoms)]: the
    out-of-range error above the range, the negative-index error below it,
    both printing the index plus one. *)
Definition index_error (natoms : nat) (i : Z) : exn :=
  if (i >? Z.of_nat natoms - 1)%Z then ValueError_too_large (i + 1)
  else ValueError_not_positive (i + 1).

(** [i] is the first index outside the range met when the groups of
    [indices] are walked in order: the groups [before] and the indices
    [pre] of its own group are in range. *)
Definition first_offender (natoms : nat) (indices before : list (list Z))
    (pre : list Z) (i : Z) (post : list Z) (after : list (list Z)) : Prop :=
  indices = before ++ (pre ++ i :: post) :: after
  /\ Forall (Forall (in_range natoms)) before
  /\ Forall (in_range natoms) pre
  /\ ~ in_range natoms i.

(** The legend, when there is one, has a name for each of [n] groups. *)
Definition legend_covers (legend : option (list string)) (n : nat) : Prop :=
  match legend with
  | None => True
  | Some names => (n <= length names)%nat
  end.

Definition is_plot (c : ax_call) : Prop :=
  match c with
  | ax_plot _ _ _ => True
  | _ => False
  end.

(** The four calls that set the ticks, made before the groups are walked. *)
Definition tick_calls : list ax_call :=
  [xaxis_set_ticks_position "both"; yaxis_set_ticks_position "both";
   xaxis_set_tick_params; yaxis_set_tick_params].

(** Shape of the eigenvectors: [n3] components at each grid point, [nb]
    bands for each component. *)
Definition eigenvectors_shape (e : list (list (list complex))) (n3 nb : nat)
  : Prop :=
  Forall (fun rows => length rows = n3 /\ Np.rectangular nb rows) e.

(** The eigenvector of every band at every grid point has norm one. *)
Definition unit_eigenvectors (e : list (list (list complex))) (n3 nb : nat)
  : Prop :=
  forall g b, (g < length e)%nat -> (b < nb)%nat ->
    Np.sum_n n3 (fun k => abs2 (nth b (nth k (nth g e []) []) c0)) = 1.

(** The sum of the rows of [partial_dos] that a group names, at each of
    [n] frequency indices. *)
Definition group_sum (n : nat) (partial_dos : list (list R))
    (set_for_sum : list Z) : list R :=
  map (fun f =>
         Np.sum (map (fun j => nth f (nth (Z.to_nat j) partial_dos []) 0)
                   set_for_sum))
    (seq 0 n).

(** The curves drawn for the groups [groups], the first of which is group
    number [pdos_ind]: for each group the frequency points against the sum
    of its rows, exchanged when [flip_xy] is set, labelled with the name
    the legend has for the group. *)
Fixpoint group_curves (flip_xy : bool) (frequency_points : list R)
    (partial_dos : list (list R)) (legend : option (list string))
    (pdos_ind : nat) (groups : list (list Z)) : list ax_call :=
  match groups with
  | [] => []
  | set_for_sum :: rest =>
      let label :=
        match legend with
        | Some names => Some (nth pdos_ind names EmptyString)
        | None => None
        end in
      let pdos_sum :=
        Arr (group_sum (length frequency_points) partial_dos set_for_sum) in
      (if flip_xy then ax_plot pdos_sum (Arr frequency_points) label
       else ax_plot (Arr frequency_points) pdos_sum label)
      :: group_curves flip_xy frequency_points partial_dos legend
           (S pdos_ind) rest
  end.

(** A fit routine raises on empty data, as [scipy.optimize.curve_fit]
    does. *)
Definition rejects_empty_data
    (fit : (R -> R -> R) -> list R -> list R -> option R) : Prop :=
  forall model xdata, fit model xdata [] = None.

(** ** Sample data *)

(** A mesh sample set with the given frequencies, weights and
    eigenvectors on a 1 x 1 x 1 mesh of the unit cubic cell. *)
Definition sample_mesh (F : list (list R)) (w : list R)
    (e : list (list (list complex))) : mesh_object :=
  {| frequencies := F;
     weights := w;
     eigenvectors := e;
     mesh_numbers := [1; 1; 1]%Z;
     grid_address := [[0; 0; 0]]%Z;
     grid_mapping_table := [0]%Z;
     ir_grid_points := [0]%Z;
     primitive := [[1; 0; 0]; [0; 1; 0]; [0; 0; 1]] |}.

(** One grid point with the two band frequencies 0 and 1. *)
Definition two_band_mesh : mesh_object := sample_mesh [[0; 1]] [1] [].

(** One grid point whose three band frequencies are all zero. *)
Definition flat_mesh : mesh_object := sample_mesh [[0; 0; 0]] [1] [].

(** The object under construction by [Dos(mesh, sigma)] when
    [set_draw_area] is called. *)
Definition under_construction (mesh : mesh_object) (sigma : option R) : Dos.t :=
  Dos.mk mesh (frequencies mesh) (weights mesh) None None sigma None.

(** External engines for the examples: no tetrahedron weights at all. *)
Definition no_weight : list Z -> list R -> list (list R) -> list (list Z) ->
    list Z -> list (list (list Z)) -> nat -> nat -> nat -> R :=
  fun _ _ _ _ _ _ _ _ _ => 0.
Definition no_ir_weights : list Z -> list R := fun _ => [].
Definition identity_inv : list (list R) -> option (list (list R)) := Some.
Definition no_tetrahedra : list (list R) -> list Z -> list (list (list Z)) :=
  fun _ _ => [].
Definition no_thm_iter : TetrahedronMesh -> list R -> list (list (list R)) :=
  fun _ _ => [].

(** A total-DOS engine in smearing mode (Cauchy kernel of width 1) on
    [two_band_mesh], with four frequency points and a DOS computed on
    them. *)
Definition four_point_base : Dos.t :=
  Dos.mk two_band_mesh (frequencies two_band_mesh) (weights two_band_mesh)
    None (Some [1; 2; 3; 4]) (Some 1) (Some (CauchyDistribution (Some 1))).

Definition four_point_dos : TotalDos.t :=
  TotalDos.mk four_point_base (Some [2; 8; 18; 32]) None None true.

(** One grid point of a crystal with one atom: three bands, whose
    eigenvectors are the three Cartesian unit vectors. *)
Definition one_atom_mesh : mesh_object :=
  sample_mesh [[1; 2; 3]] [1] [[[c1; c0; c0]; [c0; c1; c0]; [c0; c0; c1]]].

(** The engines built by [TotalDos(one_atom_mesh, sigma=1)] and
    [PartialDos(one_atom_mesh, sigma=1)]. *)
Definition one_atom_base : Dos.t :=
  Dos.mk one_atom_mesh [[1; 2; 3]] [1] None
    (Some (even_grid (- 9) (11 / 100) 201)) (Some 1)
    (Some (NormalDistribution (Some 1))).

Definition one_atom_total : TotalDos.t :=
  TotalDos.mk one_atom_base None None None true.

Definition one_atom_partial : PartialDos.t :=
  PartialDos.mk one_atom_base (eigenvectors one_atom_mesh) None [[[1; 1; 1]]]
    true.

(** An engine in tetrahedron mode on the one-atom mesh, with three
    frequency points. *)
Definition one_atom_thm : TetrahedronMesh :=
  {| thm_primitive := primitive one_atom_mesh;
     thm_frequencies := frequencies one_atom_mesh;
     thm_mesh := mesh_numbers one_atom_mesh;
     thm_grid_address := grid_address one_atom_mesh;
     thm_grid_mapping_table := grid_mapping_table one_atom_mesh;
     thm_ir_grid_points := ir_grid_points one_atom_mesh |}.

Definition one_atom_tetrahedron : TotalDos.t :=
  TotalDos.mk
    (Dos.mk one_atom_mesh [[1; 2; 3]] [1] (Some one_atom_thm)
       (Some [1; 2; 3]) (Some 1) (Some (NormalDistribution (Some 1))))
    None None None true.

(** A three-point grid with a DOS on it: a quarter of its length is below
    one, so no point is fitted. *)
Definition three_point_dos : TotalDos.t :=
  TotalDos.mk
    (Dos.mk two_band_mesh (frequencies two_band_mesh) (weights two_band_mesh)
       None (Some [1; 2; 3]) (Some 1) (Some (CauchyDistribution (Some 1))))
    (Some [1; 4; 9]) None None true.

(** Two irreducible grid points, with the weights 2 and 6, of a
    2 x 2 x 2 mesh, three bands each, and an engine in tetrahedron mode on
    them, with three frequency points; as external engine, the integration
    weight [g + b + 1] for the band [b] of the grid point [g] at every
    frequency point, and the weights of the two grid points. *)
Definition two_point_mesh : mesh_object :=
  {| frequencies := [[1; 2; 3]; [2; 3; 4]];
     weights := [2; 6];
     eigenvectors := [];
     mesh_numbers := [2; 2; 2]%Z;
     grid_address := [[0; 0; 0]; [1; 0; 0]]%Z;
     grid_mapping_table := [0; 1; 1; 1; 1; 1; 1; 0]%Z;
     ir_grid_points := [0; 1]%Z;
     primitive := [[1; 0; 0]; [0; 1; 0]; [0; 0; 1]] |}.

Definition two_point_thm : TetrahedronMesh :=
  {| thm_primitive := primitive two_point_mesh;
     thm_frequencies := frequencies two_point_mesh;
     thm_mesh := mesh_numbers two_point_mesh;
     thm_grid_address := grid_address two_point_mesh;
     thm_grid_mapping_table := grid_mapping_table two_point_mesh;
     thm_ir_grid_points := ir_grid_points two_point_mesh |}.

Definition two_point_tetrahedron : TotalDos.t :=
  TotalDos.mk
    (Dos.mk two_point_mesh (frequencies two_point_mesh)
       (weights two_point_mesh) (Some two_point_thm) (Some [1; 2; 3])
       (Some (3 / 100)) (Some (NormalDistribution (Some (3 / 100)))))
    None None None true.

Definition ramp_weight : list Z -> list R -> list (list R) -> list (list Z) ->
    list Z -> list (list (list Z)) -> nat -> nat -> nat -> R :=
  fun _ _ _ _ _ _ g b _ => INR (g + b + 1).
Definition two_point_ir_weights : list Z -> list R := fun _ => [2; 6].

(** ** Further quantities and functions of the module *)

(** The width a kernel was built with. *)
Definition width (k : smearing_function) : option R :=
  match k with
  | NormalDistribution sigma => sigma
  | CauchyDistribution gamma => gamma
  end.

(** Arrays without a negative entry. *)
Definition nonneg (a : list R) : Prop := Forall (fun x => 0 <= x) a.
Definition nonneg2 (a : list (list R)) : Prop := Forall nonneg a.
Definition nonneg3 (a : list (list (list R))) : Prop := Forall nonneg2 a.

(** The engine [self] with its weights replaced by [w]: another mesh
    provider giving the same sample set with other weights. *)
Definition with_weights (self : TotalDos.t) (w : list R) : TotalDos.t :=
  TotalDos.mk
    (Dos.mk (Dos._mesh_object (TotalDos.base self))
       (Dos._frequencies (TotalDos.base self)) w
       (Dos._tetrahedron_mesh (TotalDos.base self))
       (Dos._frequency_points (TotalDos.base self))
       (Dos._sigma (TotalDos.base self))
       (Dos._smearing_function (TotalDos.base self)))
    (TotalDos._dos self) (TotalDos._freq_Debye self)
    (TotalDos._Debye_fit_coef self) (TotalDos._openmp_thm self).

(** The entry of row [j] of a matrix at column [i], for an integer row
    index. *)
Definition row_entry (a : list (list R)) (i : nat) (j : Z) : R :=
  nth i (nth (Z.to_nat j) a []) 0.

(** The symmetry object, as [get_pdos_indices] reads it: the atom each
    atom is mapped to, and the independent atoms. *)
Record symmetry : Type := {
  get_map_atoms : list Z;
  get_independent_atoms : list Z
}.

(** [np.where(mapping == i)[0]]: the positions that hold [i], ascending. *)
Definition where_eq (mapping : list Z) (i : Z) : list Z :=
  map Z.of_nat
    (filter (fun k => (nth k mapping 0 =? i)%Z) (seq 0 (length mapping))).

Definition get_pdos_indices (s : symmetry) : list (list Z) :=
  map (where_eq (get_map_atoms s)) (get_independent_atoms s).

(** The call that shades the total, according to [flip_xy]. *)
Definition fill_call (flip_xy : bool) (total_dos : value) (points : list R)
  : ax_call :=
  if flip_xy then ax_fill_between total_dos points
  else ax_fill_betweenx total_dos points.

(** Shape of the integration weights a [TetrahedronMesh] yields: one
    matrix per grid point, [nf] frequency points by [nb] bands. *)
Definition iw_shape (iws : list (list (list R))) (ng nf nb : nat) : Prop :=
  length iws = ng
  /\ Forall (fun iw => length iw = nf /\ Np.rectangular nb iw) iws.

(** The sum the streaming tetrahedron path forms for channel [j] at the
    frequency index [f]: over the grid points [g] and the bands [b],
    [w[g] * iw[g][f][b] * e2[g][j][b]]. *)
Definition streamed_sum (w : list R) (iws e2 : list (list (list R)))
    (nb j f : nat) : R :=
  Np.sum_n (length iws) (fun g =>
    nth g w 0
    * Np.sum_n nb (fun b =>
        nth b (nth f (nth g iws []) []) 0 * nth b (nth j (nth g e2 []) []) 0)).

(** Shape of a three-dimensional array of any entries: [ng] matrices of
    [nch] rows and [nb] columns. *)
Definition shape3 {A} (a : list (list (list A))) (ng nch nb : nat) : Prop :=
  length a = ng
  /\ Forall (fun x => length x = nch /\ Np.rectangular nb x) a.

(** The rows [j * 3 + c] of the eigenvectors of every grid point, for the
    Cartesian component [c]: [eigenvectors[:, i_x, :]] and the like. *)
Definition component (c natom : nat) (e : list (list (list complex)))
  : list (list (list complex)) :=
  map (fun rows =>
         map (fun i => nth i rows []) (map (fun j => j * 3 + c)%nat (seq 0 natom)))
    e.

(** The eigenvector components of atom [j] along a direction with the
    components [d0], [d1], [d2]. *)
Definition along (d0 d1 d2 : R) (x y z : complex) : complex :=
  PartialDos.cadd
    (PartialDos.cadd (PartialDos.cscale x d0) (PartialDos.cscale y d1))
    (PartialDos.cscale z d2).

(** [np.linspace(0, stop, num)]: [num] evenly spaced points from 0 to
    [stop], the end point included; a negative [num] is an error. *)
Definition linspace (stop : R) (num : Z) : option (list R) :=
  if (num <? 0)%Z then None
  else
    let div := (num - 1)%Z in
    Some (map (fun i => if (0 <? div)%Z then INR i * (stop / IZR div)
                        else INR i * stop)
            (seq 0 (Z.to_nat num))).

(** The frequencies [freqs] of the Debye curve, as [plot_total_dos]
    computes them when a Debye frequency is given: the pitch is read from
    the first two frequency points; a zero pitch makes the quotient
    infinite or undefined, and [int] of it raises. *)
Definition Debye_freqs (frequency_points : list R) (freq_Debye : R)
  : option (list R) :=
  p1 <- nth_error frequency_points 1 ;;
  p0 <- nth_error frequency_points 0 ;;
  let freq_pitch := p1 - p0 in
  if Req_dec_T freq_pitch 0 then None
  else
    let num_points := Py.int (freq_Debye / freq_pitch) in
    linspace freq_Debye (num_points + 1).

(** [plot_total_dos].  The Debye curve is drawn when the Debye frequency
    is given and not zero, and needs the fit coefficient then, unless
    [freqs] is empty.  [None] is an exception; the axes are returned as
    they are when the function ends or raises. *)
Definition plot_total_dos (ax : axes) (frequency_points total_dos : list R)
    (freq_Debye Debye_fit_coef : option R) (xlabel ylabel : option string)
    (draw_grid flip_xy : bool) : axes * option unit :=
  let ax := ax ++ [xaxis_set_ticks_position "both"%string;
                   yaxis_set_ticks_position "both"%string;
                   xaxis_set_tick_params; yaxis_set_tick_params] in
  let freqs :=
    match freq_Debye with
    | None => Some []                      (* [freqs] is not bound *)
    | Some freq_Debye => Debye_freqs frequency_points freq_Debye
    end in
  let finish (ax : axes) : axes * option unit :=
    let ax := match truthy xlabel with Some s => ax ++ [ax_set_xlabel s] | None => ax end in
    let ax := match truthy ylabel with Some s => ax ++ [ax_set_ylabel s] | None => ax end in
    (ax ++ [ax_grid draw_grid], Some tt) in
  match freqs with
  | None => (ax, None)
  | Some freqs =>
      let ax :=
        if flip_xy then ax ++ [ax_plot (Arr total_dos) (Arr frequency_points) None]
        else ax ++ [ax_plot (Arr frequency_points) (Arr total_dos) None] in
      match freq_Debye with
      | None => finish ax
      | Some freq_Debye =>
          if Req_dec_T freq_Debye 0 then finish ax
          else
            (* [Debye_fit_coef * freqs**2]: the product with [None] raises
               on the first entry of the array, and an empty array has
               none. *)
            let product :=
              match Debye_fit_coef with
              | Some coef => Some (map (fun x => coef * x ^ 2) freqs)
              | None =>
                  match freqs with
                  | [] => Some []
                  | _ :: _ => None
                  end
              end in
            match product with
            | None => (ax, None)
            | Some values =>
                let parabola := values ++ [0] in
                let abscissa := freqs ++ [freq_Debye] in
                if flip_xy then
                  finish (ax ++ [ax_plot (Arr parabola) (Arr abscissa) None])
                else
                  finish (ax ++ [ax_plot (Arr abscissa) (Arr parabola) None])
            end
      end
  end.

(** A curve, drawn with its axes exchanged when [flip_xy] is set. *)
Definition curve (flip_xy : bool) (x y : list R) : ax_call :=
  if flip_xy then ax_plot (Arr y) (Arr x) None
  else ax_plot (Arr x) (Arr y) None.

(** The calls that set the axis labels that are given and not empty. *)
Definition label_calls (xlabel ylabel : option string) : list ax_call :=
  (match truthy xlabel with Some s => [ax_set_xlabel s] | None => [] end)
  ++ (match truthy ylabel with Some s => [ax_set_ylabel s] | None => [] end).



(** ** Further sample data *)

(** Three atoms, the second mapped to the first: the independent atoms
    are 0 and 2. *)
Definition two_site_symmetry : symmetry :=
  {| get_map_atoms := [0; 0; 2]%Z; get_independent_atoms := [0; 2]%Z |}.

(** The one-atom engines in tetrahedron mode with [_openmp_thm] switched
    off, and a mesh iterator that yields, for the single grid point, the
    integration weight one for every frequency point and band. *)
Definition one_atom_streaming : TotalDos.t :=
  TotalDos.mk (TotalDos.base one_atom_tetrahedron) None None None false.

Definition one_atom_partial_streaming : PartialDos.t :=
  PartialDos.mk (TotalDos.base one_atom_tetrahedron)
    (eigenvectors one_atom_mesh) None [[[1; 1; 1]]] false.

Definition unit_thm_iter : TetrahedronMesh -> list R -> list (list (list R)) :=
  fun _ points => [map (fun _ => [1; 1; 1]) points].
(** * Properties *)

(** ** Lists, finite sums and the exception monad *)

Lemma nth_map_lt {A B} (f : A -> B) (l : list A) (i : nat) (d : B) (d' : A) :
  (i < length l)%nat -> nth i (map f l) d = f (nth i l d').
Proof.
  intros Hi.
  rewrite (nth_indep (map f l) d (f d')) by (rewrite length_map; exact Hi).
  apply map_nth.
Qed.

Lemma nth_map_seq {B} (f : nat -> B) (n i : nat) (d : B) :
  (i < n)%nat -> nth i (map f (seq 0 n)) d = f i.
Proof.
  intros Hi.
  rewrite (nth_map_lt f (seq 0 n) i d 0%nat) by (rewrite length_seq; exact Hi).
  rewrite seq_nth by exact Hi. reflexivity.
Qed.

Lemma sum_n_ext (n : nat) (f g : nat -> R) :
  (forall i, (i < n)%nat -> f i = g i) -> Np.sum_n n f = Np.sum_n n g.
Proof.
  induction n as [|n IH]; intros H; simpl.
  - reflexivity.
  - rewrite IH by (intros i Hi; apply H; lia).
    rewrite (H n) by lia. reflexivity.
Qed.

Lemma sum_n_plus (n : nat) (f g : nat -> R) :
  Np.sum_n n (fun i => f i + g i) = Np.sum_n n f + Np.sum_n n g.
Proof.
  induction n as [|n IH]; simpl.
  - lra.
  - rewrite IH. lra.
Qed.

Lemma sum_n_scal (n : nat) (a : R) (f : nat -> R) :
  Np.sum_n n (fun i => a * f i) = a * Np.sum_n n f.
Proof.
  induction n as [|n IH]; simpl.
  - lra.
  - rewrite IH. lra.
Qed.

Lemma sum_n_zero (n : nat) : Np.sum_n n (fun _ => 0) = 0.
Proof.
  induction n as [|n IH]; simpl; [reflexivity | rewrite IH; lra].
Qed.

(** Two nested finite sums commute. *)
Lemma sum_n_exchange (n m : nat) (f : nat -> nat -> R) :
  Np.sum_n n (fun i => Np.sum_n m (fun j => f i j))
  = Np.sum_n m (fun j => Np.sum_n n (fun i => f i j)).
Proof.
  induction n as [|n IH]; simpl.
  - symmetry. apply sum_n_zero.
  - rewrite IH. symmetry. apply sum_n_plus.
Qed.

(** [np.sum] of a comprehension over [range(n)] is the indexed sum. *)
Lemma sum_map_seq (n : nat) (f : nat -> R) :
  Np.sum (map f (seq 0 n)) = Np.sum_n n f.
Proof.
  induction n as [|n IH].
  - reflexivity.
  - rewrite seq_S, map_app. simpl Np.sum_n. rewrite <- IH.
    unfold Np.sum. rewrite fold_right_app. simpl.
    generalize (map f (seq 0 n)) as l. intros l.
    induction l as [|x l IHl]; simpl; [lra | rewrite IHl; lra].
Qed.

Lemma sum_as_sum_n (l : list R) :
  Np.sum l = Np.sum_n (length l) (fun i => nth i l 0).
Proof.
  rewrite <- sum_map_seq. f_equal.
  apply nth_ext with (d := 0) (d' := 0).
  - rewrite length_map, length_seq. reflexivity.
  - intros i Hi. rewrite nth_map_seq by exact Hi. reflexivity.
Qed.

(** The sum of the entries of [np.dot(w, m)], grid points outermost. *)
Lemma sum_dot (w : list R) (m : list (list R)) :
  Np.sum (Np.dot w m)
  = Np.sum_n (length m) (fun g =>
      Np.sum_n (Np.ncols m) (fun b => nth g w 0 * nth b (nth g m []) 0)).
Proof.
  unfold Np.dot. rewrite sum_map_seq. symmetry. apply sum_n_exchange.
Qed.

Lemma traverse_total {A B} (f : A -> option B) (g : A -> B) (l : list A) :
  (forall x, In x l -> f x = Some (g x)) -> traverse f l = Some (map g l).
Proof.
  induction l as [|x l IH]; intros H; simpl.
  - reflexivity.
  - rewrite (H x) by (left; reflexivity).
    rewrite IH by (intros y Hy; apply H; right; exact Hy).
    reflexivity.
Qed.

Lemma ncols_map {A B} (f : list A -> list B) (m : list (list A)) :
  (forall r, length (f r) = length r) -> Np.ncols (map f m) = Np.ncols m.
Proof.
  intros H. destruct m as [|r m]; simpl; [reflexivity | apply H].
Qed.

Lemma rectangular_nth {A} (c : nat) (m : list (list A)) (g : nat) :
  Np.rectangular c m -> (g < length m)%nat -> length (nth g m []) = c.
Proof.
  unfold Np.rectangular. rewrite Forall_forall. intros H Hg.
  apply H. apply nth_In. exact Hg.
Qed.

Lemma rectangular_ncols {A} (c : nat) (m : list (list A)) :
  Np.rectangular c m -> m <> [] -> Np.ncols m = c.
Proof.
  intros H Hm. destruct m as [|r m]; [congruence|].
  simpl. inversion H; subst. reflexivity.
Qed.

(** ** The smearing path of the total DOS *)

Lemma amplitudes_nth (c : R -> R) (F : list (list R)) (nb : nat) (f : R)
    (g b : nat) :
  Np.rectangular nb F -> (g < length F)%nat -> (b < nb)%nat ->
  nth b (nth g (map (map c) (Np.sub_scalar F f)) []) 0
  = c (nth b (nth g F []) 0 - f).
Proof.
  intros HF Hg Hb. unfold Np.sub_scalar.
  pose proof (rectangular_nth nb F g HF Hg) as Hlen.
  rewrite (nth_map_lt (map c) _ g [] [])
    by (rewrite length_map; exact Hg).
  rewrite (nth_map_lt (map (fun x => x - f)) F g [] []) by exact Hg.
  rewrite (nth_map_lt c _ b 0 0) by (rewrite length_map; lia).
  rewrite (nth_map_lt (fun x => x - f) _ b 0 0) by lia.
  reflexivity.
Qed.

Lemma amplitudes_ncols (c : R -> R) (F : list (list R)) (f : R) :
  Np.ncols (map (map c) (Np.sub_scalar F f)) = Np.ncols F.
Proof.
  unfold Np.sub_scalar.
  rewrite ncols_map by (intros; apply length_map).
  apply ncols_map. intros; apply length_map.
Qed.

Lemma amplitudes_length (c : R -> R) (F : list (list R)) (f : R) :
  length (map (map c) (Np.sub_scalar F f)) = length F.
Proof. unfold Np.sub_scalar. rewrite !length_map. reflexivity. Qed.

Lemma density_sum (w : list R) (F : list (list R)) (nb : nat) (c : R -> R)
    (f : R) :
  Np.rectangular nb F ->
  Np.sum (Np.dot w (map (map c) (Np.sub_scalar F f))) = smeared_sum w F nb c f.
Proof.
  intros HF. rewrite sum_dot, amplitudes_length, amplitudes_ncols.
  unfold smeared_sum. apply sum_n_ext. intros g Hg.
  assert (HFne : F <> []) by (destruct F; simpl in Hg; [lia | congruence]).
  rewrite (rectangular_ncols nb F HF HFne).
  apply sum_n_ext. intros b Hb.
  rewrite (amplitudes_nth c F nb f g b HF Hg Hb). reflexivity.
Qed.


(** ** The smearing path of the partial DOS *)

Lemma length_zip_with {A B C} (f : A -> B -> C) (a : list A) (b : list B) :
  length (Np.zip_with f a b) = Nat.min (length a) (length b).
Proof.
  revert b. induction a as [|x a IH]; intros [|y b]; simpl; auto.
Qed.

Lemma nth_zip_with {A B C} (f : A -> B -> C) (a : list A) (b : list B)
    (i : nat) (d : C) (da : A) (db : B) :
  (i < length a)%nat -> (i < length b)%nat ->
  nth i (Np.zip_with f a b) d = f (nth i a da) (nth i b db).
Proof.
  revert b i. induction a as [|x a IH]; intros [|y b] [|i] Ha Hb;
    simpl in *; try lia; auto.
  apply IH; lia.
Qed.

Lemma eigvecs2_shape_nth (e2 : list (list (list R))) (ng nch nb g : nat) :
  eigvecs2_shape e2 ng nch nb -> (g < ng)%nat ->
  length (nth g e2 []) = nch /\ Np.rectangular nb (nth g e2 []).
Proof.
  intros [Hlen Hall] Hg. rewrite Forall_forall in Hall.
  apply Hall. apply nth_In. lia.
Qed.

Lemma channel_nth (e2 : list (list (list R))) (ng nch nb g j : nat) :
  eigvecs2_shape e2 ng nch nb -> (g < ng)%nat ->
  nth g (PartialDos.channel j e2) [] = nth j (nth g e2 []) [].
Proof.
  intros [Hlen Hall] Hg. unfold PartialDos.channel.
  rewrite (nth_map_lt (fun at_g => nth j at_g []) e2 g [] []) by lia.
  reflexivity.
Qed.

(** One entry of the partial DOS, grid points outermost. *)
Lemma pdos_entry_sum (w : list R) (e2 : list (list (list R)))
    (F : list (list R)) (c : R -> R) (f : R) (nch nb j : nat) :
  Np.rectangular nb F -> eigvecs2_shape e2 (length F) nch nb ->
  (j < nch)%nat ->
  PartialDos.pdos_entry w e2 (map (map c) (Np.sub_scalar F f)) j
  = Np.sum_n (length F) (fun g =>
      Np.sum_n nb (fun b =>
        nth g w 0 * c (nth b (nth g F []) 0 - f)
        * nth b (nth j (nth g e2 []) []) 0)).
Proof.
  intros HF He2 Hj. unfold PartialDos.pdos_entry.
  set (amp := map (map c) (Np.sub_scalar F f)).
  assert (Hch : length (PartialDos.channel j e2) = length F).
  { unfold PartialDos.channel. rewrite length_map. apply He2. }
  assert (Hamp : length amp = length F) by apply amplitudes_length.
  assert (Hlen : length (Np.mul2 (PartialDos.channel j e2) amp) = length F).
  { unfold Np.mul2. rewrite length_zip_with, Hch, Hamp. apply Nat.min_id. }
  rewrite sum_dot, Hlen.
  apply sum_n_ext. intros g0 Hg0.
  assert (H0 : (0 < length F)%nat) by lia.
  assert (Hrow : forall g, (g < length F)%nat ->
            nth g (Np.mul2 (PartialDos.channel j e2) amp) []
            = Np.zip_with Rmult (nth j (nth g e2 []) []) (nth g amp [])).
  { intros g Hg. unfold Np.mul2.
    rewrite (nth_zip_with _ _ _ g [] [] []) by lia.
    rewrite (channel_nth e2 (length F) nch nb g j He2 Hg). reflexivity. }
  assert (He2row : forall g, (g < length F)%nat ->
            length (nth j (nth g e2 []) []) = nb).
  { intros g Hg.
    destruct (eigvecs2_shape_nth e2 (length F) nch nb g He2 Hg) as [Hn Hr].
    apply rectangular_nth; [exact Hr | lia]. }
  assert (Hamprow : forall g, (g < length F)%nat -> length (nth g amp []) = nb).
  { intros g Hg. unfold amp, Np.sub_scalar.
    rewrite (nth_map_lt (map c) _ g [] []) by (rewrite length_map; exact Hg).
    rewrite (nth_map_lt (map (fun x => x - f)) F g [] []) by exact Hg.
    rewrite !length_map. apply rectangular_nth; assumption. }
  assert (Hnc : Np.ncols (Np.mul2 (PartialDos.channel j e2) amp) = nb).
  { pose proof (Hrow 0%nat H0) as Hr0.
    destruct (Np.mul2 (PartialDos.channel j e2) amp) as [|r0 rest] eqn:Em;
      [simpl in Hlen; lia|].
    simpl in Hr0. simpl. rewrite Hr0, length_zip_with.
    rewrite (He2row 0%nat H0), (Hamprow 0%nat H0). apply Nat.min_id. }
  rewrite Hnc. apply sum_n_ext. intros b Hb.
  rewrite (Hrow g0 Hg0).
  rewrite (nth_zip_with Rmult _ _ b 0 0 0)
    by (rewrite ?He2row, ?Hamprow; assumption).
  unfold amp. rewrite (amplitudes_nth c F nb f g0 b HF Hg0 Hb). lra.
Qed.

(** Summed over the channels, the entries of the partial DOS at one
    frequency point give the value of the total DOS there. *)
Lemma channel_sum (w : list R) (e2 : list (list (list R)))
    (F : list (list R)) (c : R -> R) (f : R) (nch nb : nat) :
  mesh_shape w F nb -> eigvecs2_shape e2 (length F) nch nb ->
  normalized e2 nch nb ->
  Np.sum_n nch
    (PartialDos.pdos_entry (map (fun x => x / Np.sum w) w) e2
       (map (map c) (Np.sub_scalar F f)))
  = smeared_sum w F nb c f / Np.sum w.
Proof.
  intros [Hlen HF] He2 Hnorm.
  set (w' := map (fun x => x / Np.sum w) w).
  set (X := fun g b => nth g w' 0 * c (nth b (nth g F []) 0 - f)).
  set (E := fun g j b => nth b (nth j (nth g e2 []) []) 0).
  rewrite (sum_n_ext nch _
             (fun j => Np.sum_n (length F) (fun g =>
                Np.sum_n nb (fun b => X g b * E g j b))))
    by (intros j Hj; apply (pdos_entry_sum w' e2 F c f nch nb j); assumption).
  rewrite (sum_n_exchange nch (length F)
             (fun j g => Np.sum_n nb (fun b => X g b * E g j b))).
  unfold smeared_sum, Rdiv. rewrite Rmult_comm, <- sum_n_scal.
  apply sum_n_ext. intros g Hg.
  rewrite (sum_n_exchange nch nb (fun j b => X g b * E g j b)).
  rewrite <- sum_n_scal. apply sum_n_ext. intros b Hb.
  rewrite sum_n_scal. unfold E.
  rewrite Hnorm by (destruct He2 as [He2 _]; lia || assumption).
  unfold X, w'.
  rewrite (nth_map_lt (fun x => x / Np.sum w) w g 0 0) by lia.
  unfold Rdiv. ring.
Qed.

(** ** Summing groups of channels *)

Lemma sum_app (l l' : list R) : Np.sum (l ++ l') = Np.sum l + Np.sum l'.
Proof.
  induction l as [|x l IH]; simpl; [lra | rewrite IH; lra].
Qed.

Lemma sum_map_permutation {A} (f : A -> R) (l l' : list A) :
  Permutation l l' -> Np.sum (map f l) = Np.sum (map f l').
Proof.
  induction 1; simpl; lra.
Qed.

Lemma in_range_checks (natoms : nat) (i : Z) :
  in_range natoms i ->
  (i >? Z.of_nat natoms - 1)%Z = false /\ (i <? 0)%Z = false.
Proof.
  unfold in_range. intros H. split.
  - rewrite Z.gtb_ltb. apply Z.ltb_ge. lia.
  - apply Z.ltb_ge. lia.
Qed.

(** Adding a row that has the length of the running sum. *)
Lemma add_row_shape (n : nat) (v : value) (row : list R) :
  value_shape n v -> length row = n ->
  exists a,
    add_row v row = Ok (Arr a)
    /\ length a = n
    /\ forall i, (i < n)%nat -> nth i a 0 = value_at v i + nth i row 0.
Proof.
  intros Hv Hrow. destruct v as [|b]; simpl in *.
  - exists row. repeat split; auto. intros; lra.
  - rewrite Hrow, Hv, Nat.eqb_refl. eexists. split; [reflexivity|]. split.
    + rewrite length_zip_with, Hv, Hrow. apply Nat.min_id.
    + intros i Hi. apply nth_zip_with; lia.
Qed.

(** A group whose indices are all in range, on rows of the length of the
    running sum, is summed without error, and the sum adds the selected
    rows to the initial value. *)
Lemma sum_group_in_range (n : nat) (partial_dos : list (list R))
    (set_for_sum : list Z) (v : value) :
  Np.rectangular n partial_dos ->
  Forall (in_range (length partial_dos)) set_for_sum ->
  value_shape n v ->
  exists v',
    sum_group (length partial_dos) partial_dos set_for_sum v = Ok v'
    /\ value_shape n v'
    /\ (forall i, (i < n)%nat ->
          value_at v' i
          = value_at v i
            + Np.sum (map (fun j => nth i (nth (Z.to_nat j) partial_dos []) 0)
                        set_for_sum))
    /\ (set_for_sum = [] -> v' = v)
    /\ (set_for_sum <> [] \/ v <> Int0 -> exists a, v' = Arr a).
Proof.
  intros Hrect Hall. revert v.
  induction Hall as [|j grp Hj Hall IH]; intros v Hv.
  - exists v. simpl. repeat split; auto; [intros; lra|].
    intros [H|H]; [congruence|]. destruct v as [|a]; [congruence | eauto].
  - destruct (in_range_checks _ _ Hj) as [H1 H2].
    simpl. rewrite H1, H2.
    set (row := nth (Z.to_nat j) partial_dos []).
    assert (Hrow : length row = n).
    { apply rectangular_nth; [exact Hrect|]. unfold in_range in Hj. lia. }
    destruct (add_row_shape n v row Hv Hrow) as (a1 & Hadd & Hl1 & Hv1).
    rewrite Hadd.
    destruct (IH (Arr a1) Hl1) as (v' & Hrun & Hshape & Hval & _ & Harr).
    exists v'. split; [exact Hrun|]. split; [exact Hshape|].
    split; [|split].
    + intros i Hi. rewrite (Hval i Hi). simpl. rewrite (Hv1 i Hi).
      fold row. lra.
    + discriminate.
    + intros _. apply Harr. right. discriminate.
Qed.

(** A grouping whose indices are all in range yields one sum per group,
    and the sums together add up the rows selected by all the groups. *)
Lemma get_pdos_loop_in_range (n : nat) (partial_dos : list (list R))
    (indices : list (list Z)) :
  Np.rectangular n partial_dos ->
  Forall (Forall (in_range (length partial_dos))) indices ->
  exists pdos_list,
    get_pdos_loop (length partial_dos) partial_dos indices = Ok pdos_list
    /\ length pdos_list = length indices
    /\ forall i, (i < n)%nat ->
         Np.sum (map (fun v => value_at v i) pdos_list)
         = Np.sum (map (fun j => nth i (nth (Z.to_nat j) partial_dos []) 0)
                     (concat indices)).
Proof.
  intros Hrect Hall.
  induction Hall as [|grp rest Hgrp Hall IH].
  - exists []. simpl. repeat split; auto.
  - destruct (sum_group_in_range n partial_dos grp Int0 Hrect Hgrp I)
      as (v & Hrun & _ & Hval & _).
    destruct IH as (l & Hloop & Hlen & Hsum).
    exists (v :: l). simpl. rewrite Hrun, Hloop. repeat split.
    + simpl. congruence.
    + intros i Hi. rewrite map_app, sum_app, <- (Hsum i Hi), (Hval i Hi).
      simpl. lra.
Qed.

(** ** Both engines in smearing mode *)

Lemma transpose_nth (n : nat) (columns : list (list R)) (j i : nat) :
  (j < n)%nat -> (i < length columns)%nat ->
  nth i (nth j (Np.transpose n columns) []) 0 = nth j (nth i columns []) 0.
Proof.
  intros Hj Hi. unfold Np.transpose.
  rewrite nth_map_seq by exact Hj.
  rewrite (nth_map_lt (fun r => nth j r 0) columns i 0 []) by exact Hi.
  reflexivity.
Qed.

Lemma transpose_rectangular (n : nat) (columns : list (list R)) :
  Np.rectangular (length columns) (Np.transpose n columns).
Proof.
  unfold Np.rectangular, Np.transpose. rewrite Forall_forall.
  intros r Hr. apply in_map_iff in Hr. destruct Hr as (j & <- & _).
  apply length_map.
Qed.

Section Smearing.

Variable integration_weight :
  list Z -> list R -> list (list R) -> list (list Z) -> list Z ->
  list (list (list Z)) -> nat -> nat -> nat -> R.
Variable ir_weights : list Z -> list R.
Variable linalg_inv : list (list R) -> option (list (list R)).
Variable get_tetrahedra : list (list R) -> list Z -> list (list (list Z)).
Variable thm_iter : TetrahedronMesh -> list R -> list (list (list R)).

(** The state [run] leaves in smearing mode. *)
Lemma total_dos_run_smearing
    (self : TotalDos.t) (points : list R) (k : smearing_function)
    (c : R -> R) (nb : nat) :
  Dos._tetrahedron_mesh (TotalDos.base self) = None ->
  Dos._frequency_points (TotalDos.base self) = Some points ->
  Dos._smearing_function (TotalDos.base self) = Some k ->
  calc k = Some c ->
  Np.rectangular nb (Dos._frequencies (TotalDos.base self)) ->
  TotalDos.run integration_weight ir_weights linalg_inv get_tetrahedra
    thm_iter self
  = Some (TotalDos.mk (TotalDos.base self)
            (Some (map (fun f =>
                     smeared_sum (Dos._weights (TotalDos.base self))
                       (Dos._frequencies (TotalDos.base self)) nb c f
                     / Np.sum (Dos._weights (TotalDos.base self))) points))
            (TotalDos._freq_Debye self) (TotalDos._Debye_fit_coef self)
            (TotalDos._openmp_thm self)).
Proof.
  intros Hthm Hpts Hk Hc Hrect.
  unfold TotalDos.run. rewrite Hthm, Hpts.
  rewrite (traverse_total _
             (fun f => smeared_sum (Dos._weights (TotalDos.base self))
                         (Dos._frequencies (TotalDos.base self)) nb c f
                       / Np.sum (Dos._weights (TotalDos.base self))) points).
  - reflexivity.
  - intros f _. unfold TotalDos._get_density_of_states_at_freq.
    rewrite Hk, Hc, (density_sum _ _ nb c f Hrect). reflexivity.
Qed.

(** C1.  In smearing mode (no tetrahedron mesh), on a mesh sample set
    whose weights have a positive sum, [run] succeeds and stores one DOS
    value per frequency point: at the point [f] it is the sum over the
    grid points [g] and the bands [b] of
    [weight[g] * kernel.calc(frequencies[g][b] - f)], divided by the sum
    of the weights, where the kernel is the smearing function currently
    selected. *)
Theorem total_dos_smearing_value
    (self : TotalDos.t) (points : list R) (k : smearing_function)
    (c : R -> R) (nb : nat) :
  Dos._tetrahedron_mesh (TotalDos.base self) = None ->
  Dos._frequency_points (TotalDos.base self) = Some points ->
  Dos._smearing_function (TotalDos.base self) = Some k ->
  calc k = Some c ->
  mesh_shape (Dos._weights (TotalDos.base self))
    (Dos._frequencies (TotalDos.base self)) nb ->
  0 < Np.sum (Dos._weights (TotalDos.base self)) ->
  exists self' dos,
    TotalDos.run integration_weight ir_weights linalg_inv get_tetrahedra
      thm_iter self = Some self'
    /\ TotalDos._dos self' = Some dos
    /\ length dos = length points
    /\ forall i, (i < length points)%nat ->
         nth i dos 0
         = smeared_sum (Dos._weights (TotalDos.base self))
             (Dos._frequencies (TotalDos.base self)) nb c (nth i points 0)
           / Np.sum (Dos._weights (TotalDos.base self)).
Proof.
  intros Hthm Hpts Hk Hc [_ Hrect] _.
  eexists. eexists. split; [|split; [|split]].
  - apply (total_dos_run_smearing self points k c nb); assumption.
  - reflexivity.
  - apply length_map.
  - intros i Hi.
    rewrite (nth_map_lt _ points i 0 0) by exact Hi. reflexivity.
Qed.

(** The state the partial-DOS engine is left in by the smearing path. *)
Lemma partial_dos_run_smearing
    (self : PartialDos.t) (points : list R) (k : smearing_function)
    (c : R -> R) :
  Dos._frequency_points (PartialDos.base self) = Some points ->
  Dos._smearing_function (PartialDos.base self) = Some k ->
  calc k = Some c ->
  PartialDos._run_smearing_method self
  = Some (PartialDos.mk (PartialDos.base self)
            (PartialDos._eigenvectors self)
            (Some (Np.transpose (Np.ncols (PartialDos._eigvecs2 self))
               (map (fun freq =>
                  map (PartialDos.pdos_entry
                         (map (fun w =>
                            w / Np.sum (Dos._weights (PartialDos.base self)))
                            (Dos._weights (PartialDos.base self)))
                         (PartialDos._eigvecs2 self)
                         (map (map c)
                            (Np.sub_scalar
                               (Dos._frequencies (PartialDos.base self)) freq)))
                    (seq 0 (Np.ncols (PartialDos._eigvecs2 self))))
                  points)))
            (PartialDos._eigvecs2 self) (PartialDos._openmp_thm self)).
Proof.
  intros Hpts Hk Hc. unfold PartialDos._run_smearing_method.
  rewrite Hpts.
  erewrite traverse_total; [reflexivity|].
  intros f _. rewrite Hk, Hc. reflexivity.
Qed.

(** C3.  Both engines in smearing mode on the same mesh, sigma, frequency
    points and kernel, with projection coefficients that sum to one over
    the channels at every grid point and band (which the default
    isotropic projection of normalized eigenvectors gives): both runs
    succeed, the rows of the partial DOS summed over all the channels give
    the total DOS at every frequency point, and so do the sums returned by
    [get_pdos] for any grouping of the channels that contains every
    channel exactly once. *)
Theorem partial_dos_sums_to_total_dos
    (p : PartialDos.t) (t : TotalDos.t) (points : list R)
    (k : smearing_function) (c : R -> R) (nb : nat) :
  PartialDos.base p = TotalDos.base t ->
  Dos._tetrahedron_mesh (TotalDos.base t) = None ->
  Dos._frequency_points (TotalDos.base t) = Some points ->
  Dos._smearing_function (TotalDos.base t) = Some k ->
  calc k = Some c ->
  mesh_shape (Dos._weights (TotalDos.base t))
    (Dos._frequencies (TotalDos.base t)) nb ->
  eigvecs2_shape (PartialDos._eigvecs2 p)
    (length (Dos._frequencies (TotalDos.base t)))
    (Np.ncols (PartialDos._eigvecs2 p)) nb ->
  normalized (PartialDos._eigvecs2 p) (Np.ncols (PartialDos._eigvecs2 p)) nb ->
  exists p' t' pdos dos,
    PartialDos.run thm_iter p = Some p'
    /\ TotalDos.run integration_weight ir_weights linalg_inv get_tetrahedra
         thm_iter t = Some t'
    /\ PartialDos._partial_dos p' = Some pdos
    /\ TotalDos._dos t' = Some dos
    /\ length pdos = Np.ncols (PartialDos._eigvecs2 p)
    /\ (forall i, (i < length points)%nat ->
          Np.sum_n (length pdos) (fun j => nth i (nth j pdos []) 0)
          = nth i dos 0)
    /\ (forall ax indices,
          Permutation (concat indices)
            (map Z.of_nat (seq 0 (length pdos))) ->
          exists pdos_list,
            get_pdos ax pdos (Some indices) = Ok pdos_list
            /\ length pdos_list = length indices
            /\ forall i, (i < length points)%nat ->
                 Np.sum (map (fun v => value_at v i) pdos_list)
                 = nth i dos 0).
Proof.
  intros Hbase Hthm Hpts Hk Hc Hmesh He2 Hnorm.
  set (w := Dos._weights (TotalDos.base t)) in *.
  set (F := Dos._frequencies (TotalDos.base t)) in *.
  set (e2 := PartialDos._eigvecs2 p) in *.
  set (nch := Np.ncols e2) in *.
  set (entry := fun freq =>
         PartialDos.pdos_entry (map (fun x => x / Np.sum w) w) e2
           (map (map c) (Np.sub_scalar F freq))).
  set (columns := map (fun freq => map (entry freq) (seq 0 nch)) points).
  set (pdos := Np.transpose nch columns).
  set (dos := map (fun f => smeared_sum w F nb c f / Np.sum w) points).
  assert (Hcols : length columns = length points)
    by (unfold columns; apply length_map).
  assert (Hlen : length pdos = nch)
    by (unfold pdos, Np.transpose; rewrite length_map, length_seq; reflexivity).
  assert (Hentry : forall i j, (i < length points)%nat -> (j < nch)%nat ->
            nth i (nth j pdos []) 0 = entry (nth i points 0) j).
  { intros i j Hi Hj. unfold pdos.
    rewrite transpose_nth by (rewrite ?Hcols; assumption).
    unfold columns.
    rewrite (nth_map_lt _ points i [] 0) by exact Hi.
    apply nth_map_seq. exact Hj. }
  assert (Hsum : forall i, (i < length points)%nat ->
            Np.sum_n (length pdos) (fun j => nth i (nth j pdos []) 0)
            = nth i dos 0).
  { intros i Hi. rewrite Hlen.
    rewrite (sum_n_ext nch _ (entry (nth i points 0)))
      by (intros j Hj; apply Hentry; assumption).
    unfold entry.
    rewrite (channel_sum w e2 F c (nth i points 0) nch nb Hmesh He2 Hnorm).
    unfold dos. rewrite (nth_map_lt _ points i 0 0) by exact Hi.
    reflexivity. }
  exists (PartialDos.mk (PartialDos.base p) (PartialDos._eigenvectors p)
            (Some pdos) e2 (PartialDos._openmp_thm p)).
  exists (TotalDos.mk (TotalDos.base t) (Some dos) (TotalDos._freq_Debye t)
            (TotalDos._Debye_fit_coef t) (TotalDos._openmp_thm t)).
  exists pdos, dos.
  split; [|split; [|split; [|split; [|split; [|split]]]]];
    try reflexivity; try assumption.
  - unfold PartialDos.run. rewrite Hbase, Hthm.
    rewrite (partial_dos_run_smearing p points k c)
      by (rewrite ?Hbase; assumption).
    rewrite Hbase. reflexivity.
  - apply (total_dos_run_smearing t points k c nb); try assumption.
    apply Hmesh.
  - intros ax indices Hperm.
    assert (Hrect : Np.rectangular (length points) pdos).
    { rewrite <- Hcols. apply transpose_rectangular. }
    assert (Hall : Forall (Forall (in_range (length pdos))) indices).
    { apply Forall_concat. rewrite Forall_forall. intros x Hx.
      apply (Permutation_in _ Hperm) in Hx.
      apply in_map_iff in Hx. destruct Hx as (j & <- & Hj).
      apply in_seq in Hj. unfold in_range. lia. }
    destruct (get_pdos_loop_in_range (length points) pdos indices Hrect Hall)
      as (l & Hrun & Hl & Hval).
    exists l. split; [exact Hrun | split; [exact Hl|]].
    intros i Hi. rewrite (Hval i Hi), <- (Hsum i Hi).
    rewrite (sum_map_permutation _ _ _ Hperm), map_map.
    rewrite <- sum_map_seq. f_equal. apply map_ext.
    intros j. rewrite Nat2Z.id. reflexivity.
Qed.

End Smearing.

(** ** The frequency grid *)

Lemma ceil_spec (x : R) (z : Z) : IZR z - 1 < x <= IZR z -> Np.ceil x = z.
Proof.
  intros [H1 H2]. unfold Np.ceil.
  rewrite <- (Int_part_spec (- x) (- z)%Z).
  - lia.
  - rewrite opp_IZR. split; lra.
Qed.

Lemma fold_min_le (x : R) (l : list R) : fold_right Rmin x l <= x.
Proof.
  induction l as [|a l IH]; simpl.
  - lra.
  - apply Rle_trans with (fold_right Rmin x l); [apply Rmin_r | exact IH].
Qed.

Lemma fold_max_ge (x : R) (l : list R) : x <= fold_right Rmax x l.
Proof.
  induction l as [|a l IH]; simpl.
  - lra.
  - apply Rle_trans with (fold_right Rmax x l); [exact IH | apply Rmax_r].
Qed.

Lemma min2_le_max2 (F : list (list R)) (lo hi : R) :
  Np.min2 F = Some lo -> Np.max2 F = Some hi -> lo <= hi.
Proof.
  unfold Np.min2, Np.max2, Np.min, Np.max.
  destruct (concat F) as [|x l]; [discriminate|].
  intros [= <-] [= <-].
  apply Rle_trans with x; [apply fold_min_le | apply fold_max_ge].
Qed.

(** [np.arange] with the end point pushed a tenth of a step past 200
    steps: 201 points, whatever the sign of the step. *)
Lemma arange_200_steps (start step : R) :
  step <> 0 ->
  Np.arange start (start + 200 * step + step * (1 / 10)) step
  = Some (even_grid start step 201).
Proof.
  intros Hstep. unfold Np.arange.
  destruct (Req_dec_T step 0) as [E|_]; [contradiction|].
  replace ((start + 200 * step + step * (1 / 10) - start) / step)
    with (2001 / 10) by (field; exact Hstep).
  rewrite (ceil_spec (2001 / 10) 201) by lra.
  reflexivity.
Qed.

(** The state [set_draw_area()] leaves when the default pitch is not
    zero. *)
Lemma set_draw_area_default (self : Dos.t) (lo hi : R) :
  Np.min2 (Dos._frequencies self) = Some lo ->
  Np.max2 (Dos._frequencies self) = Some hi ->
  default_pitch (Dos._sigma self) lo hi <> 0 ->
  Dos.set_draw_area self None None None
  = Some (Dos.mk (Dos._mesh_object self) (Dos._frequencies self)
            (Dos._weights self) (Dos._tetrahedron_mesh self)
            (Some (even_grid (lo - chosen_sigma (Dos._sigma self) lo hi * 10)
                     (default_pitch (Dos._sigma self) lo hi) 201))
            (Some (chosen_sigma (Dos._sigma self) lo hi))
            (Dos._smearing_function self)).
Proof.
  intros Hlo Hhi Hp. unfold Dos.set_draw_area. rewrite Hlo, Hhi.
  fold (chosen_sigma (Dos._sigma self) lo hi).
  set (s := chosen_sigma (Dos._sigma self) lo hi) in *.
  set (p := default_pitch (Dos._sigma self) lo hi) in *.
  change ((hi + s * 10 - (lo - s * 10)) / 200) with p.
  replace (hi + s * 10 + p * (1 / 10))
    with (lo - s * 10 + 200 * p + p * (1 / 10))
    by (unfold p, default_pitch; fold s; field).
  rewrite (arange_200_steps _ p Hp). reflexivity.
Qed.

Lemma even_grid_nth (start pitch : R) (n i : nat) :
  (i < n)%nat -> nth i (even_grid start pitch n) 0 = start + INR i * pitch.
Proof.
  intros Hi. unfold even_grid.
  exact (nth_map_seq (fun i => start + INR i * pitch) n i 0 Hi).
Qed.

Lemma even_grid_length (start pitch : R) (n : nat) :
  length (even_grid start pitch n) = n.
Proof. unfold even_grid. rewrite length_map, length_seq. reflexivity. Qed.

Lemma even_grid_increasing (start pitch : R) (n : nat) :
  0 < pitch -> strictly_increasing (even_grid start pitch n).
Proof.
  intros Hp i j [Hij Hj]. rewrite even_grid_length in Hj.
  rewrite !even_grid_nth by lia.
  assert (INR i < INR j) by (apply lt_INR; exact Hij).
  nra.
Qed.

(** The default pitch is positive for a positive width, and for the
    default width as soon as two frequencies differ. *)
Lemma default_pitch_pos_sigma (s lo hi : R) :
  lo <= hi -> 0 < s -> 0 < default_pitch (Some s) lo hi.
Proof. intros. unfold default_pitch, chosen_sigma. lra. Qed.

Lemma default_pitch_pos_unset (lo hi : R) :
  lo < hi -> 0 < default_pitch None lo hi.
Proof. intros. unfold default_pitch, chosen_sigma. lra. Qed.

(** With the default width a grid is built or not, but never one that
    fails to increase: the default pitch is not negative. *)
Lemma default_pitch_unset_nonneg (F : list (list R)) (lo hi : R) :
  Np.min2 F = Some lo -> Np.max2 F = Some hi ->
  0 <= default_pitch None lo hi.
Proof.
  intros Hlo Hhi. pose proof (min2_le_max2 F lo hi Hlo Hhi).
  unfold default_pitch, chosen_sigma. lra.
Qed.

(** With a zero default pitch [set_draw_area] raises: no grid is built. *)
Lemma set_draw_area_zero_pitch (self : Dos.t) (lo hi : R) :
  Np.min2 (Dos._frequencies self) = Some lo ->
  Np.max2 (Dos._frequencies self) = Some hi ->
  default_pitch (Dos._sigma self) lo hi = 0 ->
  Dos.set_draw_area self None None None = None.
Proof.
  intros Hlo Hhi Hp. unfold Dos.set_draw_area. rewrite Hlo, Hhi.
  unfold default_pitch, chosen_sigma in Hp. unfold Np.arange.
  destruct (Req_dec_T _ 0) as [_|Hne]; [reflexivity|].
  exfalso. apply Hne. exact Hp.
Qed.

(** C4, as amended.  With no [freq_min], [freq_max] or [freq_pitch]: the
    width is the one given or, when unset, [(max - min)/100]; the grid
    starts ten widths below the least frequency, its pitch is the widened
    range divided by 200, and it is [np.arange] from the widened minimum
    to the widened maximum plus a tenth of the pitch.  Whenever that pitch
    is positive the grid is built, has 201 evenly spaced points from the
    widened minimum to the widened maximum, is strictly increasing, starts
    at most at [min - 10 sigma + eps] and ends at least at
    [max + 10 sigma - eps]. *)
Theorem default_frequency_grid (self : Dos.t) (lo hi : R) :
  Np.min2 (Dos._frequencies self) = Some lo ->
  Np.max2 (Dos._frequencies self) = Some hi ->
  0 < default_pitch (Dos._sigma self) lo hi ->
  exists self' grid,
    Dos.set_draw_area self None None None = Some self'
    /\ Dos._sigma self' = Some (chosen_sigma (Dos._sigma self) lo hi)
    /\ Dos._frequency_points self' = Some grid
    /\ Np.arange (lo - chosen_sigma (Dos._sigma self) lo hi * 10)
         (hi + chosen_sigma (Dos._sigma self) lo hi * 10
          + default_pitch (Dos._sigma self) lo hi * (1 / 10))
         (default_pitch (Dos._sigma self) lo hi) = Some grid
    /\ grid = even_grid (lo - chosen_sigma (Dos._sigma self) lo hi * 10)
                (default_pitch (Dos._sigma self) lo hi) 201
    /\ nth 0 grid 0 = lo - 10 * chosen_sigma (Dos._sigma self) lo hi
    /\ nth (length grid - 1) grid 0
       = hi + 10 * chosen_sigma (Dos._sigma self) lo hi
    /\ strictly_increasing grid
    /\ forall eps, 0 <= eps ->
         nth 0 grid 0 <= lo - 10 * chosen_sigma (Dos._sigma self) lo hi + eps
         /\ hi + 10 * chosen_sigma (Dos._sigma self) lo hi - eps
            <= nth (length grid - 1) grid 0.
Proof.
  intros Hlo Hhi Hp.
  set (s := chosen_sigma (Dos._sigma self) lo hi) in *.
  set (p := default_pitch (Dos._sigma self) lo hi) in *.
  assert (Hp0 : p <> 0) by lra.
  assert (Hfirst : nth 0 (even_grid (lo - s * 10) p 201) 0 = lo - 10 * s).
  { rewrite even_grid_nth by lia. simpl INR. lra. }
  assert (Hlast : nth (length (even_grid (lo - s * 10) p 201) - 1)
                    (even_grid (lo - s * 10) p 201) 0 = hi + 10 * s).
  { rewrite even_grid_length. change (201 - 1)%nat with 200%nat.
    rewrite even_grid_nth by lia.
    replace (INR 200) with 200 by (rewrite INR_IZR_INZ; reflexivity).
    unfold p, default_pitch. fold s. field. }
  eexists. exists (even_grid (lo - s * 10) p 201).
  split; [apply (set_draw_area_default self lo hi Hlo Hhi Hp0)|].
  split; [reflexivity|]. split; [reflexivity|].
  split.
  { replace (hi + s * 10 + p * (1 / 10))
      with (lo - s * 10 + 200 * p + p * (1 / 10))
      by (unfold p, default_pitch; fold s; field).
    apply arange_200_steps. exact Hp0. }
  split; [reflexivity|].
  split; [exact Hfirst|]. split; [exact Hlast|].
  split; [apply even_grid_increasing; exact Hp|].
  intros eps Heps. rewrite Hfirst, Hlast. lra.
Qed.

Lemma two_band_min : Np.min2 (frequencies two_band_mesh) = Some 0.
Proof.
  unfold Np.min2, Np.min, two_band_mesh, sample_mesh, frequencies, concat, app,
    fold_right.
  rewrite Rmin_right by lra. reflexivity.
Qed.

Lemma two_band_max : Np.max2 (frequencies two_band_mesh) = Some 1.
Proof.
  unfold Np.max2, Np.max, two_band_mesh, sample_mesh, frequencies, concat, app,
    fold_right.
  rewrite Rmax_left by lra. reflexivity.
Qed.

(** The grid of [Dos(two_band_mesh)], default width. *)
Lemma default_frequency_grid_witness :
  exists self' grid,
    Dos.set_draw_area (under_construction two_band_mesh None) None None None
    = Some self'
    /\ Dos._frequency_points self' = Some grid
    /\ strictly_increasing grid.
Proof.
  destruct (default_frequency_grid (under_construction two_band_mesh None) 0 1
              two_band_min two_band_max)
    as (self' & grid & H1 & _ & H3 & _ & _ & _ & _ & H8 & _).
  - unfold default_pitch, chosen_sigma, under_construction, Dos._sigma. lra.
  - exists self', grid. auto.
Defined.

Lemma flat_min : Np.min2 (frequencies flat_mesh) = Some 0.
Proof.
  unfold Np.min2, Np.min, flat_mesh, sample_mesh, frequencies, concat, app,
    fold_right.
  rewrite !(Rmin_left 0 0) by lra. reflexivity.
Qed.

Lemma flat_max : Np.max2 (frequencies flat_mesh) = Some 0.
Proof.
  unfold Np.max2, Np.max, flat_mesh, sample_mesh, frequencies, concat, app,
    fold_right.
  rewrite !(Rmax_left 0 0) by lra. reflexivity.
Qed.

(** C4 as stated fails for a negative width: [Dos(two_band_mesh, sigma=-1)]
    is built with a grid of 201 points that runs downwards from 10 to -9.
    And with the default width on frequencies that are all equal the pitch
    is zero, [np.arange] raises and no grid is built at all. *)
Lemma negative_sigma_grid_not_increasing :
  (exists self' grid,
     Dos.__init__ two_band_mesh (Some (-1)) false = Some self'
     /\ Dos._frequency_points self' = Some grid
     /\ length grid = 201%nat
     /\ nth 0 grid 0 = 10
     /\ nth 200 grid 0 = -9
     /\ ~ strictly_increasing grid)
  /\ Dos.__init__ flat_mesh None false = None.
Proof.
  split.
  - assert (Hp : default_pitch (Some (-1)) 0 1 = - (19 / 200))
      by (unfold default_pitch, chosen_sigma; lra).
    pose proof (set_draw_area_default
                  (under_construction two_band_mesh (Some (-1))) 0 1
                  two_band_min two_band_max) as Hrun.
    unfold under_construction in Hrun. cbn [Dos._sigma] in Hrun.
    rewrite Hp in Hrun. specialize (Hrun ltac:(lra)).
    eexists. eexists. split.
    { unfold Dos.__init__. rewrite Hrun. reflexivity. }
    cbn [Dos.set_smearing_function Dos._frequency_points].
    split; [reflexivity|].
    split; [apply even_grid_length|].
    unfold chosen_sigma.
    split; [rewrite even_grid_nth by lia; simpl INR; lra|].
    split.
    { rewrite even_grid_nth by lia.
      replace (INR 200) with 200 by (rewrite INR_IZR_INZ; reflexivity). lra. }
    intros Hinc. specialize (Hinc 0%nat 1%nat).
    rewrite even_grid_length in Hinc. specialize (Hinc ltac:(lia)).
    rewrite !even_grid_nth in Hinc by lia. simpl INR in Hinc. lra.
  - change (Dos.__init__ flat_mesh None false)
      with (self <- Dos.set_draw_area (under_construction flat_mesh None)
                      None None None ;;
            Some (Dos.set_smearing_function self "Normal")).
    rewrite (set_draw_area_zero_pitch
               (under_construction flat_mesh None) 0 0 flat_min flat_max).
    + reflexivity.
    + unfold default_pitch, chosen_sigma, under_construction, Dos._sigma. lra.
Qed.

(** ** The Debye fit *)

Lemma int_nonneg (x : R) : 0 <= x -> Py.int x = Int_part x.
Proof.
  intros Hx. unfold Py.int. destruct (Rle_dec 0 x); [reflexivity | contradiction].
Qed.

Lemma int_neg (x : R) : x < 0 -> Py.int x = Np.ceil x.
Proof.
  intros Hx. unfold Py.int. destruct (Rle_dec 0 x); [lra | reflexivity].
Qed.

Lemma slice_to_nonneg {A} (n : Z) (a : list A) :
  (0 <= n)%Z -> Py.slice_to n a = firstn (Z.to_nat n) a.
Proof.
  intros Hn. unfold Py.slice_to.
  destruct (0 <=? n)%Z eqn:E; [reflexivity|].
  apply Z.leb_gt in E. lia.
Qed.

Lemma Int_part_nonneg (x : R) : 0 <= x -> (0 <= Int_part x)%Z.
Proof.
  intros Hx. destruct (base_Int_part x) as [H1 H2].
  assert (H : (-1 < Int_part x)%Z) by (apply lt_IZR; lra).
  lia.
Qed.

Lemma sum_cons (x : R) (l : list R) : Np.sum (x :: l) = x + Np.sum l.
Proof. reflexivity. Qed.

(** The squared error of the Debye model is a quadratic in the
    coefficient. *)
Lemma sse_Debye_expand (xs ys : list R) (a : R) :
  sse TotalDos.Debye_dos xs ys a
  = a ^ 2 * Np.sum (Np.zip_with (fun x y => (x ^ 2) ^ 2) xs ys)
    - 2 * a * Np.sum (Np.zip_with (fun x y => x ^ 2 * y) xs ys)
    + Np.sum (Np.zip_with (fun x y => y ^ 2) xs ys).
Proof.
  unfold sse, TotalDos.Debye_dos. revert ys.
  induction xs as [|x xs IH]; intros [|y ys]; cbn [Np.zip_with];
    try (unfold Np.sum; simpl; lra).
  rewrite !sum_cons, (IH ys). ring.
Qed.

Lemma sum_quartic_nonneg (xs ys : list R) :
  0 <= Np.sum (Np.zip_with (fun x y => (x ^ 2) ^ 2) xs ys).
Proof.
  revert ys. induction xs as [|x xs IH]; intros [|y ys]; cbn [Np.zip_with];
    try (unfold Np.sum; simpl; lra).
  rewrite sum_cons. specialize (IH ys). pose proof (pow2_ge_0 (x ^ 2)). lra.
Qed.

Lemma sum_quartic_zero (xs ys : list R) :
  Np.sum (Np.zip_with (fun x y => (x ^ 2) ^ 2) xs ys) = 0 ->
  Np.sum (Np.zip_with (fun x y => x ^ 2 * y) xs ys) = 0.
Proof.
  revert ys. induction xs as [|x xs IH]; intros [|y ys]; cbn [Np.zip_with];
    try (unfold Np.sum; simpl; lra).
  rewrite !sum_cons. intros H.
  pose proof (sum_quartic_nonneg xs ys) as Hrest.
  pose proof (pow2_ge_0 (x ^ 2)) as Hx.
  assert (Hx0 : (x ^ 2) ^ 2 = 0) by lra.
  rewrite (IH ys) by lra.
  assert (Hx2 : x ^ 2 = 0).
  { destruct (Req_dec_T (x ^ 2) 0) as [E|E]; [exact E|].
    exfalso. apply (pow_nonzero _ 2) in E. contradiction. }
  rewrite Hx2. lra.
Qed.

Lemma linear_fit_sums (xs ys : list R) :
  length xs = length ys ->
  Np.sum (map (fun v => v ^ 2) (map (fun x => TotalDos.Debye_dos x 1) xs))
  = Np.sum (Np.zip_with (fun x y => (x ^ 2) ^ 2) xs ys)
  /\ Np.sum (Np.zip_with Rmult (map (fun x => TotalDos.Debye_dos x 1) xs) ys)
     = Np.sum (Np.zip_with (fun x y => x ^ 2 * y) xs ys).
Proof.
  unfold TotalDos.Debye_dos. revert ys.
  induction xs as [|x xs IH]; intros [|y ys] Hlen; cbn [Np.zip_with map];
    try discriminate; try (split; reflexivity).
  destruct (IH ys) as [H1 H2]; [simpl in Hlen; lia|].
  rewrite !sum_cons, H1, H2. split; ring.
Qed.

(** [linear_fit] is a least-squares routine for the Debye model. *)
Lemma linear_fit_least_squares : least_squares linear_fit TotalDos.Debye_dos.
Proof.
  intros xs ys a Hfit b. unfold linear_fit in Hfit.
  destruct (length xs =? length ys)%nat eqn:Elen; [|discriminate].
  apply Nat.eqb_eq in Elen.
  destruct (negb (length ys =? 0)%nat); [|discriminate].
  cbn [andb] in Hfit. cbv zeta in Hfit.
  destruct (linear_fit_sums xs ys Elen) as [H2 H1].
  rewrite H2, H1 in Hfit. clear H1 H2.
  rewrite !sse_Debye_expand.
  pose proof (sum_quartic_nonneg xs ys) as Hnn.
  set (S2 := Np.sum (Np.zip_with (fun x y => (x ^ 2) ^ 2) xs ys)) in *.
  set (S1 := Np.sum (Np.zip_with (fun x y => x ^ 2 * y) xs ys)) in *.
  destruct (Req_dec_T S2 0) as [E0|Hne]; injection Hfit as <-.
  - assert (E1 : S1 = 0) by (apply sum_quartic_zero; exact E0).
    rewrite E0, E1. lra.
  - assert (Ha : S1 = S1 / S2 * S2) by (field; exact Hne).
    set (a := S1 / S2) in *.
    pose proof (Rmult_le_pos _ _ Hnn (pow2_ge_0 (b - a))) as Hsq.
    rewrite Ha. nra.
Qed.

Lemma N_fit_value (self : TotalDos.t) (points : list R) (lo hi : R)
    (freq_max_fit : option R) :
  Dos._frequency_points (TotalDos.base self) = Some points ->
  Np.min points = Some lo -> Np.max points = Some hi ->
  match freq_max_fit with
  | None => True
  | Some m => hi - lo <> 0
  end ->
  TotalDos.N_fit self freq_max_fit
  = Some (Py.int match freq_max_fit with
                 | None => INR (length points) / 4
                 | Some m => m / (hi - lo) * INR (length points)
                 end).
Proof.
  intros Hpts Hlo Hhi Hcut. unfold TotalDos.N_fit.
  rewrite Hpts, Hlo, Hhi. destruct freq_max_fit as [m|]; [|reflexivity].
  destruct (Req_dec_T (hi - lo) 0); [contradiction | reflexivity].
Qed.

Section Debye.

Variable curve_fit : (R -> R -> R) -> list R -> list R -> option R.

(** The Debye frequency the fit stores, by cases on the coefficient. *)
Lemma Debye_frequency_cases (num_atoms : Z) (a : R) :
  let stored := Float.power_third (Float.divide (3 * 3 * num_atoms) a) in
  (0 < 9 * IZR num_atoms / a ->
   stored = Finite (Rpower (9 * IZR num_atoms / a) (1 / 3)))
  /\ (a <> 0 -> 9 * IZR num_atoms / a < 0 -> stored = NaN)
  /\ (a <> 0 -> num_atoms = 0%Z -> stored = Finite 0)
  /\ (a = 0 -> num_atoms <> 0%Z -> stored = Infinite)
  /\ (a = 0 -> num_atoms = 0%Z -> stored = NaN).
Proof.
  cbv zeta. unfold Float.power_third, Float.divide.
  assert (H9 : IZR (3 * 3 * num_atoms) = 9 * IZR num_atoms)
    by (rewrite !mult_IZR; lra).
  rewrite H9.
  split; [|split; [|split; [|split]]].
  - intros Hpos. destruct (Req_dec_T a 0) as [Ha|Ha].
    + exfalso. subst a. unfold Rdiv in Hpos. rewrite Rinv_0 in Hpos. lra.
    + destruct (Rlt_dec 0 (9 * IZR num_atoms / a)); [reflexivity|].
      contradiction.
  - intros Ha Hneg. destruct (Req_dec_T a 0); [contradiction|].
    destruct (Rlt_dec 0 (9 * IZR num_atoms / a)); [lra|].
    destruct (Req_dec_T (9 * IZR num_atoms / a) 0); [lra | reflexivity].
  - intros Ha ->. destruct (Req_dec_T a 0); [contradiction|].
    assert (H0 : 9 * IZR 0 / a = 0) by (unfold Rdiv; lra).
    rewrite H0.
    destruct (Rlt_dec 0 0); [lra|].
    destruct (Req_dec_T 0 0); [reflexivity | contradiction].
  - intros Ha Hn. destruct (Req_dec_T a 0); [|contradiction].
    destruct (Z.eqb_spec (3 * 3 * num_atoms) 0); [lia | reflexivity].
  - intros Ha ->. destruct (Req_dec_T a 0); [|contradiction]. reflexivity.
Qed.

(** C5, as amended.  On a computed DOS, with a fit routine that returns
    least-squares solutions, and for no cutoff or a cutoff whose quotient
    [freq_max_fit / (freq_max - freq_min) * len(grid)] is not negative:
    [N_fit] is the floor the specification gives, and whenever the
    routine returns a coefficient [a] for the first [N_fit] frequency
    points and DOS values, [a] minimizes the squared error of
    [dos(f) = a f^2] on them and the fit stores [a] and a Debye frequency.
    That frequency is [(9 num_atoms / a)^(1/3)] when [9 num_atoms / a] is
    positive; otherwise nothing is raised and what is stored is
    not-a-number for a negative quotient, zero for no atoms, and infinite
    for the coefficient zero (not-a-number for no atoms as well). *)
Theorem debye_fit_result
    (self : TotalDos.t) (points dos : list R) (lo hi : R) (num_atoms : Z)
    (freq_max_fit : option R) :
  Dos._frequency_points (TotalDos.base self) = Some points ->
  TotalDos._dos self = Some dos ->
  Np.min points = Some lo -> Np.max points = Some hi ->
  least_squares curve_fit TotalDos.Debye_dos ->
  match freq_max_fit with
  | None => True
  | Some m => hi - lo <> 0 /\ 0 <= m / (hi - lo) * INR (length points)
  end ->
  TotalDos.N_fit self freq_max_fit
  = Some (spec_N_fit points lo hi freq_max_fit)
  /\ forall a,
       curve_fit TotalDos.Debye_dos
         (firstn (Z.to_nat (spec_N_fit points lo hi freq_max_fit)) points)
         (firstn (Z.to_nat (spec_N_fit points lo hi freq_max_fit)) dos)
       = Some a ->
       (forall b,
          sse TotalDos.Debye_dos
            (firstn (Z.to_nat (spec_N_fit points lo hi freq_max_fit)) points)
            (firstn (Z.to_nat (spec_N_fit points lo hi freq_max_fit)) dos) a
          <= sse TotalDos.Debye_dos
               (firstn (Z.to_nat (spec_N_fit points lo hi freq_max_fit)) points)
               (firstn (Z.to_nat (spec_N_fit points lo hi freq_max_fit)) dos) b)
       /\ exists freq_Debye,
            TotalDos.set_Debye_frequency curve_fit self num_atoms freq_max_fit
            = Some (TotalDos.mk (TotalDos.base self) (Some dos)
                      (Some freq_Debye) (Some a) (TotalDos._openmp_thm self))
            /\ (0 < 9 * IZR num_atoms / a ->
                freq_Debye = Finite (Rpower (9 * IZR num_atoms / a) (1 / 3)))
            /\ (a <> 0 -> 9 * IZR num_atoms / a < 0 -> freq_Debye = NaN)
            /\ (a <> 0 -> num_atoms = 0%Z -> freq_Debye = Finite 0)
            /\ (a = 0 -> num_atoms <> 0%Z -> freq_Debye = Infinite)
            /\ (a = 0 -> num_atoms = 0%Z -> freq_Debye = NaN).
Proof.
  intros Hpts Hdos Hlo Hhi Hls Hcut.
  set (n := spec_N_fit points lo hi freq_max_fit).
  assert (Hn : TotalDos.N_fit self freq_max_fit = Some n).
  { rewrite (N_fit_value self points lo hi freq_max_fit Hpts Hlo Hhi)
      by (destruct freq_max_fit; tauto).
    unfold n, spec_N_fit. f_equal.
    destruct freq_max_fit as [m|]; apply int_nonneg.
    - apply Hcut.
    - pose proof (pos_INR (length points)). lra. }
  assert (Hn0 : (0 <= n)%Z).
  { unfold n, spec_N_fit.
    destruct freq_max_fit as [m|]; apply Int_part_nonneg.
    - apply Hcut.
    - pose proof (pos_INR (length points)). lra. }
  split; [exact Hn|].
  intros a Ha. split; [apply (Hls _ _ a Ha)|].
  exists (Float.power_third (Float.divide (3 * 3 * num_atoms) a)).
  split; [|exact (Debye_frequency_cases num_atoms a)].
  unfold TotalDos.set_Debye_frequency.
  rewrite Hn, Hpts, Hdos, !slice_to_nonneg by exact Hn0.
  rewrite Ha. reflexivity.
Qed.

(** C7, as amended.  [set_Debye_frequency] has no check of its own on
    the number of fit points: it raises exactly when [N_fit] cannot be
    computed (no frequency points, or a cutoff over a zero frequency
    range), when no DOS has been computed, or when the fit routine raises
    on the points [[0:N_fit]].  A routine that rejects empty data makes it
    raise whenever that slice of the DOS is empty, as it is for
    [N_fit = 0]; and whatever [N_fit] is, one included, it stores a Debye
    frequency as soon as the routine returns a coefficient. *)
Theorem debye_fit_raises_iff
    (self : TotalDos.t) (num_atoms : Z) (freq_max_fit : option R) :
  (TotalDos.set_Debye_frequency curve_fit self num_atoms freq_max_fit = None
   <-> TotalDos.N_fit self freq_max_fit = None
       \/ TotalDos._dos self = None
       \/ exists n points dos,
            TotalDos.N_fit self freq_max_fit = Some n
            /\ Dos._frequency_points (TotalDos.base self) = Some points
            /\ TotalDos._dos self = Some dos
            /\ curve_fit TotalDos.Debye_dos (Py.slice_to n points)
                 (Py.slice_to n dos) = None)
  /\ (rejects_empty_data curve_fit ->
      forall n dos,
        TotalDos.N_fit self freq_max_fit = Some n ->
        TotalDos._dos self = Some dos ->
        (n = 0%Z \/ Py.slice_to n dos = []) ->
        TotalDos.set_Debye_frequency curve_fit self num_atoms freq_max_fit
        = None)
  /\ forall n points dos a,
       TotalDos.N_fit self freq_max_fit = Some n ->
       Dos._frequency_points (TotalDos.base self) = Some points ->
       TotalDos._dos self = Some dos ->
       curve_fit TotalDos.Debye_dos (Py.slice_to n points) (Py.slice_to n dos)
       = Some a ->
       TotalDos.set_Debye_frequency curve_fit self num_atoms freq_max_fit
       = Some (TotalDos.mk (TotalDos.base self) (Some dos)
                 (Some (Float.power_third
                          (Float.divide (3 * 3 * num_atoms) a)))
                 (Some a) (TotalDos._openmp_thm self)).
Proof.
  split; [|split].
  - unfold TotalDos.set_Debye_frequency.
    destruct (TotalDos.N_fit self freq_max_fit) as [n|] eqn:En.
    2: { split; auto. }
    assert (Hpts : exists points,
               Dos._frequency_points (TotalDos.base self) = Some points).
    { unfold TotalDos.N_fit in En.
      destruct (Dos._frequency_points (TotalDos.base self)) as [pts|];
        [eauto | discriminate]. }
    destruct Hpts as [points Hpts]. rewrite Hpts.
    destruct (TotalDos._dos self) as [dos|] eqn:Ed.
    2: { split; auto. }
    destruct (curve_fit TotalDos.Debye_dos (Py.slice_to n points)
                (Py.slice_to n dos)) as [a|] eqn:Ec.
    + split; [discriminate|].
      intros [H|[H|(n' & p' & d' & H1 & H2 & H3 & H4)]]; try discriminate.
      injection H1 as <-. injection H2 as <-. injection H3 as <-.
      congruence.
    + split; [|reflexivity]. intros _. right. right.
      exists n, points, dos. auto.
  - intros Hempty n dos Hn Hdos Hslice.
    assert (Hnil : Py.slice_to n dos = []).
    { destruct Hslice as [->|H]; [reflexivity | exact H]. }
    unfold TotalDos.set_Debye_frequency. rewrite Hn.
    destruct (Dos._frequency_points (TotalDos.base self)); [|reflexivity].
    rewrite Hdos, Hnil, Hempty. reflexivity.
  - intros n points dos a Hn Hpts Hdos Hfit.
    unfold TotalDos.set_Debye_frequency.
    rewrite Hn, Hpts, Hdos, Hfit. reflexivity.
Qed.

End Debye.

(** *** The Debye fit on the four-point engine *)

Lemma four_point_min : Np.min [1; 2; 3; 4] = Some 1.
Proof.
  unfold Np.min, fold_right.
  rewrite (Rmin_right 4 1), (Rmin_right 3 1), (Rmin_right 2 1) by lra.
  reflexivity.
Qed.

Lemma four_point_max : Np.max [1; 2; 3; 4] = Some 4.
Proof.
  unfold Np.max, fold_right.
  rewrite (Rmax_left 4 1), (Rmax_right 3 4), (Rmax_right 2 4) by lra.
  reflexivity.
Qed.

Lemma INR_4 : INR 4 = 4.
Proof. rewrite INR_IZR_INZ. reflexivity. Qed.

(** Without a cutoff a four-point grid is fitted on one point. *)
Lemma four_point_N_fit : TotalDos.N_fit four_point_dos None = Some 1%Z.
Proof.
  rewrite (N_fit_value four_point_dos [1; 2; 3; 4] 1 4 None eq_refl
             four_point_min four_point_max I).
  f_equal. change (length [1; 2; 3; 4]) with 4%nat. rewrite INR_4.
  rewrite int_nonneg by lra. symmetry. apply Int_part_spec. lra.
Qed.

(** The exact least-squares routine on the four-point DOS [2 f^2], and on
    its first point: the coefficient is 2. *)
Lemma four_point_linear_fit :
  linear_fit TotalDos.Debye_dos [1; 2; 3; 4] [2; 8; 18; 32] = Some 2.
Proof.
  unfold linear_fit. cbn [length Nat.eqb andb negb]. cbv zeta.
  unfold TotalDos.Debye_dos. cbn [map Np.sum fold_right Np.zip_with].
  destruct (Req_dec_T _ 0) as [H|H]; [exfalso; lra|].
  f_equal.
  match goal with
  | |- ?x / ?y = _ =>
      replace y with 354 by lra; replace x with 708 by lra
  end.
  lra.
Qed.

Lemma one_point_linear_fit : linear_fit TotalDos.Debye_dos [1] [2] = Some 2.
Proof.
  unfold linear_fit. cbn [length Nat.eqb andb negb]. cbv zeta.
  unfold TotalDos.Debye_dos. cbn [map Np.sum fold_right Np.zip_with].
  destruct (Req_dec_T _ 0) as [H|H]; [exfalso; lra|].
  f_equal.
  match goal with
  | |- ?x / ?y = _ => replace y with 1 by lra; replace x with 2 by lra
  end.
  lra.
Qed.

Lemma linear_fit_rejects_empty : rejects_empty_data linear_fit.
Proof.
  intros model xdata. unfold linear_fit. cbn [length Nat.eqb negb].
  rewrite andb_false_r. reflexivity.
Qed.

(** The Debye frequency for two atoms and the coefficient 2. *)
Lemma two_atoms_Debye_frequency :
  Float.power_third (Float.divide (3 * 3 * 2) 2) = Finite (Rpower 9 (1 / 3)).
Proof.
  destruct (Debye_frequency_cases 2 2) as [H _]. cbv zeta in H.
  rewrite H by lra. f_equal. f_equal. lra.
Qed.

(** The fit with the cutoff 3 on the four-point engine, whose DOS is
    [2 f^2]: all the four points are used, the coefficient is 2 and the
    Debye frequency for two atoms is the cube root of 9. *)
Lemma debye_fit_result_witness :
  TotalDos.N_fit four_point_dos (Some 3) = Some 4%Z
  /\ TotalDos.set_Debye_frequency linear_fit four_point_dos 2 (Some 3)
     = Some (TotalDos.mk four_point_base (Some [2; 8; 18; 32])
               (Some (Finite (Rpower 9 (1 / 3)))) (Some 2) true).
Proof.
  destruct (debye_fit_result linear_fit four_point_dos [1; 2; 3; 4]
              [2; 8; 18; 32] 1 4 2 (Some 3) eq_refl eq_refl four_point_min
              four_point_max linear_fit_least_squares) as [H1 H2].
  - change (length [1; 2; 3; 4]) with 4%nat. rewrite INR_4. split; lra.
  - assert (Hn : spec_N_fit [1; 2; 3; 4] 1 4 (Some 3) = 4%Z).
    { unfold spec_N_fit. change (length [1; 2; 3; 4]) with 4%nat.
      rewrite INR_4. symmetry. apply Int_part_spec. lra. }
    rewrite Hn in H1, H2. split; [exact H1|].
    destruct (H2 2 four_point_linear_fit) as (_ & fD & Hset & Hpos & _).
    rewrite Hset, Hpos by lra.
    replace (9 * IZR 2 / 2) with 9 by lra. reflexivity.
Defined.

(** C5 as stated fails for a negative cutoff: [int] truncates toward zero,
    so the cutoff -3/8 on the four-point engine gives [N_fit = 0] where the
    floor is -1. *)
Lemma negative_cutoff_N_fit_not_floor :
  TotalDos.N_fit four_point_dos (Some (- (3 / 8))) = Some 0%Z
  /\ spec_N_fit [1; 2; 3; 4] 1 4 (Some (- (3 / 8))) = (-1)%Z.
Proof.
  assert (Hq : - (3 / 8) / (4 - 1) * INR (length [1; 2; 3; 4]) = - (1 / 2)).
  { change (length [1; 2; 3; 4]) with 4%nat. rewrite INR_4. lra. }
  split.
  - rewrite (N_fit_value four_point_dos [1; 2; 3; 4] 1 4 (Some (- (3 / 8)))
               eq_refl four_point_min four_point_max) by lra.
    rewrite Hq, int_neg by lra. f_equal. apply ceil_spec. lra.
  - unfold spec_N_fit. rewrite Hq. symmetry. apply Int_part_spec. lra.
Qed.

(** The fit without a cutoff on the four-point engine, with the exact
    least-squares routine: it returns. *)
Lemma four_point_fit :
  exists a,
    0 < a
    /\ TotalDos.set_Debye_frequency linear_fit four_point_dos 2 None
       = Some (TotalDos.mk four_point_base (Some [2; 8; 18; 32])
                 (Some (Finite (Rpower (3 * 3 * IZR 2 / a) (1 / 3))))
                 (Some a) true).
Proof.
  exists 2. split; [lra|]. unfold TotalDos.set_Debye_frequency.
  rewrite four_point_N_fit.
  change (Dos._frequency_points (TotalDos.base four_point_dos))
    with (Some [1; 2; 3; 4]).
  change (TotalDos._dos four_point_dos) with (Some [2; 8; 18; 32]).
  cbv iota beta.
  change (Py.slice_to 1 [1; 2; 3; 4]) with [1].
  change (Py.slice_to 1 [2; 8; 18; 32]) with [2].
  rewrite one_point_linear_fit, two_atoms_Debye_frequency.
  replace (3 * 3 * IZR 2 / 2) with 9 by lra. reflexivity.
Qed.

Lemma three_point_min : Np.min [1; 2; 3] = Some 1.
Proof.
  unfold Np.min, fold_right.
  rewrite (Rmin_right 3 1), (Rmin_right 2 1) by lra. reflexivity.
Qed.

Lemma three_point_max : Np.max [1; 2; 3] = Some 3.
Proof.
  unfold Np.max, fold_right.
  rewrite (Rmax_left 3 1), (Rmax_right 2 3) by lra. reflexivity.
Qed.

(** Without a cutoff a three-point grid is fitted on no point. *)
Lemma three_point_N_fit : TotalDos.N_fit three_point_dos None = Some 0%Z.
Proof.
  rewrite (N_fit_value three_point_dos [1; 2; 3] 1 3 None eq_refl
             three_point_min three_point_max I).
  f_equal. change (length [1; 2; 3]) with 3%nat.
  replace (INR 3) with 3 by (rewrite INR_IZR_INZ; reflexivity).
  rewrite int_nonneg by lra. symmetry. apply Int_part_spec. lra.
Qed.

(** The fit on the three-point engine, whose DOS is computed: [N_fit] is
    0, the routine gets no data, and the fit raises. *)
Lemma debye_fit_raises_iff_witness :
  TotalDos.N_fit three_point_dos None = Some 0%Z
  /\ TotalDos.set_Debye_frequency linear_fit three_point_dos 2 None = None.
Proof.
  split; [exact three_point_N_fit|].
  destruct (debye_fit_raises_iff linear_fit three_point_dos 2 None)
    as (_ & H & _).
  apply (H linear_fit_rejects_empty 0%Z [1; 4; 9] three_point_N_fit eq_refl).
  left. reflexivity.
Defined.

(** C7 as stated fails: on the four-point engine [N_fit] is 1, and the fit
    with an exact least-squares routine stores a Debye frequency. *)
Lemma one_point_fit_returns :
  TotalDos.N_fit four_point_dos None = Some 1%Z
  /\ exists a fitted,
       TotalDos.set_Debye_frequency linear_fit four_point_dos 2 None
       = Some fitted
       /\ TotalDos._Debye_fit_coef fitted = Some a
       /\ TotalDos.get_Debye_frequency fitted
          = Some (Finite (Rpower (3 * 3 * IZR 2 / a) (1 / 3))).
Proof.
  split; [exact four_point_N_fit|].
  destruct four_point_fit as (a & _ & Hfit).
  exists a. eexists. split; [exact Hfit|]. split; reflexivity.
Qed.

(** ** What [run] and [set_sigma] leave unchanged *)

Lemma two_band_rectangular : Np.rectangular 2 (frequencies two_band_mesh).
Proof. repeat constructor. Qed.

Section Frame.

Variable integration_weight :
  list Z -> list R -> list (list R) -> list (list Z) -> list Z ->
  list (list (list Z)) -> nat -> nat -> nat -> R.
Variable ir_weights : list Z -> list R.
Variable linalg_inv : list (list R) -> option (list (list R)).
Variable get_tetrahedra : list (list R) -> list Z -> list (list (list Z)).
Variable thm_iter : TetrahedronMesh -> list R -> list (list (list R)).

(** [run] rewrites the DOS and nothing else. *)
Lemma total_dos_run_frame (self self' : TotalDos.t) :
  TotalDos.run integration_weight ir_weights linalg_inv get_tetrahedra
    thm_iter self = Some self' ->
  TotalDos.base self' = TotalDos.base self
  /\ TotalDos._freq_Debye self' = TotalDos._freq_Debye self
  /\ TotalDos._Debye_fit_coef self' = TotalDos._Debye_fit_coef self
  /\ TotalDos._openmp_thm self' = TotalDos._openmp_thm self.
Proof.
  unfold TotalDos.run, TotalDos._run_tetrahedron_method_dos.
  intros H.
  repeat match type of H with
         | match ?x with _ => _ end = _ => destruct x; try discriminate
         | (if ?b then _ else _) = _ => destruct b
         end;
    injection H as <-; auto.
Qed.

(** C8, as amended.  [run] does not touch the result of the Debye fit:
    after a successful [run] the stored Debye frequency and fit
    coefficient are the ones stored before it. *)
Theorem run_keeps_debye_fit (self self' : TotalDos.t) :
  TotalDos.run integration_weight ir_weights linalg_inv get_tetrahedra
    thm_iter self = Some self' ->
  TotalDos.get_Debye_frequency self' = TotalDos.get_Debye_frequency self
  /\ TotalDos._Debye_fit_coef self' = TotalDos._Debye_fit_coef self.
Proof.
  intros H. destruct (total_dos_run_frame self self' H) as (_ & H1 & H2 & _).
  unfold TotalDos.get_Debye_frequency. auto.
Qed.

(** [run] does not read the stored width: it commutes with [set_sigma]. *)
Lemma total_dos_run_set_sigma (self : TotalDos.t) (sigma : option R) :
  TotalDos.run integration_weight ir_weights linalg_inv get_tetrahedra
    thm_iter (TotalDos.set_sigma self sigma)
  = option_map (fun r => TotalDos.set_sigma r sigma)
      (TotalDos.run integration_weight ir_weights linalg_inv get_tetrahedra
         thm_iter self).
Proof.
  destruct self as [[m F w thm pts sg k] dos fd fc omp].
  unfold TotalDos.run, TotalDos._run_tetrahedron_method_dos,
    TotalDos._get_density_of_states_at_freq, TotalDos.set_sigma,
    Dos.set_sigma.
  cbn [TotalDos.base TotalDos._openmp_thm TotalDos._dos TotalDos._freq_Debye
       TotalDos._Debye_fit_coef Dos._tetrahedron_mesh Dos._frequency_points
       Dos._weights Dos._frequencies Dos._mesh_object Dos._smearing_function].
  destruct thm as [thm|].
  - destruct omp.
    + destruct (linalg_inv _); [|reflexivity].
      destruct pts; [|reflexivity].
      destruct (Tetrahedron.run_tetrahedron_method_dos _ _ _ _ _ _ _ _ _);
        reflexivity.
    + destruct pts; [|reflexivity].
      destruct (TotalDos.accumulate _ _ _ _); reflexivity.
  - destruct pts as [points|]; [|reflexivity].
    destruct (traverse _ points); reflexivity.
Qed.

Lemma partial_dos_run_set_sigma (self : PartialDos.t) (sigma : option R) :
  PartialDos.run thm_iter (PartialDos.set_sigma self sigma)
  = option_map (fun r => PartialDos.set_sigma r sigma)
      (PartialDos.run thm_iter self).
Proof.
  destruct self as [[m F w thm pts sg k] e pd e2 omp].
  unfold PartialDos.run, PartialDos._run_smearing_method,
    PartialDos._run_tetrahedron_method, PartialDos.set_sigma, Dos.set_sigma.
  cbn [PartialDos.base PartialDos._openmp_thm PartialDos._partial_dos
       PartialDos._eigvecs2 PartialDos._eigenvectors Dos._tetrahedron_mesh
       Dos._frequency_points Dos._weights Dos._frequencies Dos._mesh_object
       Dos._smearing_function].
  destruct thm as [thm|].
  - destruct pts; [|reflexivity].
    destruct (PartialDos.accumulate _ _ _ _ _ _); reflexivity.
  - destruct pts as [points|]; [|reflexivity].
    destruct (traverse _ points); reflexivity.
Qed.

(** C9.  [set_sigma] changes the stored width and nothing else: the
    frequency points and the smearing kernel, which holds the width it
    was built with, stay as they are, so [run] of either engine computes
    the same result after it as before; the kernel takes the new width
    only when [set_smearing_function] builds it again. *)
Theorem set_sigma_changes_only_sigma
    (b : Dos.t) (t : TotalDos.t) (p : PartialDos.t) (sigma : option R) :
  Dos._sigma (Dos.set_sigma b sigma) = sigma
  /\ Dos._frequency_points (Dos.set_sigma b sigma) = Dos._frequency_points b
  /\ Dos._smearing_function (Dos.set_sigma b sigma) = Dos._smearing_function b
  /\ Dos._mesh_object (Dos.set_sigma b sigma) = Dos._mesh_object b
  /\ Dos._frequencies (Dos.set_sigma b sigma) = Dos._frequencies b
  /\ Dos._weights (Dos.set_sigma b sigma) = Dos._weights b
  /\ Dos._tetrahedron_mesh (Dos.set_sigma b sigma) = Dos._tetrahedron_mesh b
  /\ option_map TotalDos._dos
       (TotalDos.run integration_weight ir_weights linalg_inv get_tetrahedra
          thm_iter (TotalDos.set_sigma t sigma))
     = option_map TotalDos._dos
         (TotalDos.run integration_weight ir_weights linalg_inv
            get_tetrahedra thm_iter t)
  /\ option_map PartialDos._partial_dos
       (PartialDos.run thm_iter (PartialDos.set_sigma p sigma))
     = option_map PartialDos._partial_dos (PartialDos.run thm_iter p)
  /\ Dos._smearing_function
       (Dos.set_smearing_function (Dos.set_sigma b sigma) "Normal")
     = Some (NormalDistribution sigma)
  /\ Dos._smearing_function
       (Dos.set_smearing_function (Dos.set_sigma b sigma) "Cauchy")
     = Some (CauchyDistribution sigma).
Proof.
  repeat split.
  - rewrite total_dos_run_set_sigma.
    destruct (TotalDos.run _ _ _ _ _ t); reflexivity.
  - rewrite partial_dos_run_set_sigma.
    destruct (PartialDos.run _ p); reflexivity.
Qed.

(** What [Dos.__init__] builds when the default pitch is not zero. *)
Lemma Dos_init_value (mesh : mesh_object) (sigma : option R)
    (use_tetrahedron_method : bool) (lo hi : R) :
  Np.min2 (frequencies mesh) = Some lo ->
  Np.max2 (frequencies mesh) = Some hi ->
  default_pitch sigma lo hi <> 0 ->
  exists thm,
    Dos.__init__ mesh sigma use_tetrahedron_method
    = Some (Dos.mk mesh (frequencies mesh) (weights mesh) thm
              (Some (even_grid (lo - chosen_sigma sigma lo hi * 10)
                       (default_pitch sigma lo hi) 201))
              (Some (chosen_sigma sigma lo hi))
              (Some (NormalDistribution (Some (chosen_sigma sigma lo hi))))).
Proof.
  intros Hlo Hhi Hp. unfold Dos.__init__.
  match goal with
  | |- context [Dos.mk mesh _ _ ?thm None sigma None] => exists thm;
      rewrite (set_draw_area_default
                 (Dos.mk mesh (frequencies mesh) (weights mesh) thm None
                    sigma None) lo hi Hlo Hhi Hp)
  end.
  reflexivity.
Qed.

(** The tetrahedron mesh [Dos.__init__] keeps. *)
Lemma Dos_init_tetrahedron_mesh (mesh : mesh_object) (sigma : option R)
    (use_tetrahedron_method : bool) (self : Dos.t) :
  Dos.__init__ mesh sigma use_tetrahedron_method = Some self ->
  (Dos._tetrahedron_mesh self <> None
   <-> use_tetrahedron_method = true /\ sigma = None).
Proof.
  unfold Dos.__init__, Dos.set_draw_area.
  cbn [Dos._frequencies Dos._sigma Dos._mesh_object Dos._weights
       Dos._tetrahedron_mesh Dos._smearing_function].
  destruct (Np.min2 (frequencies mesh)); [|discriminate].
  destruct (Np.max2 (frequencies mesh)); [|discriminate].
  destruct (Np.arange _ _ _); [|discriminate].
  intros [= <-].
  destruct use_tetrahedron_method, sigma; simpl; split;
    try (intros [? ?]; discriminate); try congruence; auto.
Qed.

(** C10.  An engine, total or partial, that the constructor returns has a
    tetrahedron mesh if and only if [use_tetrahedron_method] is true and
    [sigma] is [None]; so with [use_tetrahedron_method] true and a width
    given it has none, and its [run] is the smearing path; with a
    tetrahedron mesh its [run] is the tetrahedron path.  And the
    constructor does return, in either mode, when the default pitch of the
    grid is not zero (and, for the partial DOS, when the projection
    coefficients can be computed): with [use_tetrahedron_method] true and
    no width it returns an engine that has the tetrahedron mesh. *)
Theorem tetrahedron_mode_iff
    (mesh : mesh_object) (sigma : option R) (use_tetrahedron_method : bool)
    (direction : option (list R)) (xyz_projection : bool) :
  (forall t,
     TotalDos.__init__ mesh sigma use_tetrahedron_method = Some t ->
     (Dos._tetrahedron_mesh (TotalDos.base t) <> None
      <-> use_tetrahedron_method = true /\ sigma = None)
     /\ (use_tetrahedron_method = true -> sigma <> None ->
         Dos._tetrahedron_mesh (TotalDos.base t) = None
         /\ TotalDos.run integration_weight ir_weights linalg_inv
              get_tetrahedra thm_iter t = total_smearing_path t)
     /\ (forall thm, Dos._tetrahedron_mesh (TotalDos.base t) = Some thm ->
         TotalDos.run integration_weight ir_weights linalg_inv get_tetrahedra
           thm_iter t
         = TotalDos._run_tetrahedron_method_dos integration_weight ir_weights
             linalg_inv get_tetrahedra t))
  /\ (forall p,
        PartialDos.__init__ mesh sigma use_tetrahedron_method direction
          xyz_projection = Some p ->
        (Dos._tetrahedron_mesh (PartialDos.base p) <> None
         <-> use_tetrahedron_method = true /\ sigma = None)
        /\ (use_tetrahedron_method = true -> sigma <> None ->
            Dos._tetrahedron_mesh (PartialDos.base p) = None
            /\ PartialDos.run thm_iter p = PartialDos._run_smearing_method p)
        /\ (forall thm, Dos._tetrahedron_mesh (PartialDos.base p) = Some thm ->
            PartialDos.run thm_iter p
            = PartialDos._run_tetrahedron_method thm_iter p thm))
  /\ (forall lo hi,
        Np.min2 (frequencies mesh) = Some lo ->
        Np.max2 (frequencies mesh) = Some hi ->
        default_pitch sigma lo hi <> 0 ->
        (exists t,
           TotalDos.__init__ mesh sigma use_tetrahedron_method = Some t
           /\ (use_tetrahedron_method = true -> sigma = None ->
               exists thm,
                 Dos._tetrahedron_mesh (TotalDos.base t) = Some thm))
        /\ (forall e2,
              PartialDos.eigvecs2_of (frequencies mesh) (eigenvectors mesh)
                direction xyz_projection = Some e2 ->
              exists p,
                PartialDos.__init__ mesh sigma use_tetrahedron_method
                  direction xyz_projection = Some p
                /\ (use_tetrahedron_method = true -> sigma = None ->
                    exists thm,
                      Dos._tetrahedron_mesh (PartialDos.base p) = Some thm))).
Proof.
  assert (Hsome : forall b : Dos.t,
            (Dos._tetrahedron_mesh b <> None
             <-> use_tetrahedron_method = true /\ sigma = None) ->
            use_tetrahedron_method = true -> sigma = None ->
            exists thm, Dos._tetrahedron_mesh b = Some thm).
  { intros b Hiff Hu Hs. destruct (Dos._tetrahedron_mesh b) as [thm|];
      [eauto|]. exfalso. apply (proj2 Hiff); auto. }
  assert (Hnone : forall b : Dos.t,
            (Dos._tetrahedron_mesh b <> None
             <-> use_tetrahedron_method = true /\ sigma = None) ->
            sigma <> None -> Dos._tetrahedron_mesh b = None).
  { intros b Hiff Hs. destruct (Dos._tetrahedron_mesh b) eqn:E;
      [|reflexivity]. exfalso. apply Hs. apply Hiff. discriminate. }
  split; [|split].
  - intros t Ht. unfold TotalDos.__init__ in Ht.
    destruct (Dos.__init__ mesh sigma use_tetrahedron_method) as [b|] eqn:Eb;
      [|discriminate].
    pose proof (Dos_init_tetrahedron_mesh mesh sigma use_tetrahedron_method b
                  Eb) as Hiff.
    injection Ht as <-. cbn [TotalDos.base].
    split; [exact Hiff|]. split.
    + intros _ Hsigma. pose proof (Hnone b Hiff Hsigma) as Hn.
      split; [exact Hn|].
      unfold TotalDos.run, total_smearing_path. cbn [TotalDos.base].
      rewrite Hn. reflexivity.
    + intros thm Hthm. unfold TotalDos.run.
      cbn [TotalDos.base TotalDos._openmp_thm]. rewrite Hthm. reflexivity.
  - intros p Hp. unfold PartialDos.__init__ in Hp.
    destruct (Dos.__init__ mesh sigma use_tetrahedron_method) as [b|] eqn:Eb;
      [|discriminate].
    pose proof (Dos_init_tetrahedron_mesh mesh sigma use_tetrahedron_method b
                  Eb) as Hiff.
    destruct (PartialDos.eigvecs2_of _ _ _ _); [|discriminate].
    injection Hp as <-. cbn [PartialDos.base].
    split; [exact Hiff|]. split.
    + intros _ Hsigma. pose proof (Hnone b Hiff Hsigma) as Hn.
      split; [exact Hn|].
      unfold PartialDos.run. cbn [PartialDos.base]. rewrite Hn. reflexivity.
    + intros thm Hthm. unfold PartialDos.run.
      cbn [PartialDos.base]. rewrite Hthm. reflexivity.
  - intros lo hi Hlo Hhi Hpitch.
    destruct (Dos_init_value mesh sigma use_tetrahedron_method lo hi Hlo Hhi
                Hpitch) as [thm0 Hinit].
    pose proof (Dos_init_tetrahedron_mesh mesh sigma use_tetrahedron_method _
                  Hinit) as Hiff.
    split.
    + eexists. split.
      * unfold TotalDos.__init__. rewrite Hinit. reflexivity.
      * cbn [TotalDos.base]. apply Hsome. exact Hiff.
    + intros e2 He2. eexists. split.
      * unfold PartialDos.__init__. rewrite Hinit.
        cbn [Dos._frequencies Dos._mesh_object]. rewrite He2. reflexivity.
      * cbn [PartialDos.base]. apply Hsome. exact Hiff.
Qed.

End Frame.

(** *** The frame properties on the sample engines *)

(** [run] on the four-point engine in smearing mode. *)
Lemma four_point_run (dos : option (list R)) (fd : option float64)
    (fc : option R) :
  exists dos',
    TotalDos.run no_weight no_ir_weights identity_inv no_tetrahedra no_thm_iter
      (TotalDos.mk four_point_base dos fd fc true)
    = Some (TotalDos.mk four_point_base (Some dos') fd fc true).
Proof.
  eexists.
  apply (total_dos_run_smearing no_weight no_ir_weights identity_inv
           no_tetrahedra no_thm_iter
           (TotalDos.mk four_point_base dos fd fc true) [1; 2; 3; 4]
           (CauchyDistribution (Some 1)) (fun x => 1 / PI / (x ^ 2 + 1 ^ 2)) 2);
    try reflexivity.
  exact two_band_rectangular.
Qed.

Lemma run_keeps_debye_fit_witness :
  exists self',
    TotalDos.run no_weight no_ir_weights identity_inv no_tetrahedra no_thm_iter
      (TotalDos.mk four_point_base None (Some (Finite 3)) (Some 2) true)
      = Some self'
    /\ TotalDos.get_Debye_frequency self' = Some (Finite 3)
    /\ TotalDos._Debye_fit_coef self' = Some 2.
Proof.
  destruct (four_point_run None (Some (Finite 3)) (Some 2)) as [dos' Hrun].
  eexists. split; [exact Hrun|].
  exact (run_keeps_debye_fit no_weight no_ir_weights identity_inv
           no_tetrahedra no_thm_iter _ _ Hrun).
Defined.

(** C8 as stated fails: a Debye fit on the four-point engine followed by
    [run] leaves the Debye frequency and the fit coefficient of that fit in
    the engine. *)
Lemma debye_fit_survives_run :
  exists a fitted rerun,
    TotalDos.set_Debye_frequency linear_fit four_point_dos 2 None = Some fitted
    /\ TotalDos.run no_weight no_ir_weights identity_inv no_tetrahedra
         no_thm_iter fitted = Some rerun
    /\ TotalDos.get_Debye_frequency fitted
       = Some (Finite (Rpower (3 * 3 * IZR 2 / a) (1 / 3)))
    /\ TotalDos.get_Debye_frequency rerun
       = Some (Finite (Rpower (3 * 3 * IZR 2 / a) (1 / 3)))
    /\ TotalDos._Debye_fit_coef rerun = Some a.
Proof.
  destruct four_point_fit as (a & _ & Hfit).
  destruct (four_point_run (Some [2; 8; 18; 32])
              (Some (Finite (Rpower (3 * 3 * IZR 2 / a) (1 / 3)))) (Some a))
    as [dos' Hrun].
  exists a. eexists. eexists.
  split; [exact Hfit|]. split; [exact Hrun|].
  repeat split.
Qed.

(** Both engines built on the two-band mesh with
    [use_tetrahedron_method=True]: with no width they have the tetrahedron
    mesh and [run] is the tetrahedron path; with the width 1 they have
    none and [run] is the smearing path. *)
Lemma tetrahedron_mode_iff_witness :
  (exists t p thm thm',
     TotalDos.__init__ two_band_mesh None true = Some t
     /\ PartialDos.__init__ two_band_mesh None true None true = Some p
     /\ Dos._tetrahedron_mesh (TotalDos.base t) = Some thm
     /\ Dos._tetrahedron_mesh (PartialDos.base p) = Some thm'
     /\ TotalDos.run no_weight no_ir_weights identity_inv no_tetrahedra
          no_thm_iter t
        = TotalDos._run_tetrahedron_method_dos no_weight no_ir_weights
            identity_inv no_tetrahedra t
     /\ PartialDos.run no_thm_iter p
        = PartialDos._run_tetrahedron_method no_thm_iter p thm')
  /\ (exists t p,
        TotalDos.__init__ two_band_mesh (Some 1) true = Some t
        /\ PartialDos.__init__ two_band_mesh (Some 1) true None false = Some p
        /\ Dos._tetrahedron_mesh (TotalDos.base t) = None
        /\ Dos._tetrahedron_mesh (PartialDos.base p) = None
        /\ TotalDos.run no_weight no_ir_weights identity_inv no_tetrahedra
             no_thm_iter t = total_smearing_path t
        /\ PartialDos.run no_thm_iter p = PartialDos._run_smearing_method p).
Proof.
  split.
  - destruct (tetrahedron_mode_iff no_weight no_ir_weights identity_inv
                no_tetrahedra no_thm_iter two_band_mesh None true None true)
      as (Ht & Hp & Hex).
    destruct (Hex 0 1 two_band_min two_band_max) as [Het Hep].
    { unfold default_pitch, chosen_sigma. lra. }
    destruct Het as (t & Hinit & Hthm).
    destruct (Hthm eq_refl eq_refl) as [thm Hthm'].
    destruct (Hep [] eq_refl) as (p & Hpinit & Hpthm).
    destruct (Hpthm eq_refl eq_refl) as [thm' Hpthm'].
    destruct (Ht t Hinit) as (_ & _ & Hrun).
    destruct (Hp p Hpinit) as (_ & _ & Hprun).
    exists t, p, thm, thm'. split; [exact Hinit|]. split; [exact Hpinit|].
    split; [exact Hthm'|]. split; [exact Hpthm'|].
    split; [exact (Hrun thm Hthm') | exact (Hprun thm' Hpthm')].
  - destruct (tetrahedron_mode_iff no_weight no_ir_weights identity_inv
                no_tetrahedra no_thm_iter two_band_mesh (Some 1) true None
                false) as (Ht & Hp & Hex).
    destruct (Hex 0 1 two_band_min two_band_max) as [Het Hep].
    { unfold default_pitch, chosen_sigma. lra. }
    destruct Het as (t & Hinit & _).
    destruct (Hep [] eq_refl) as (p & Hpinit & _).
    destruct (Ht t Hinit) as (_ & Hsm & _).
    destruct (Hp p Hpinit) as (_ & Hpsm & _).
    destruct (Hsm eq_refl ltac:(discriminate)) as [H1 H2].
    destruct (Hpsm eq_refl ltac:(discriminate)) as [H3 H4].
    exists t, p. auto 10.
Defined.

(** *** Both engines on the one-atom mesh *)

Lemma one_atom_min : Np.min2 (frequencies one_atom_mesh) = Some 1.
Proof.
  unfold Np.min2, Np.min, one_atom_mesh, sample_mesh, frequencies, concat, app,
    fold_right.
  rewrite (Rmin_right 3 1), (Rmin_right 2 1) by lra. reflexivity.
Qed.

Lemma one_atom_max : Np.max2 (frequencies one_atom_mesh) = Some 3.
Proof.
  unfold Np.max2, Np.max, one_atom_mesh, sample_mesh, frequencies, concat, app,
    fold_right.
  rewrite (Rmax_left 3 1), (Rmax_right 2 3) by lra. reflexivity.
Qed.

Lemma abs2_c0 : abs2 c0 = 0.
Proof. unfold abs2, c0, re, im. rewrite pow2_sqrt by lra. lra. Qed.

Lemma abs2_c1 : abs2 c1 = 1.
Proof. unfold abs2, c1, re, im. rewrite pow2_sqrt by lra. lra. Qed.

(** The constructors build the sample engines: smearing mode, the same
    base, and isotropic projection coefficients all equal to one. *)
Lemma one_atom_engines :
  TotalDos.__init__ one_atom_mesh (Some 1) false = Some one_atom_total
  /\ PartialDos.__init__ one_atom_mesh (Some 1) false None false
     = Some one_atom_partial.
Proof.
  destruct (Dos_init_value one_atom_mesh (Some 1) false 1 3 one_atom_min
              one_atom_max) as [thm Hinit].
  { unfold default_pitch, chosen_sigma. lra. }
  assert (Hthm : thm = None).
  { pose proof (Dos_init_tetrahedron_mesh _ _ _ _ Hinit) as Hiff.
    cbn [Dos._tetrahedron_mesh] in Hiff.
    destruct thm; [|reflexivity].
    assert (H : false = true /\ Some 1 = None) by (apply Hiff; discriminate).
    destruct H; discriminate. }
  subst thm. unfold default_pitch, chosen_sigma in Hinit.
  replace ((3 + 1 * 10 - (1 - 1 * 10)) / 200) with (11 / 100) in Hinit by lra.
  replace (1 - 1 * 10) with (- 9) in Hinit by lra.
  change (Dos.__init__ one_atom_mesh (Some 1) false = Some one_atom_base)
    in Hinit.
  split.
  - unfold TotalDos.__init__. rewrite Hinit. reflexivity.
  - unfold PartialDos.__init__. rewrite Hinit.
    unfold one_atom_partial.
    change (Dos._frequencies one_atom_base) with [[1; 2; 3]].
    change (Dos._mesh_object one_atom_base) with one_atom_mesh.
    cbn -[abs2 c0 c1 one_atom_base].
    rewrite abs2_c0, abs2_c1.
    replace (1 + 0 + 0) with 1 by lra.
    replace (0 + 1 + 0) with 1 by lra.
    replace (0 + 0 + 1) with 1 by lra.
    reflexivity.
Qed.

(** The total DOS of the one-atom engine. *)
Lemma total_dos_smearing_value_witness :
  exists self' dos,
    TotalDos.run no_weight no_ir_weights identity_inv no_tetrahedra no_thm_iter
      one_atom_total = Some self'
    /\ TotalDos._dos self' = Some dos
    /\ length dos = 201%nat.
Proof.
  destruct (total_dos_smearing_value no_weight no_ir_weights identity_inv
              no_tetrahedra no_thm_iter one_atom_total
              (even_grid (- 9) (11 / 100) 201) (NormalDistribution (Some 1))
              (fun x => 1 / sqrt (2 * PI) / 1 * exp (- x ^ 2 / 2 / 1 ^ 2)) 3
              eq_refl eq_refl eq_refl eq_refl)
    as (self' & dos & H1 & H2 & H3 & _).
  - split; [reflexivity | repeat constructor].
  - unfold Np.sum. simpl. lra.
  - exists self', dos. rewrite even_grid_length in H3. auto.
Defined.

Lemma one_atom_normalized : normalized [[[1; 1; 1]]] 1 3.
Proof.
  intros g b Hg Hb. simpl in Hg.
  assert (g = 0%nat) by lia. subst g.
  destruct b as [|[|[|b]]]; simpl; try lra. lia.
Qed.

(** The partial DOS of the one-atom engine sums to its total DOS. *)
Lemma partial_dos_sums_to_total_dos_witness :
  exists p' t' pdos dos,
    PartialDos.run no_thm_iter one_atom_partial = Some p'
    /\ TotalDos.run no_weight no_ir_weights identity_inv no_tetrahedra
         no_thm_iter one_atom_total = Some t'
    /\ PartialDos._partial_dos p' = Some pdos
    /\ TotalDos._dos t' = Some dos
    /\ forall i, (i < 201)%nat ->
         Np.sum_n (length pdos) (fun j => nth i (nth j pdos []) 0) = nth i dos 0.
Proof.
  destruct (partial_dos_sums_to_total_dos no_weight no_ir_weights identity_inv
              no_tetrahedra no_thm_iter one_atom_partial one_atom_total
              (even_grid (- 9) (11 / 100) 201) (NormalDistribution (Some 1))
              (fun x => 1 / sqrt (2 * PI) / 1 * exp (- x ^ 2 / 2 / 1 ^ 2)) 3
              eq_refl eq_refl eq_refl eq_refl eq_refl)
    as (p' & t' & pdos & dos & H1 & H2 & H3 & H4 & _ & H6 & _).
  - split; [reflexivity | repeat constructor].
  - split; [reflexivity | repeat constructor].
  - exact one_atom_normalized.
  - exists p', t', pdos, dos. repeat split; auto.
Defined.

(** ** The tetrahedron path of the total DOS *)

Section TetrahedronPath.

Variable integration_weight :
  list Z -> list R -> list (list R) -> list (list Z) -> list Z ->
  list (list (list Z)) -> nat -> nat -> nat -> R.
Variable ir_weights : list Z -> list R.
Variable linalg_inv : list (list R) -> option (list (list R)).
Variable get_tetrahedra : list (list R) -> list Z -> list (list (list Z)).
Variable thm_iter : TetrahedronMesh -> list R -> list (list (list R)).

(** An entry of the raw weight tensor. *)
Lemma tensor_entry (mesh : list Z) (points : list R) (F : list (list R))
    (coef : list (list (list R))) (ga : list (list Z)) (gmt : list Z)
    (rga : list (list (list Z))) (g b f c : nat) :
  (g < length F)%nat -> (b < Np.ncols F)%nat -> (f < length points)%nat ->
  (c < Np.ncols coef)%nat ->
  nth c (nth f (nth b (nth g
    (Tetrahedron.tetrahedron_method_dos integration_weight ir_weights mesh
       points F coef ga gmt rga) []) []) []) 0
  = nth g (ir_weights gmt) 0
    * integration_weight mesh points F ga gmt rga g b f
    * nth b (nth c (nth g coef []) []) 0.
Proof.
  intros Hg Hb Hf Hc. unfold Tetrahedron.tetrahedron_method_dos.
  rewrite (nth_map_seq _ (length F) g []) by exact Hg.
  rewrite (nth_map_seq _ (Np.ncols F) b []) by exact Hb.
  rewrite (nth_map_seq _ (length points) f []) by exact Hf.
  rewrite (nth_map_seq _ (Np.ncols coef) c 0) by exact Hc.
  reflexivity.
Qed.

(** The vector [run_tetrahedron_method_dos] returns without
    coefficients. *)
Lemma run_tetrahedron_method_dos_total (mesh : list Z) (points : list R)
    (F : list (list R)) (ga : list (list Z)) (gmt : list Z)
    (rga : list (list (list Z))) (nb : nat) :
  Np.rectangular nb F ->
  exists dos,
    Tetrahedron.run_tetrahedron_method_dos integration_weight ir_weights
      mesh points F ga gmt rga None = inl dos
    /\ length dos = length points
    /\ forall i, (i < length points)%nat ->
         nth i dos 0
         = tetrahedron_sum (ir_weights gmt) (length F) nb
             (integration_weight mesh points F ga gmt rga) i
           / IZR (Np.prod mesh).
Proof.
  intros HF. unfold Tetrahedron.run_tetrahedron_method_dos.
  eexists. split; [reflexivity|]. split.
  { unfold Tetrahedron.sum_axis0. rewrite !length_map, length_seq.
    reflexivity. }
  intros i Hi.
  rewrite (nth_map_lt (fun x => x / IZR (Np.prod mesh)) _ i 0 0)
    by (unfold Tetrahedron.sum_axis0; rewrite length_map, length_seq;
        exact Hi).
  f_equal. unfold Tetrahedron.sum_axis0.
  rewrite (nth_map_seq _ (length points) i 0) by exact Hi.
  rewrite length_map, length_seq.
  unfold tetrahedron_sum.
  rewrite (sum_n_exchange (length F) nb).
  destruct F as [|r F'] eqn:EF.
  { simpl. rewrite sum_n_zero. reflexivity. }
  rewrite <- EF in *.
  assert (HFne : F <> []) by (rewrite EF; discriminate).
  rewrite (rectangular_ncols nb F HF HFne).
  apply sum_n_ext. intros b Hb.
  rewrite (nth_map_seq _ nb b []) by exact Hb.
  rewrite (nth_map_seq _ (length points) i 0) by exact Hi.
  assert (Hlen : length (Tetrahedron.tetrahedron_method_dos
                   integration_weight ir_weights mesh points F
                   (map (fun _ => [map (fun _ => 1) (seq 0 nb)]) F)
                   ga gmt rga) = length F).
  { unfold Tetrahedron.tetrahedron_method_dos.
    rewrite length_map, length_seq. reflexivity. }
  rewrite Hlen. apply sum_n_ext. intros g Hg.
  rewrite tensor_entry; try assumption.
  - rewrite (nth_map_lt (fun _ => [map (fun _ => 1) (seq 0 nb)]) F g [] [])
      by exact Hg.
    cbn [nth]. rewrite (nth_map_seq (fun _ => 1) nb b 0) by exact Hb. ring.
  - rewrite (rectangular_ncols nb F HF HFne). exact Hb.
  - rewrite EF. simpl. lia.
Qed.

(** C2.  In tetrahedron mode, on a mesh of [n1 x n2 x n3] points whose
    weights are the weights of the irreducible grid points and whose cell
    can be inverted, [run] succeeds and stores one DOS value per frequency
    point: at the [f]-th point it is the sum over the grid points [g] and
    the bands [b] of [weight[g] * integration_weight[g][b][f]], divided by
    the product [n1 n2 n3] of the mesh numbers.  It is not divided by the
    sum of the weights: it differs from that quotient wherever the sum of
    the weights is neither 0 nor 1 and the double sum is not zero. *)
Theorem total_dos_tetrahedron_value
    (self : TotalDos.t) (thm : TetrahedronMesh) (points : list R)
    (reciprocal_lattice : list (list R)) (nb : nat) (n1 n2 n3 : Z) :
  Dos._tetrahedron_mesh (TotalDos.base self) = Some thm ->
  TotalDos._openmp_thm self = true ->
  Dos._frequency_points (TotalDos.base self) = Some points ->
  linalg_inv (primitive (Dos._mesh_object (TotalDos.base self)))
  = Some reciprocal_lattice ->
  mesh_numbers (Dos._mesh_object (TotalDos.base self)) = [n1; n2; n3] ->
  (0 < n1 * n2 * n3)%Z ->
  ir_weights (grid_mapping_table (Dos._mesh_object (TotalDos.base self)))
  = Dos._weights (TotalDos.base self) ->
  mesh_shape (Dos._weights (TotalDos.base self))
    (Dos._frequencies (TotalDos.base self)) nb ->
  exists self' dos,
    TotalDos.run integration_weight ir_weights linalg_inv get_tetrahedra
      thm_iter self = Some self'
    /\ TotalDos._dos self' = Some dos
    /\ length dos = length points
    /\ forall i, (i < length points)%nat ->
         let total :=
           tetrahedron_sum (Dos._weights (TotalDos.base self))
             (length (Dos._frequencies (TotalDos.base self))) nb
             (integration_weight [n1; n2; n3]
                points (Dos._frequencies (TotalDos.base self))
                (grid_address (Dos._mesh_object (TotalDos.base self)))
                (grid_mapping_table (Dos._mesh_object (TotalDos.base self)))
                (get_tetrahedra reciprocal_lattice [n1; n2; n3]))
             i in
         nth i dos 0 = total / IZR (n1 * n2 * n3)
         /\ (total <> 0 ->
             Np.sum (Dos._weights (TotalDos.base self)) <> 0 ->
             Np.sum (Dos._weights (TotalDos.base self)) <> 1 ->
             nth i dos 0
             <> total / IZR (n1 * n2 * n3)
                / Np.sum (Dos._weights (TotalDos.base self))).
Proof.
  intros Hthm Homp Hpts Hinv Hmesh Hcount Hirw [_ HF].
  destruct (run_tetrahedron_method_dos_total
              (mesh_numbers (Dos._mesh_object (TotalDos.base self))) points
              (Dos._frequencies (TotalDos.base self))
              (grid_address (Dos._mesh_object (TotalDos.base self)))
              (grid_mapping_table (Dos._mesh_object (TotalDos.base self)))
              (get_tetrahedra reciprocal_lattice
                 (mesh_numbers (Dos._mesh_object (TotalDos.base self))))
              nb HF) as (dos & Hrun & Hlen & Hval).
  exists (TotalDos.mk (TotalDos.base self) (Some dos)
            (TotalDos._freq_Debye self) (TotalDos._Debye_fit_coef self)
            (TotalDos._openmp_thm self)), dos.
  split.
  { unfold TotalDos.run. rewrite Hthm, Homp.
    unfold TotalDos._run_tetrahedron_method_dos.
    rewrite Hinv, Hpts, Hrun. rewrite Homp. reflexivity. }
  split; [reflexivity|]. split; [exact Hlen|].
  assert (Hprod : Np.prod [n1; n2; n3] = (n1 * n2 * n3)%Z)
    by (unfold Np.prod; simpl; lia).
  assert (Hvol : IZR (n1 * n2 * n3) <> 0).
  { apply not_0_IZR. lia. }
  intros i Hi. cbv zeta. rewrite (Hval i Hi), Hirw, Hmesh, Hprod.
  split; [reflexivity|].
  intros Htot Hs0 Hs1 Heq.
  set (y := tetrahedron_sum _ _ _ _ _ / _) in *.
  assert (Hy : y <> 0).
  { unfold y, Rdiv. apply Rmult_integral_contrapositive_currified;
      [exact Htot | apply Rinv_neq_0_compat; exact Hvol]. }
  assert (Hmul : y * Np.sum (Dos._weights (TotalDos.base self)) = y).
  { rewrite Heq at 1. field. exact Hs0. }
  assert (Hz : y * (Np.sum (Dos._weights (TotalDos.base self)) - 1) = 0)
    by lra.
  destruct (Rmult_integral _ _ Hz) as [E|E]; [contradiction | lra].
Qed.

End TetrahedronPath.

(** The double sum of the two-point engine: [2 (1 + 2 + 3) + 6 (2 + 3 + 4)]
    at every frequency point. *)
Lemma two_point_tetrahedron_sum (rga : list (list (list Z))) (f : nat) :
  tetrahedron_sum (Dos._weights (TotalDos.base two_point_tetrahedron))
    (length (Dos._frequencies (TotalDos.base two_point_tetrahedron))) 3
    (ramp_weight [2; 2; 2]%Z [1; 2; 3]
       (Dos._frequencies (TotalDos.base two_point_tetrahedron))
       (grid_address (Dos._mesh_object (TotalDos.base two_point_tetrahedron)))
       (grid_mapping_table
          (Dos._mesh_object (TotalDos.base two_point_tetrahedron)))
       rga)
    f
  = 66.
Proof.
  unfold tetrahedron_sum, ramp_weight. simpl. lra.
Qed.

(** The total DOS of the two-point engine in tetrahedron mode, on the
    2 x 2 x 2 mesh with the weights 2 and 6: the double sum 66 divided by
    the 8 mesh points, and not by the sum 8 of the weights as well. *)
Lemma total_dos_tetrahedron_value_witness :
  exists self' dos,
    TotalDos.run ramp_weight two_point_ir_weights identity_inv no_tetrahedra
      no_thm_iter two_point_tetrahedron = Some self'
    /\ TotalDos._dos self' = Some dos
    /\ length dos = 3%nat
    /\ nth 0 dos 0 = 66 / 8
    /\ nth 0 dos 0 <> 66 / 8 / 8.
Proof.
  destruct (total_dos_tetrahedron_value ramp_weight two_point_ir_weights
              identity_inv no_tetrahedra no_thm_iter two_point_tetrahedron
              two_point_thm [1; 2; 3] (primitive two_point_mesh) 3 2 2 2
              eq_refl eq_refl eq_refl eq_refl eq_refl)
    as (self' & dos & H1 & H2 & H3 & H4).
  - lia.
  - reflexivity.
  - split; [reflexivity | repeat constructor].
  - exists self', dos. split; [exact H1|]. split; [exact H2|].
    split; [exact H3|].
    specialize (H4 0%nat ltac:(simpl; lia)). cbv zeta in H4.
    rewrite two_point_tetrahedron_sum in H4.
    change (IZR (2 * 2 * 2)) with 8 in H4.
    assert (Hs : Np.sum (Dos._weights (TotalDos.base two_point_tetrahedron))
                 = 8) by (unfold Np.sum; simpl; lra).
    rewrite Hs in H4. destruct H4 as [Hv Hne].
    split; [exact Hv | apply Hne; lra].
Defined.

(** ** Errors of the index grouping *)

Lemma sum_group_raises (n : nat) (partial_dos : list (list R))
    (pre : list Z) (i : Z) (post : list Z) (v : value) :
  Np.rectangular n partial_dos -> value_shape n v ->
  Forall (in_range (length partial_dos)) pre ->
  ~ in_range (length partial_dos) i ->
  sum_group (length partial_dos) partial_dos (pre ++ i :: post) v
  = Raise (index_error (length partial_dos) i).
Proof.
  intros Hrect Hv Hpre Hi. revert v Hv.
  induction Hpre as [|j pre Hj Hpre IH]; intros v Hv; simpl.
  - unfold index_error.
    destruct (i >? Z.of_nat (length partial_dos) - 1)%Z eqn:E1;
      [reflexivity|].
    destruct (i <? 0)%Z eqn:E2; [reflexivity|].
    exfalso. apply Hi. unfold in_range.
    rewrite Z.gtb_ltb in E1. apply Z.ltb_ge in E1, E2. lia.
  - destruct (in_range_checks _ _ Hj) as [H1 H2]. rewrite H1, H2.
    destruct (add_row_shape n v (nth (Z.to_nat j) partial_dos []) Hv)
      as (a1 & Hadd & Hl1 & _).
    { apply rectangular_nth; [exact Hrect|]. unfold in_range in Hj. lia. }
    rewrite Hadd. apply IH. exact Hl1.
Qed.

Lemma get_pdos_loop_raises (n : nat) (partial_dos : list (list R))
    (indices before : list (list Z)) (pre : list Z) (i : Z) (post : list Z)
    (after : list (list Z)) :
  Np.rectangular n partial_dos ->
  first_offender (length partial_dos) indices before pre i post after ->
  get_pdos_loop (length partial_dos) partial_dos indices
  = Raise (index_error (length partial_dos) i).
Proof.
  intros Hrect (-> & Hbefore & Hpre & Hi).
  induction Hbefore as [|grp before Hgrp Hbefore IH]; simpl.
  - rewrite (sum_group_raises n partial_dos pre i post Int0 Hrect I Hpre Hi).
    reflexivity.
  - destruct (sum_group_in_range n partial_dos grp Int0 Hrect Hgrp I)
      as (v & Hv & _).
    rewrite Hv, IH. reflexivity.
Qed.

(** The curves of the groups: one call of [ax.plot] for each. *)
Lemma group_curves_length (flip_xy : bool) (points : list R)
    (partial_dos : list (list R)) (legend : option (list string))
    (groups : list (list Z)) :
  forall pdos_ind,
  length (group_curves flip_xy points partial_dos legend pdos_ind groups)
  = length groups.
Proof.
  induction groups as [|grp rest IH]; intros pdos_ind; simpl;
    [reflexivity | rewrite IH; reflexivity].
Qed.

Lemma group_curves_plots (flip_xy : bool) (points : list R)
    (partial_dos : list (list R)) (legend : option (list string))
    (groups : list (list Z)) :
  forall pdos_ind,
  Forall is_plot
    (group_curves flip_xy points partial_dos legend pdos_ind groups).
Proof.
  induction groups as [|grp rest IH]; intros pdos_ind; simpl;
    constructor; [destruct flip_xy; exact I | apply IH].
Qed.

(** The sum of a group of indices in range, from the zero array the
    plotting loop starts every group with. *)
Lemma sum_group_zeros (points : list R) (partial_dos : list (list R))
    (grp : list Z) :
  Np.rectangular (length points) partial_dos ->
  Forall (in_range (length partial_dos)) grp ->
  sum_group (length partial_dos) partial_dos grp
    (Arr (map (fun _ => 0) points))
  = Ok (Arr (group_sum (length points) partial_dos grp)).
Proof.
  intros Hrect Hgrp.
  destruct (sum_group_in_range (length points) partial_dos grp
              (Arr (map (fun _ => 0) points)) Hrect Hgrp)
    as (v & Hrun & Hshape & Hval & _ & Harr).
  { simpl. apply length_map. }
  destruct Harr as [a ->]; [right; discriminate|].
  rewrite Hrun. do 2 f_equal. simpl in Hshape.
  apply nth_ext with (d := 0) (d' := 0).
  - unfold group_sum. rewrite length_map, length_seq. exact Hshape.
  - intros i Hi. rewrite Hshape in Hi.
    specialize (Hval i Hi). simpl in Hval. rewrite Hval.
    rewrite (nth_map_lt (fun _ : R => 0) points i 0 0) by exact Hi.
    unfold group_sum. rewrite (nth_map_seq _ (length points) i 0) by exact Hi.
    lra.
Qed.

(** The plotting loop on groups in range, with rows that have the length
    of the frequency points and legend names for the groups: it draws the
    curve of every group and, with the total switched on, adds every
    group to the total. *)
Lemma plot_loop_in_range (points : list R) (partial_dos : list (list R))
    (total_dos_bool : bool) (legend : option (list string)) (flip_xy : bool)
    (indices : list (list Z)) :
  Np.rectangular (length points) partial_dos ->
  Forall (Forall (in_range (length partial_dos))) indices ->
  forall (ax : axes) (total_dos : value) (pdos_ind : nat),
  legend_covers legend (pdos_ind + length indices) ->
  value_shape (length points) total_dos ->
  exists total,
    plot_loop (length partial_dos) points partial_dos total_dos_bool legend
      flip_xy indices ax total_dos pdos_ind
    = (ax ++ group_curves flip_xy points partial_dos legend pdos_ind indices,
       Ok total)
    /\ value_shape (length points) total
    /\ (total_dos_bool = false -> total = total_dos)
    /\ (total_dos_bool = true ->
        forall i, (i < length points)%nat ->
          value_at total i
          = value_at total_dos i
            + Np.sum (map (fun j => nth i (nth (Z.to_nat j) partial_dos []) 0)
                        (concat indices))).
Proof.
  intros Hrect Hall.
  induction Hall as [|grp rest Hgrp Hrest IH];
    intros ax total_dos pdos_ind Hleg Hshape.
  - exists total_dos. simpl. rewrite app_nil_r.
    repeat split; auto. intros; lra.
  - cbn [plot_loop group_curves].
    rewrite (sum_group_zeros points partial_dos grp Hrect Hgrp).
    set (gs := group_sum (length points) partial_dos grp).
    assert (Hgs : length gs = length points)
      by (unfold gs, group_sum; rewrite length_map, length_seq; reflexivity).
    assert (Hgv : forall i, (i < length points)%nat ->
              nth i gs 0
              = Np.sum (map (fun j => nth i (nth (Z.to_nat j) partial_dos []) 0)
                          grp)).
    { intros i Hi. unfold gs, group_sum.
      rewrite (nth_map_seq _ (length points) i 0) by exact Hi.
      reflexivity. }
    assert (Hstep : exists total1,
              (if total_dos_bool then add_value total_dos (Arr gs)
               else Ok total_dos) = Ok total1
              /\ value_shape (length points) total1
              /\ (total_dos_bool = false -> total1 = total_dos)
              /\ (total_dos_bool = true ->
                  forall i, (i < length points)%nat ->
                    value_at total1 i = value_at total_dos i + nth i gs 0)).
    { destruct total_dos_bool.
      - destruct (add_row_shape (length points) total_dos gs Hshape Hgs)
          as (t & Ht & Hl & Hv).
        exists (Arr t). cbn [add_value]. rewrite Ht.
        split; [reflexivity|]. split; [exact Hl|].
        split; [discriminate|]. intros _ i Hi. apply Hv. exact Hi.
      - exists total_dos. split; [reflexivity|]. split; [exact Hshape|].
        split; [reflexivity | discriminate]. }
    destruct Hstep as (total1 & Hstep & Hs1 & Hf1 & Ht1). rewrite Hstep.
    assert (Hnext : forall ax1,
              legend_covers legend (S pdos_ind + length rest) ->
              exists total,
                plot_loop (length partial_dos) points partial_dos
                  total_dos_bool legend flip_xy rest ax1 total1 (S pdos_ind)
                = (ax1 ++ group_curves flip_xy points partial_dos legend
                            (S pdos_ind) rest, Ok total)
                /\ value_shape (length points) total
                /\ (total_dos_bool = false -> total = total_dos)
                /\ (total_dos_bool = true ->
                    forall i, (i < length points)%nat ->
                      value_at total i
                      = value_at total_dos i
                        + Np.sum
                            (map (fun j =>
                                    nth i (nth (Z.to_nat j) partial_dos []) 0)
                               (concat (grp :: rest))))).
    { intros ax1 Hleg1.
      destruct (IH ax1 total1 (S pdos_ind) Hleg1 Hs1)
        as (total & Hrun & Hts & Hf & Ht).
      exists total. split; [exact Hrun|]. split; [exact Hts|]. split.
      - intros Hb. rewrite (Hf Hb). apply Hf1. exact Hb.
      - intros Hb i Hi. rewrite (Ht Hb i Hi), (Ht1 Hb i Hi), (Hgv i Hi).
        cbn [concat]. rewrite map_app, sum_app. lra. }
    destruct legend as [names|].
    + simpl in Hleg.
      destruct (nth_error names pdos_ind) as [name|] eqn:En.
      2: { apply nth_error_None in En. lia. }
      rewrite (nth_error_nth names pdos_ind EmptyString En).
      match goal with
      | |- context [plot_loop _ _ _ _ _ _ rest ?ax1 total1 (S pdos_ind)] =>
          destruct (Hnext ax1) as (total & Hrun & Hrest')
      end.
      { simpl. lia. }
      rewrite Hrun. exists total. rewrite <- app_assoc.
      split; [reflexivity | exact Hrest'].
    + match goal with
      | |- context [plot_loop _ _ _ _ _ _ rest ?ax1 total1 (S pdos_ind)] =>
          destruct (Hnext ax1) as (total & Hrun & Hrest')
      end.
      { exact I. }
      rewrite Hrun. exists total. rewrite <- app_assoc.
      split; [reflexivity | exact Hrest'].
Qed.

(** The plotting loop on two lists of groups one after the other. *)
Lemma plot_loop_app (natoms : nat) (points : list R)
    (partial_dos : list (list R)) (total_dos_bool : bool)
    (legend : option (list string)) (flip_xy : bool)
    (xs ys : list (list Z)) :
  forall (ax : axes) (total_dos : value) (pdos_ind : nat),
  plot_loop natoms points partial_dos total_dos_bool legend flip_xy
    (xs ++ ys) ax total_dos pdos_ind
  = match plot_loop natoms points partial_dos total_dos_bool legend flip_xy
            xs ax total_dos pdos_ind with
    | (ax', Ok total') =>
        plot_loop natoms points partial_dos total_dos_bool legend flip_xy ys
          ax' total' (pdos_ind + length xs)
    | (ax', Raise e) => (ax', Raise e)
    end.
Proof.
  induction xs as [|grp xs IH]; intros ax total_dos pdos_ind.
  - simpl. rewrite Nat.add_0_r. reflexivity.
  - cbn [app plot_loop length].
    destruct (sum_group natoms partial_dos grp _); [|reflexivity].
    destruct (if total_dos_bool then _ else _); [|reflexivity].
    destruct legend as [names|].
    + destruct (nth_error names pdos_ind); [|reflexivity].
      rewrite IH, Nat.add_succ_r. reflexivity.
    + rewrite IH, Nat.add_succ_r. reflexivity.
Qed.

(** The plotting loop draws the curve of each group before the offending
    one, then raises. *)
Lemma plot_loop_raises (points : list R) (partial_dos : list (list R))
    (total_dos_bool : bool) (legend : option (list string)) (flip_xy : bool)
    (before : list (list Z)) (pre : list Z) (i : Z) (post : list Z)
    (after : list (list Z)) (ax : axes) (total_dos : value) (pdos_ind : nat) :
  Np.rectangular (length points) partial_dos ->
  value_shape (length points) total_dos ->
  Forall (Forall (in_range (length partial_dos))) before ->
  Forall (in_range (length partial_dos)) pre ->
  ~ in_range (length partial_dos) i ->
  legend_covers legend (pdos_ind + length before) ->
  plot_loop (length partial_dos) points partial_dos total_dos_bool legend
    flip_xy (before ++ (pre ++ i :: post) :: after) ax total_dos pdos_ind
  = (ax ++ group_curves flip_xy points partial_dos legend pdos_ind before,
     Raise (index_error (length partial_dos) i)).
Proof.
  intros Hrect Hshape Hbefore Hpre Hi Hleg. rewrite plot_loop_app.
  destruct (plot_loop_in_range points partial_dos total_dos_bool legend
              flip_xy before Hrect Hbefore ax total_dos pdos_ind Hleg Hshape)
    as (total & Hrun & _).
  rewrite Hrun. cbn [plot_loop].
  rewrite (sum_group_raises (length points) partial_dos pre i post _ Hrect)
    by (try assumption; simpl; apply length_map).
  reflexivity.
Qed.

(** C6, as amended.  For a grouping passed to [get_pdos] or
    [plot_partial_dos], on a partial DOS whose rows all have one length,
    let [i] be the first index outside [[0, num_channels)] met when the
    groups are walked in order.  Then [get_pdos] raises and returns
    nothing; and [plot_partial_dos] raises the same error, when the rows
    have as many entries as there are frequency points and the legend, if
    there is one, has a name for each group before the offending one:
    by then it has drawn, after the four tick calls, the summed curve of
    each of those groups and nothing else.  The error is the out-of-range
    error when [i > num_channels - 1] and the negative-index error when
    [i < 0], and reports [i + 1].  When every index is in range
    [get_pdos] does not raise, and neither does [plot_partial_dos] when
    the rows have as many entries as there are frequency points and the
    legend, if there is one, names every group. *)
Theorem index_grouping_errors
    (ax : axes) (points : list R) (partial_dos : list (list R))
    (total_dos_bool : bool) (indices : list (list Z))
    (legend : option (list string)) (xlabel ylabel : option string)
    (draw_grid flip_xy : bool) (n : nat) :
  Np.rectangular n partial_dos ->
  (forall before pre i post after,
     first_offender (length partial_dos) indices before pre i post after ->
     get_pdos ax partial_dos (Some indices)
     = Raise (index_error (length partial_dos) i)
     /\ (n = length points -> legend_covers legend (length before) ->
         plot_partial_dos ax points partial_dos total_dos_bool
           (Some indices) legend xlabel ylabel draw_grid flip_xy
         = (ax ++ tick_calls
               ++ group_curves flip_xy points partial_dos legend 0 before,
            Raise (index_error (length partial_dos) i))))
  /\ (forall i,
        ((i > Z.of_nat (length partial_dos) - 1)%Z ->
         index_error (length partial_dos) i = ValueError_too_large (i + 1))
        /\ ((i < 0)%Z ->
            index_error (length partial_dos) i
            = ValueError_not_positive (i + 1)))
  /\ (Forall (Forall (in_range (length partial_dos))) indices ->
      (exists pdos_list,
         get_pdos ax partial_dos (Some indices) = Ok pdos_list
         /\ length pdos_list = length indices)
      /\ (n = length points -> legend_covers legend (length indices) ->
          exists ax',
            plot_partial_dos ax points partial_dos total_dos_bool
              (Some indices) legend xlabel ylabel draw_grid flip_xy
            = (ax', Ok tt))).
Proof.
  intros Hrect. split; [|split].
  - intros before pre i post after Hfirst. split.
    + apply (get_pdos_loop_raises n _ _ _ _ _ _ _ Hrect Hfirst).
    + intros -> Hleg. destruct Hfirst as (-> & Hbefore & Hpre & Hi).
      unfold plot_partial_dos. fold tick_calls.
      rewrite (plot_loop_raises points partial_dos total_dos_bool legend
                 flip_xy before pre i post after (ax ++ tick_calls) Int0 0
                 Hrect I Hbefore Hpre Hi Hleg).
      rewrite <- app_assoc. reflexivity.
  - intros i. unfold index_error. split; intros Hi.
    + destruct (i >? _)%Z eqn:E; [reflexivity|].
      rewrite Z.gtb_ltb in E. apply Z.ltb_ge in E. lia.
    + destruct (i >? _)%Z eqn:E; [|reflexivity].
      rewrite Z.gtb_ltb in E. apply Z.ltb_lt in E. lia.
  - intros Hall. split.
    + destruct (get_pdos_loop_in_range n partial_dos indices Hrect Hall)
        as (l & Hl & Hlen & _).
      exists l. split; [exact Hl | exact Hlen].
    + intros -> Hleg. unfold plot_partial_dos. fold tick_calls.
      destruct (plot_loop_in_range points partial_dos total_dos_bool legend
                  flip_xy indices Hrect Hall (ax ++ tick_calls) Int0 0 Hleg I)
        as (total & Hrun & _).
      rewrite Hrun. eexists. reflexivity.
Qed.

(** The grouping [[0], [2]] of two channels: [get_pdos] raises the
    out-of-range error that reports 3, and so does [plot_partial_dos],
    after the ticks and the curve of the first group. *)
Lemma index_grouping_errors_witness :
  get_pdos [] [[1; 2]; [3; 4]] (Some [[0]; [2]])%Z
  = Raise (ValueError_too_large 3)
  /\ plot_partial_dos [] [0; 1] [[1; 2]; [3; 4]] true (Some [[0]; [2]])%Z
       None None None true false
     = ([] ++ tick_calls
           ++ group_curves false [0; 1] [[1; 2]; [3; 4]] None 0 [[0]]%Z,
        Raise (ValueError_too_large 3)).
Proof.
  destruct (index_grouping_errors [] [0; 1] [[1; 2]; [3; 4]] true
              [[0]; [2]]%Z None None None true false 2) as (H & _ & _).
  - repeat constructor.
  - destruct (H [[0]]%Z [] 2%Z [] []) as [Hget Hplot].
    + split; [reflexivity|]. split; [|split].
      * repeat constructor; unfold in_range; simpl; lia.
      * constructor.
      * unfold in_range. simpl. lia.
    + split; [exact Hget|]. apply Hplot; [reflexivity | exact I].
Defined.

(** C6 as stated fails for [plot_partial_dos]: with the grouping
    [[0], [2]] of two channels the sum of the first group is drawn on the
    axes before the index 2 of the second group raises. *)
Lemma plot_draws_before_raising :
  plot_partial_dos [] [0; 1] [[1; 2]; [3; 4]] true (Some [[0]; [2]])%Z None
    None None true false
  = (tick_calls ++ [ax_plot (Arr [0; 1]) (Arr [0 + 1; 0 + 2]) None],
     Raise (ValueError_too_large 3)).
Proof. reflexivity. Qed.

(** ** The isotropic projection of unit eigenvectors *)

Lemma traverse_nth_error {A} (rows : list A) (idx : list nat) (d : A) :
  Forall (fun i => (i < length rows)%nat) idx ->
  traverse (nth_error rows) idx = Some (map (fun i => nth i rows d) idx).
Proof.
  intros H. apply traverse_total. intros i Hi.
  rewrite Forall_forall in H. apply nth_error_nth'. apply H. exact Hi.
Qed.

Lemma take_rows_value (idx : list nat) (e : list (list (list complex)))
    (n3 nb : nat) :
  eigenvectors_shape e n3 nb ->
  Forall (fun i => (i < n3)%nat) idx ->
  PartialDos.take_rows idx e
  = Some (map (fun rows => map (fun i => nth i rows []) idx) e).
Proof.
  intros He Hidx. unfold PartialDos.take_rows. apply traverse_total.
  intros rows Hrows. unfold eigenvectors_shape in He.
  rewrite Forall_forall in He. destruct (He rows Hrows) as [Hlen _].
  apply traverse_nth_error. rewrite Hlen. exact Hidx.
Qed.

(** The squared moduli of the selected components: shape and entries. *)
Lemma selected_abs2 (sel : nat -> nat) (e : list (list (list complex)))
    (n3 nb natom : nat) :
  eigenvectors_shape e n3 nb ->
  (forall j, (j < natom)%nat -> (sel j < n3)%nat) ->
  let a := PartialDos.map3 abs2
             (map (fun rows => map (fun i => nth i rows [])
                                 (map sel (seq 0 natom))) e) in
  eigvecs2_shape a (length e) natom nb
  /\ forall g j b, (g < length e)%nat -> (j < natom)%nat -> (b < nb)%nat ->
       nth b (nth j (nth g a []) []) 0
       = abs2 (nth b (nth (sel j) (nth g e []) []) c0).
Proof.
  intros He Hsel a.
  assert (Hrow : forall g, (g < length e)%nat ->
            nth g a []
            = map (map abs2)
                (map (fun i => nth i (nth g e []) []) (map sel (seq 0 natom)))).
  { intros g Hg. unfold a, PartialDos.map3.
    rewrite (nth_map_lt (map (map abs2)) _ g [] []) by (rewrite length_map; exact Hg).
    rewrite (nth_map_lt _ e g [] []) by exact Hg. reflexivity. }
  assert (Hshape : forall g, (g < length e)%nat ->
            length (nth g e []) = n3 /\ Np.rectangular nb (nth g e [])).
  { intros g Hg. unfold eigenvectors_shape in He. rewrite Forall_forall in He.
    apply He. apply nth_In. exact Hg. }
  assert (Hent : forall g j, (g < length e)%nat -> (j < natom)%nat ->
            nth j (nth g a []) []
            = map abs2 (nth (sel j) (nth g e []) [])).
  { intros g j Hg Hj. rewrite (Hrow g Hg), map_map, map_map.
    rewrite (nth_map_seq _ natom j []) by exact Hj. reflexivity. }
  split.
  - split.
    + unfold a, PartialDos.map3. rewrite !length_map. reflexivity.
    + apply Forall_nth. intros g d Hg.
      assert (Hg' : (g < length e)%nat).
      { unfold a, PartialDos.map3 in Hg. rewrite !length_map in Hg. exact Hg. }
      rewrite (nth_indep _ d []) by exact Hg.
      split.
      * rewrite (Hrow g Hg'), !length_map, length_seq. reflexivity.
      * unfold Np.rectangular. apply Forall_nth. intros j d' Hj.
        assert (Hj' : (j < natom)%nat).
        { rewrite (Hrow g Hg'), !length_map, length_seq in Hj. exact Hj. }
        rewrite (nth_indep _ d' []) by exact Hj.
        rewrite (Hent g j Hg' Hj'), length_map.
        destruct (Hshape g Hg') as [Hn3 Hrect].
        apply rectangular_nth; [exact Hrect | rewrite Hn3; apply Hsel; exact Hj'].
  - intros g j b Hg Hj Hb. rewrite (Hent g j Hg Hj).
    destruct (Hshape g Hg) as [Hn3 Hrect].
    apply nth_map_lt.
    rewrite (rectangular_nth nb _ (sel j) Hrect) by (rewrite Hn3; apply Hsel; exact Hj).
    exact Hb.
Qed.

(** The elementwise sum of two arrays of the same shape. *)
Lemma zip3_plus (a b : list (list (list R))) (ng nch nb : nat) :
  eigvecs2_shape a ng nch nb -> eigvecs2_shape b ng nch nb ->
  eigvecs2_shape (PartialDos.zip3 Rplus a b) ng nch nb
  /\ forall g j k, (g < ng)%nat -> (j < nch)%nat -> (k < nb)%nat ->
       nth k (nth j (nth g (PartialDos.zip3 Rplus a b) []) []) 0
       = nth k (nth j (nth g a []) []) 0 + nth k (nth j (nth g b []) []) 0.
Proof.
  intros Ha Hb. unfold PartialDos.zip3.
  assert (Hla : length a = ng) by apply Ha.
  assert (Hlb : length b = ng) by apply Hb.
  assert (Hg : forall g, (g < ng)%nat ->
            nth g (Np.zip_with (Np.zip_with (Np.zip_with Rplus)) a b) []
            = Np.zip_with (Np.zip_with Rplus) (nth g a []) (nth g b [])).
  { intros g Hg. apply nth_zip_with; lia. }
  assert (Hj : forall g j, (g < ng)%nat -> (j < nch)%nat ->
            nth j (Np.zip_with (Np.zip_with Rplus) (nth g a []) (nth g b [])) []
            = Np.zip_with Rplus (nth j (nth g a []) []) (nth j (nth g b []) [])).
  { intros g j Hg' Hj'.
    destruct (eigvecs2_shape_nth a ng nch nb g Ha Hg') as [H1 _].
    destruct (eigvecs2_shape_nth b ng nch nb g Hb Hg') as [H2 _].
    apply nth_zip_with; lia. }
  assert (Hk : forall g j, (g < ng)%nat -> (j < nch)%nat ->
            length (nth j (nth g a []) []) = nb
            /\ length (nth j (nth g b []) []) = nb).
  { intros g j Hg' Hj'.
    destruct (eigvecs2_shape_nth a ng nch nb g Ha Hg') as [H1 R1].
    destruct (eigvecs2_shape_nth b ng nch nb g Hb Hg') as [H2 R2].
    split; apply rectangular_nth; try assumption; lia. }
  split.
  - split.
    + rewrite length_zip_with, Hla, Hlb. apply Nat.min_id.
    + apply Forall_nth. intros g d Hlt.
      rewrite length_zip_with, Hla, Hlb, Nat.min_id in Hlt.
      rewrite (nth_indep _ d [])
        by (rewrite length_zip_with, Hla, Hlb, Nat.min_id; exact Hlt).
      rewrite (Hg g Hlt).
      destruct (eigvecs2_shape_nth a ng nch nb g Ha Hlt) as [H1 _].
      destruct (eigvecs2_shape_nth b ng nch nb g Hb Hlt) as [H2 _].
      split.
      * rewrite length_zip_with, H1, H2. apply Nat.min_id.
      * unfold Np.rectangular. apply Forall_nth. intros j d' Hlt'.
        rewrite length_zip_with, H1, H2, Nat.min_id in Hlt'.
        rewrite (nth_indep _ d' [])
          by (rewrite length_zip_with, H1, H2, Nat.min_id; exact Hlt').
        rewrite (Hj g j Hlt Hlt'), length_zip_with.
        destruct (Hk g j Hlt Hlt') as [K1 K2]. rewrite K1, K2.
        apply Nat.min_id.
  - intros g j k Hg' Hj' Hk'. rewrite (Hg g Hg'), (Hj g j Hg' Hj').
    destruct (Hk g j Hg' Hj') as [K1 K2].
    apply nth_zip_with; lia.
Qed.

(** A sum over [3 n] components, taken three at a time. *)
Lemma sum_n_by_three (n : nat) (f : nat -> R) :
  Np.sum_n (3 * n) f
  = Np.sum_n n (fun j => f (j * 3)%nat + f (j * 3 + 1)%nat + f (j * 3 + 2)%nat).
Proof.
  induction n as [|n IH].
  - reflexivity.
  - replace (3 * S n)%nat with (S (S (S (3 * n)))) by lia.
    cbn [Np.sum_n]. rewrite IH.
    replace (S (3 * n)) with (n * 3 + 1)%nat by lia.
    replace (S (n * 3 + 1)) with (n * 3 + 2)%nat by lia.
    replace (3 * n)%nat with (n * 3)%nat by lia.
    lra.
Qed.

(** X15.  In the default mode (no direction, no xyz projection) the
    constructor turns unit eigenvectors into projection coefficients that
    sum to one over the atoms. *)
Lemma isotropic_projection_normalized (F : list (list R))
    (e : list (list (list complex))) (nb : nat) :
  eigenvectors_shape e (3 * (Np.ncols F / 3)) nb ->
  unit_eigenvectors e (3 * (Np.ncols F / 3)) nb ->
  exists e2,
    PartialDos.eigvecs2_of F e None false = Some e2
    /\ eigvecs2_shape e2 (length e) (Np.ncols F / 3) nb
    /\ normalized e2 (Np.ncols F / 3) nb.
Proof.
  intros He Hunit. set (natom := (Np.ncols F / 3)%nat) in *.
  unfold PartialDos.eigvecs2_of. fold natom.
  assert (Hidx : forall (c : nat), (c < 3)%nat ->
            Forall (fun i => (i < 3 * natom)%nat)
              (map (fun j => (j * 3 + c)%nat) (seq 0 natom))).
  { intros c Hc. rewrite Forall_forall. intros i Hi.
    apply in_map_iff in Hi. destruct Hi as (j & <- & Hj).
    apply in_seq in Hj. lia. }
  assert (Hx : map (fun j => (j * 3)%nat) (seq 0 natom)
               = map (fun j => (j * 3 + 0)%nat) (seq 0 natom)).
  { apply map_ext. intros j. lia. }
  rewrite Hx.
  rewrite (take_rows_value _ e (3 * natom) nb He (Hidx 0%nat ltac:(lia))).
  rewrite (take_rows_value _ e (3 * natom) nb He (Hidx 1%nat ltac:(lia))).
  rewrite (take_rows_value _ e (3 * natom) nb He (Hidx 2%nat ltac:(lia))).
  destruct (selected_abs2 (fun j => (j * 3 + 0)%nat) e (3 * natom) nb natom He)
    as [Sx Ex]; [intros; lia|].
  destruct (selected_abs2 (fun j => (j * 3 + 1)%nat) e (3 * natom) nb natom He)
    as [Sy Ey]; [intros; lia|].
  destruct (selected_abs2 (fun j => (j * 3 + 2)%nat) e (3 * natom) nb natom He)
    as [Sz Ez]; [intros; lia|].
  destruct (zip3_plus _ _ _ _ _ Sx Sy) as [Sxy Exy].
  destruct (zip3_plus _ _ _ _ _ Sxy Sz) as [Sxyz Exyz].
  eexists. split; [reflexivity|]. split; [exact Sxyz|].
  intros g b Hg Hb.
  assert (Hg' : (g < length e)%nat).
  { destruct Sxyz as [Hl _]. rewrite Hl in Hg. exact Hg. }
  rewrite <- (Hunit g b Hg' Hb), sum_n_by_three.
  apply sum_n_ext. intros j Hj.
  rewrite (Exyz g j b Hg' Hj Hb), (Exy g j b Hg' Hj Hb).
  rewrite (Ex g j b Hg' Hj Hb), (Ey g j b Hg' Hj Hb), (Ez g j b Hg' Hj Hb).
  replace (j * 3 + 0)%nat with (j * 3)%nat by lia. reflexivity.
Qed.

Lemma one_atom_eigenvectors_shape :
  eigenvectors_shape (eigenvectors one_atom_mesh) 3 3.
Proof. repeat constructor. Qed.

Lemma one_atom_unit_eigenvectors :
  unit_eigenvectors (eigenvectors one_atom_mesh) 3 3.
Proof.
  intros g b Hg Hb. simpl in Hg.
  assert (g = 0%nat) by lia. subst g.
  destruct b as [|[|[|b]]]; [| | |lia];
    cbn -[abs2 c0 c1]; rewrite ?abs2_c0, ?abs2_c1; lra.
Qed.

Lemma isotropic_projection_normalized_witness :
  exists e2,
    PartialDos.eigvecs2_of [[1; 2; 3]] (eigenvectors one_atom_mesh) None false
    = Some e2
    /\ normalized e2 1 3.
Proof.
  destruct (isotropic_projection_normalized [[1; 2; 3]]
              (eigenvectors one_atom_mesh) 3 one_atom_eigenvectors_shape
              one_atom_unit_eigenvectors) as (e2 & H1 & _ & H3).
  exists e2. split; [exact H1 | exact H3].
Defined.

(** * Further properties of the module *)

(** ** The kernels and the sign of the smeared DOS *)

Lemma exp_le_1 (y : R) : y <= 0 -> exp y <= 1.
Proof.
  intros [Hy|Hy].
  - rewrite <- exp_0. apply Rlt_le. apply exp_increasing. exact Hy.
  - rewrite Hy, exp_0. lra.
Qed.

(** In exact arithmetic a kernel of positive width has a density that is
    positive, even, and largest at the offset 0. *)
Lemma kernel_density (k : smearing_function) (s : R) :
  width k = Some s -> 0 < s ->
  exists c,
    calc k = Some c
    /\ forall x, 0 < c x /\ c (- x) = c x /\ c x <= c 0.
Proof.
  intros Hw Hs.
  assert (Hpi : 0 < PI) by apply PI_RGT_0.
  assert (Hs2 : 0 < s ^ 2) by (apply pow_lt; exact Hs).
  destruct k as [sigma|gamma]; simpl in Hw; subst.
  - eexists. split; [reflexivity|]. intros x.
    assert (Hr : 0 < sqrt (2 * PI)) by (apply sqrt_lt_R0; lra).
    assert (Hc : 0 < 1 / sqrt (2 * PI) / s).
    { apply Rdiv_lt_0_compat; [apply Rdiv_lt_0_compat; lra | exact Hs]. }
    split; [|split].
    + apply Rmult_lt_0_compat; [exact Hc | apply exp_pos].
    + replace ((- x) ^ 2) with (x ^ 2) by ring. reflexivity.
    + apply Rmult_le_compat_l; [lra|].
      replace (- 0 ^ 2 / 2 / s ^ 2) with 0 by (field; lra).
      rewrite exp_0. apply exp_le_1.
      assert (H : 0 <= x ^ 2 / 2 / s ^ 2).
      { apply Rle_mult_inv_pos; [|exact Hs2].
        apply Rle_mult_inv_pos; [apply pow2_ge_0 | lra]. }
      replace (- x ^ 2 / 2 / s ^ 2) with (- (x ^ 2 / 2 / s ^ 2))
        by (field; lra).
      lra.
  - eexists. split; [reflexivity|]. intros x.
    pose proof (pow2_ge_0 x) as Hx.
    assert (Hc : 0 < s / PI) by (apply Rdiv_lt_0_compat; lra).
    split; [|split].
    + apply Rdiv_lt_0_compat; [exact Hc | lra].
    + replace ((- x) ^ 2) with (x ^ 2) by ring. reflexivity.
    + unfold Rdiv at 1 3. apply Rmult_le_compat_l; [lra|].
      apply Rinv_le_contravar; [|lra].
      replace (0 ^ 2) with 0 by ring. lra.
Qed.

(** X1.  A kernel built with a positive width can be evaluated, and its
    density is positive at the offset 0, nowhere negative, even, and
    largest at the offset 0. *)
Theorem kernel_positive_even_peaked (k : smearing_function) (s : R) :
  width k = Some s -> 0 < s ->
  exists c,
    calc k = Some c
    /\ 0 < c 0
    /\ forall x, 0 <= c x /\ c (- x) = c x /\ c x <= c 0.
Proof.
  intros Hw Hs. destruct (kernel_density k s Hw Hs) as (c & Hc & H).
  exists c. split; [exact Hc|]. split; [apply (H 0)|].
  intros x. destruct (H x) as (Hpos & Heven & Hpeak).
  split; [apply Rlt_le; exact Hpos|]. split; [exact Heven | exact Hpeak].
Qed.

Lemma kernel_positive_even_peaked_witness :
  exists c,
    calc (NormalDistribution (Some 1)) = Some c
    /\ 0 < c 0
    /\ forall x, 0 <= c x /\ c (- x) = c x /\ c x <= c 0.
Proof.
  apply (kernel_positive_even_peaked (NormalDistribution (Some 1)) 1).
  - reflexivity.
  - lra.
Defined.

(** A kernel of positive width has a positive density. *)
Lemma kernel_positive (k : smearing_function) (s : R) :
  width k = Some s -> 0 < s ->
  exists c, calc k = Some c /\ forall x, 0 < c x.
Proof.
  intros Hw Hs. pose proof PI_RGT_0 as Hpi.
  destruct k as [sigma|gamma]; simpl in Hw; subst; eexists;
    (split; [reflexivity|]); intros x.
  - apply Rmult_lt_0_compat; [|apply exp_pos].
    assert (0 < sqrt (2 * PI)) by (apply sqrt_lt_R0; lra).
    apply Rdiv_lt_0_compat; [apply Rdiv_lt_0_compat; lra | exact Hs].
  - pose proof (pow2_ge_0 x).
    assert (0 < s ^ 2) by (apply pow_lt; exact Hs).
    apply Rdiv_lt_0_compat; [apply Rdiv_lt_0_compat; lra | lra].
Qed.

Lemma sum_n_nonneg (n : nat) (f : nat -> R) :
  (forall i, (i < n)%nat -> 0 <= f i) -> 0 <= Np.sum_n n f.
Proof.
  induction n as [|n IH]; intros H; simpl.
  - lra.
  - pose proof (IH (fun i Hi => H i (Nat.lt_lt_succ_r _ _ Hi))).
    pose proof (H n (Nat.lt_succ_diag_r n)). lra.
Qed.

Lemma nonneg_nth (a : list R) (i : nat) : nonneg a -> 0 <= nth i a 0.
Proof.
  intros H. destruct (Nat.lt_ge_cases i (length a)) as [Hi|Hi].
  - unfold nonneg in H. rewrite Forall_forall in H. apply H.
    apply nth_In. exact Hi.
  - rewrite nth_overflow by exact Hi. lra.
Qed.

Lemma smeared_sum_nonneg (w : list R) (F : list (list R)) (nb : nat)
    (c : R -> R) (f : R) :
  nonneg w -> (forall x, 0 < c x) -> 0 <= smeared_sum w F nb c f.
Proof.
  intros Hw Hc. unfold smeared_sum.
  apply sum_n_nonneg. intros g _. apply sum_n_nonneg. intros b _.
  apply Rmult_le_pos; [apply nonneg_nth; exact Hw | apply Rlt_le, Hc].
Qed.

Lemma nth_map_scale (k : R) (w : list R) (g : nat) :
  nth g (map (Rmult k) w) 0 = k * nth g w 0.
Proof.
  replace 0 with (k * 0) at 1 by ring. apply map_nth.
Qed.

Lemma sum_map_scale (k : R) (w : list R) :
  Np.sum (map (Rmult k) w) = k * Np.sum w.
Proof.
  induction w as [|x w IH]; simpl; [ring | rewrite IH; ring].
Qed.

Lemma sum_dot_scale (k : R) (w : list R) (m : list (list R)) :
  Np.sum (Np.dot (map (Rmult k) w) m) = k * Np.sum (Np.dot w m).
Proof.
  rewrite !sum_dot, <- sum_n_scal. apply sum_n_ext. intros g _.
  rewrite <- sum_n_scal. apply sum_n_ext. intros b _.
  rewrite nth_map_scale. ring.
Qed.

Section SmearedTotal.

Variable integration_weight :
  list Z -> list R -> list (list R) -> list (list Z) -> list Z ->
  list (list (list Z)) -> nat -> nat -> nat -> R.
Variable ir_weights : list Z -> list R.
Variable linalg_inv : list (list R) -> option (list (list R)).
Variable get_tetrahedra : list (list R) -> list Z -> list (list (list Z)).
Variable thm_iter : TetrahedronMesh -> list R -> list (list (list R)).

(** X2.  In smearing mode, with a kernel of positive width and weights
    that are not negative, [run] succeeds and no value of the DOS it
    stores is negative. *)
Theorem total_dos_smearing_nonneg
    (self : TotalDos.t) (points : list R) (k : smearing_function) (s : R)
    (nb : nat) :
  Dos._tetrahedron_mesh (TotalDos.base self) = None ->
  Dos._frequency_points (TotalDos.base self) = Some points ->
  Dos._smearing_function (TotalDos.base self) = Some k ->
  width k = Some s -> 0 < s ->
  mesh_shape (Dos._weights (TotalDos.base self))
    (Dos._frequencies (TotalDos.base self)) nb ->
  nonneg (Dos._weights (TotalDos.base self)) ->
  0 < Np.sum (Dos._weights (TotalDos.base self)) ->
  exists self' dos,
    TotalDos.run integration_weight ir_weights linalg_inv get_tetrahedra
      thm_iter self = Some self'
    /\ TotalDos._dos self' = Some dos
    /\ length dos = length points
    /\ nonneg dos.
Proof.
  intros Hthm Hpts Hk Hw Hs [_ Hrect] Hnn Hpos.
  destruct (kernel_positive k s Hw Hs) as (c & Hc & Hcpos).
  eexists. eexists. split.
  { apply (total_dos_run_smearing integration_weight ir_weights linalg_inv
             get_tetrahedra thm_iter self points k c nb); assumption. }
  split; [reflexivity|]. split.
  - apply length_map.
  - unfold nonneg. rewrite Forall_forall. intros y Hy.
    apply in_map_iff in Hy. destruct Hy as (f & <- & _).
    apply Rle_mult_inv_pos; [|exact Hpos].
    apply smeared_sum_nonneg; assumption.
Qed.

(** X3.  In smearing mode the DOS does not depend on the scale of the
    weights: with all the weights multiplied by a factor that is not zero
    (multiplicities instead of normalized weights, say) [run] stores the
    same DOS, provided the weights do not sum to zero. *)
Theorem total_dos_smearing_weight_scale
    (self : TotalDos.t) (factor : R) :
  Dos._tetrahedron_mesh (TotalDos.base self) = None ->
  factor <> 0 ->
  Np.sum (Dos._weights (TotalDos.base self)) <> 0 ->
  option_map TotalDos._dos
    (TotalDos.run integration_weight ir_weights linalg_inv get_tetrahedra
       thm_iter
       (with_weights self (map (Rmult factor) (Dos._weights (TotalDos.base self)))))
  = option_map TotalDos._dos
      (TotalDos.run integration_weight ir_weights linalg_inv get_tetrahedra
         thm_iter self).
Proof.
  intros Hthm Hk Hsum.
  destruct self as [[m F w thm pts sg kern] dos fd fc omp].
  cbn [TotalDos.base Dos._tetrahedron_mesh Dos._weights] in *. subst thm.
  unfold with_weights, TotalDos.run.
  cbn [TotalDos.base TotalDos._openmp_thm TotalDos._dos TotalDos._freq_Debye
       TotalDos._Debye_fit_coef Dos._tetrahedron_mesh Dos._frequency_points
       Dos._weights Dos._frequencies Dos._mesh_object Dos._smearing_function
       Dos._sigma].
  destruct pts as [points|]; [|reflexivity].
  assert (Heq : forall f,
            TotalDos._get_density_of_states_at_freq
              (TotalDos.mk (Dos.mk m F (map (Rmult factor) w) None
                              (Some points) sg kern) dos fd fc omp) f
            = TotalDos._get_density_of_states_at_freq
                (TotalDos.mk (Dos.mk m F w None (Some points) sg kern)
                   dos fd fc omp) f).
  { intros f. unfold TotalDos._get_density_of_states_at_freq.
    cbn [TotalDos.base Dos._weights Dos._frequencies Dos._smearing_function].
    destruct kern as [kern|]; [|reflexivity].
    destruct (calc kern) as [c|]; [|reflexivity].
    rewrite sum_dot_scale, sum_map_scale. f_equal. field. auto. }
  assert (Htr : forall l,
            traverse (TotalDos._get_density_of_states_at_freq
              (TotalDos.mk (Dos.mk m F (map (Rmult factor) w) None
                              (Some points) sg kern) dos fd fc omp)) l
            = traverse (TotalDos._get_density_of_states_at_freq
                (TotalDos.mk (Dos.mk m F w None (Some points) sg kern)
                   dos fd fc omp)) l).
  { induction l as [|f l IH]; simpl; [reflexivity|].
    rewrite Heq, IH. reflexivity. }
  rewrite Htr. destruct (traverse _ points); reflexivity.
Qed.

End SmearedTotal.

Lemma total_dos_smearing_nonneg_witness :
  exists self' dos,
    TotalDos.run no_weight no_ir_weights identity_inv no_tetrahedra no_thm_iter
      one_atom_total = Some self'
    /\ TotalDos._dos self' = Some dos
    /\ nonneg dos.
Proof.
  destruct (total_dos_smearing_nonneg no_weight no_ir_weights identity_inv
              no_tetrahedra no_thm_iter one_atom_total
              (even_grid (- 9) (11 / 100) 201) (NormalDistribution (Some 1))
              1 3 eq_refl eq_refl eq_refl eq_refl)
    as (self' & dos & H1 & H2 & _ & H4).
  - lra.
  - split; [reflexivity | repeat constructor].
  - repeat constructor. simpl. lra.
  - unfold Np.sum. simpl. lra.
  - exists self', dos. auto.
Defined.

Lemma total_dos_smearing_weight_scale_witness :
  option_map TotalDos._dos
    (TotalDos.run no_weight no_ir_weights identity_inv no_tetrahedra
       no_thm_iter
       (with_weights one_atom_total
          (map (Rmult 2) (Dos._weights (TotalDos.base one_atom_total)))))
  = option_map TotalDos._dos
      (TotalDos.run no_weight no_ir_weights identity_inv no_tetrahedra
         no_thm_iter one_atom_total).
Proof.
  apply (total_dos_smearing_weight_scale no_weight no_ir_weights identity_inv
           no_tetrahedra no_thm_iter one_atom_total 2 eq_refl).
  - lra.
  - unfold Np.sum. simpl. lra.
Defined.

(** ** Construction and the drawing area *)

Lemma ceil_bounds (x : R) : IZR (Np.ceil x) - 1 < x <= IZR (Np.ceil x).
Proof.
  unfold Np.ceil. destruct (base_Int_part (- x)) as [H1 H2].
  rewrite opp_IZR. split; lra.
Qed.

Lemma arange_value (start stop step : R) :
  step <> 0 ->
  Np.arange start stop step
  = Some (even_grid start step (Z.to_nat (Np.ceil ((stop - start) / step)))).
Proof.
  intros Hstep. unfold Np.arange.
  destruct (Req_dec_T step 0); [contradiction | reflexivity].
Qed.

Lemma INR_to_nat (z : Z) : (0 <= z)%Z -> INR (Z.to_nat z) = IZR z.
Proof. intros Hz. rewrite INR_IZR_INZ, Z2Nat.id by exact Hz. reflexivity. Qed.

(** The points of [np.arange] with a positive step lie in
    [[start, stop)], and the last one is within a step of [stop]. *)
Lemma arange_positive_step (start stop step : R) :
  0 < step -> start < stop ->
  exists n,
    Np.arange start stop step = Some (even_grid start step (S n))
    /\ (forall i, (i <= n)%nat ->
          start <= start + INR i * step < stop)
    /\ stop - step <= start + INR n * step.
Proof.
  intros Hstep Hlt.
  set (q := (stop - start) / step).
  assert (Hq : 0 < q) by (apply Rdiv_lt_0_compat; lra).
  destruct (ceil_bounds q) as [Hc1 Hc2].
  assert (Hpos : (0 < Np.ceil q)%Z) by (apply lt_IZR; lra).
  exists (Z.to_nat (Np.ceil q - 1)).
  assert (Hn : S (Z.to_nat (Np.ceil q - 1)) = Z.to_nat (Np.ceil q)) by lia.
  assert (HINR : INR (Z.to_nat (Np.ceil q - 1)) = IZR (Np.ceil q) - 1).
  { rewrite INR_to_nat by lia. rewrite minus_IZR. reflexivity. }
  assert (Hqs : q * step = stop - start) by (unfold q; field; lra).
  split; [rewrite Hn; apply arange_value; lra|]. split.
  - intros i Hi. apply le_INR in Hi. rewrite HINR in Hi.
    pose proof (pos_INR i). split; [nra|].
    assert (INR i * step < q * step) by (apply Rmult_lt_compat_r; lra).
    lra.
  - rewrite HINR.
    assert (q * step <= IZR (Np.ceil q) * step)
      by (apply Rmult_le_compat_r; lra).
    lra.
Qed.

(** X4.  [set_draw_area] with an explicit range and a positive pitch, on
    an engine whose frequency array is not empty: the grid starts at
    [freq_min], increases strictly by the pitch, stays below
    [freq_max + pitch / 10] and ends within one pitch of that bound; the
    width and kernel are those the engine had (the default width if none
    was set). *)
Theorem set_draw_area_explicit
    (self : Dos.t) (lo hi freq_min freq_max freq_pitch : R) :
  Np.min2 (Dos._frequencies self) = Some lo ->
  Np.max2 (Dos._frequencies self) = Some hi ->
  0 < freq_pitch -> freq_min <= freq_max ->
  exists self' n,
    Dos.set_draw_area self (Some freq_min) (Some freq_max) (Some freq_pitch)
    = Some self'
    /\ Dos._frequency_points self' = Some (even_grid freq_min freq_pitch (S n))
    /\ strictly_increasing (even_grid freq_min freq_pitch (S n))
    /\ (forall i, (i <= n)%nat ->
          freq_min <= nth i (even_grid freq_min freq_pitch (S n)) 0
          < freq_max + freq_pitch / 10)
    /\ freq_max - freq_pitch * (9 / 10)
       <= nth n (even_grid freq_min freq_pitch (S n)) 0
    /\ Dos._sigma self' = Some (chosen_sigma (Dos._sigma self) lo hi)
    /\ Dos._smearing_function self' = Dos._smearing_function self.
Proof.
  intros Hlo Hhi Hp Hle.
  destruct (arange_positive_step freq_min (freq_max + freq_pitch * (1 / 10))
              freq_pitch Hp ltac:(lra)) as (n & Har & Hin & Hlast).
  eexists. exists n. split.
  { unfold Dos.set_draw_area. rewrite Hlo, Hhi, Har. reflexivity. }
  cbn [Dos._frequency_points Dos._sigma Dos._smearing_function].
  split; [reflexivity|].
  split; [apply even_grid_increasing; exact Hp|].
  split; [|split; [|split; reflexivity]].
  - intros i Hi. rewrite even_grid_nth by lia.
    specialize (Hin i Hi). lra.
  - rewrite even_grid_nth by lia. lra.
Qed.

Lemma set_draw_area_explicit_witness :
  exists self' n,
    Dos.set_draw_area (under_construction two_band_mesh None) (Some 0)
      (Some 1) (Some (1 / 4)) = Some self'
    /\ Dos._frequency_points self' = Some (even_grid 0 (1 / 4) (S n))
    /\ strictly_increasing (even_grid 0 (1 / 4) (S n)).
Proof.
  destruct (set_draw_area_explicit (under_construction two_band_mesh None)
              0 1 0 1 (1 / 4) two_band_min two_band_max)
    as (self' & n & H1 & H2 & H3 & _).
  - lra.
  - lra.
  - exists self', n. auto.
Defined.

(** X5.  The tolerance of a tenth of the pitch makes the end point
    inclusive: when [freq_max] lies a whole number [m] of pitches above
    [freq_min], the grid has [m + 1] points and its last point is
    [freq_max]. *)
Theorem set_draw_area_inclusive_end
    (self : Dos.t) (lo hi freq_min freq_pitch : R) (m : nat) :
  Np.min2 (Dos._frequencies self) = Some lo ->
  Np.max2 (Dos._frequencies self) = Some hi ->
  0 < freq_pitch ->
  exists self' grid,
    Dos.set_draw_area self (Some freq_min)
      (Some (freq_min + INR m * freq_pitch)) (Some freq_pitch) = Some self'
    /\ Dos._frequency_points self' = Some grid
    /\ length grid = S m
    /\ nth 0 grid 0 = freq_min
    /\ nth m grid 0 = freq_min + INR m * freq_pitch.
Proof.
  intros Hlo Hhi Hp.
  assert (Hq : (freq_min + INR m * freq_pitch + freq_pitch * (1 / 10)
                - freq_min) / freq_pitch = INR m + 1 / 10)
    by (field; lra).
  assert (Hc : Np.ceil (INR m + 1 / 10) = Z.of_nat (S m)).
  { apply ceil_spec. rewrite <- INR_IZR_INZ, S_INR. lra. }
  eexists. exists (even_grid freq_min freq_pitch (S m)). split.
  { unfold Dos.set_draw_area. rewrite Hlo, Hhi.
    rewrite arange_value by lra. rewrite Hq, Hc, Nat2Z.id. reflexivity. }
  split; [reflexivity|]. split; [apply even_grid_length|].
  split; rewrite even_grid_nth by lia; [simpl INR; lra | reflexivity].
Qed.

Lemma set_draw_area_inclusive_end_witness :
  exists self' grid,
    Dos.set_draw_area (under_construction two_band_mesh None) (Some 0)
      (Some (0 + INR 4 * (1 / 4))) (Some (1 / 4)) = Some self'
    /\ Dos._frequency_points self' = Some grid
    /\ length grid = 5%nat.
Proof.
  destruct (set_draw_area_inclusive_end (under_construction two_band_mesh None)
              0 1 0 (1 / 4) 4 two_band_min two_band_max)
    as (self' & grid & H1 & H2 & H3 & _).
  - lra.
  - exists self', grid. auto.
Defined.

(** X6.  [set_draw_area()] is idempotent: called again on the engine a
    successful call has left, it succeeds and changes nothing, because the
    width it stored is the one it finds. *)
Theorem set_draw_area_idempotent (self self' : Dos.t) :
  Dos.set_draw_area self None None None = Some self' ->
  Dos.set_draw_area self' None None None = Some self'.
Proof.
  unfold Dos.set_draw_area.
  destruct (Np.min2 (Dos._frequencies self)) as [lo|] eqn:Hlo; [|discriminate].
  destruct (Np.max2 (Dos._frequencies self)) as [hi|] eqn:Hhi; [|discriminate].
  destruct (Np.arange _ _ _) as [points|] eqn:Har; [|discriminate].
  intros [= <-].
  cbn [Dos._frequencies Dos._sigma Dos._mesh_object Dos._weights
       Dos._tetrahedron_mesh Dos._smearing_function].
  rewrite Hlo, Hhi.
  destruct (Dos._sigma self) as [s|]; rewrite Har; reflexivity.
Qed.

Lemma set_draw_area_idempotent_witness :
  exists self',
    Dos.set_draw_area (under_construction two_band_mesh None) None None None
    = Some self'
    /\ Dos.set_draw_area self' None None None = Some self'.
Proof.
  assert (Hp : default_pitch
                 (Dos._sigma (under_construction two_band_mesh None)) 0 1
               <> 0).
  { unfold default_pitch, chosen_sigma, under_construction, Dos._sigma. lra. }
  pose proof (set_draw_area_default (under_construction two_band_mesh None)
                0 1 two_band_min two_band_max Hp) as H.
  eexists. split; [exact H|].
  exact (set_draw_area_idempotent _ _ H).
Defined.

(** X7.  Construction with no width given: it raises when the least and
    the greatest frequency are equal (the default width and pitch are then
    zero); otherwise it succeeds, with the positive width
    [(max - min)/100], a grid of 201 points and the normal kernel of that
    width. *)
Theorem Dos_init_default_width
    (mesh : mesh_object) (use_tetrahedron_method : bool) (lo hi : R) :
  Np.min2 (frequencies mesh) = Some lo ->
  Np.max2 (frequencies mesh) = Some hi ->
  (lo = hi -> Dos.__init__ mesh None use_tetrahedron_method = None)
  /\ (lo <> hi ->
      exists self grid,
        Dos.__init__ mesh None use_tetrahedron_method = Some self
        /\ Dos._sigma self = Some ((hi - lo) / 100)
        /\ 0 < (hi - lo) / 100
        /\ Dos._smearing_function self
           = Some (NormalDistribution (Some ((hi - lo) / 100)))
        /\ Dos._frequency_points self = Some grid
        /\ length grid = 201%nat).
Proof.
  intros Hlo Hhi. pose proof (min2_le_max2 _ lo hi Hlo Hhi) as Hle.
  split.
  - intros Heq. unfold Dos.__init__.
    match goal with
    | |- context [Dos.mk mesh _ _ ?thm None None None] =>
        rewrite (set_draw_area_zero_pitch
                   (Dos.mk mesh (frequencies mesh) (weights mesh) thm None
                      None None) lo hi Hlo Hhi)
    end.
    + reflexivity.
    + cbn [Dos._sigma]. unfold default_pitch, chosen_sigma. lra.
  - intros Hne.
    destruct (Dos_init_value mesh None use_tetrahedron_method lo hi Hlo Hhi)
      as [thm Hinit].
    { unfold default_pitch, chosen_sigma. lra. }
    eexists. eexists. split; [exact Hinit|].
    cbn [Dos._sigma Dos._smearing_function Dos._frequency_points].
    unfold chosen_sigma.
    split; [reflexivity|]. split; [lra|]. split; [reflexivity|].
    split; [reflexivity | apply even_grid_length].
Qed.

Lemma Dos_init_default_width_witness :
  exists self,
    Dos.__init__ two_band_mesh None false = Some self
    /\ Dos._sigma self = Some ((1 - 0) / 100).
Proof.
  destruct (Dos_init_default_width two_band_mesh false 0 1 two_band_min
              two_band_max) as [_ H].
  destruct H as (self & grid & H1 & H2 & _).
  - lra.
  - exists self. auto.
Defined.

(** X8.  For a grouping whose indices are all in range, [get_pdos]
    returns one sum per group, in order: the sum of a group holds, at
    every frequency index, the sum of the rows the group selects (a row
    selected twice counts twice); a group without indices gives the
    integer 0, not an array. *)
Theorem get_pdos_group_sums (ax : axes) (n : nat)
    (partial_dos : list (list R)) (indices : list (list Z)) :
  Np.rectangular n partial_dos ->
  Forall (Forall (in_range (length partial_dos))) indices ->
  exists pdos_list,
    get_pdos ax partial_dos (Some indices) = Ok pdos_list
    /\ length pdos_list = length indices
    /\ forall k, (k < length indices)%nat ->
         (forall i, (i < n)%nat ->
            value_at (nth k pdos_list Int0) i
            = Np.sum (map (row_entry partial_dos i) (nth k indices [])))
         /\ (nth k indices [] = [] -> nth k pdos_list Int0 = Int0)
         /\ (nth k indices [] <> [] ->
             exists a, nth k pdos_list Int0 = Arr a /\ length a = n).
Proof.
  intros Hrect Hall. unfold get_pdos.
  induction Hall as [|grp rest Hgrp Hall IH].
  - exists []. simpl. repeat split; auto; intros; lia.
  - destruct (sum_group_in_range n partial_dos grp Int0 Hrect Hgrp I)
      as (v & Hrun & Hshape & Hval & Hempty & Hfull).
    destruct IH as (l & Hl & Hlen & Hk).
    exists (v :: l). simpl. rewrite Hrun, Hl.
    split; [reflexivity|]. split; [simpl; congruence|].
    intros [|k] Hlt; simpl.
    + split; [|split].
      * intros i Hi. rewrite (Hval i Hi). simpl. unfold row_entry. lra.
      * exact Hempty.
      * intros Hne. destruct Hfull as [a ->]; [left; exact Hne|].
        exists a. split; [reflexivity | exact Hshape].
    + apply Hk. simpl in Hlt. lia.
Qed.

Lemma get_pdos_group_sums_witness :
  exists pdos_list,
    get_pdos [] [[1; 2]; [3; 4]] (Some [[1; 0]; []]%Z) = Ok pdos_list
    /\ length pdos_list = 2%nat.
Proof.
  destruct (get_pdos_group_sums [] 2 [[1; 2]; [3; 4]] [[1; 0]; []]%Z)
    as (l & H1 & H2 & _).
  - repeat constructor.
  - repeat constructor; unfold in_range; simpl; lia.
  - exists l. auto.
Defined.

(** X10.  A legend with fewer names than groups, on indices in range and
    rows that have as many entries as there are frequency points:
    [plot_partial_dos] draws the groups that have a name, then raises an
    [IndexError] at the first group without one; nothing is shaded and no
    legend or label is set. *)
Theorem plot_short_legend_raises
    (ax : axes) (points : list R) (partial_dos : list (list R))
    (total_dos_bool : bool) (indices : list (list Z)) (names : list string)
    (xlabel ylabel : option string) (draw_grid flip_xy : bool) :
  Np.rectangular (length points) partial_dos ->
  Forall (Forall (in_range (length partial_dos))) indices ->
  (length names < length indices)%nat ->
  exists drawn,
    plot_partial_dos ax points partial_dos total_dos_bool (Some indices)
      (Some names) xlabel ylabel draw_grid flip_xy
    = (ax ++ tick_calls ++ drawn, Raise IndexError)
    /\ drawn = group_curves flip_xy points partial_dos (Some names) 0
                 (firstn (length names) indices)
    /\ length drawn = length names
    /\ Forall is_plot drawn.
Proof.
  intros Hrect Hall Hlen.
  set (k := length names) in *.
  assert (Hk : length (firstn k indices) = k)
    by (rewrite length_firstn; lia).
  pose proof Hall as Hsplit. rewrite <- (firstn_skipn k indices) in Hsplit.
  apply Forall_app in Hsplit. destruct Hsplit as [Hnamed Hrest].
  destruct (skipn k indices) as [|grp rest] eqn:Eskip.
  { pose proof (length_skipn k indices) as Hs. rewrite Eskip in Hs.
    simpl in Hs. lia. }
  apply Forall_cons_iff in Hrest. destruct Hrest as [Hgrp _].
  exists (group_curves flip_xy points partial_dos (Some names) 0
            (firstn k indices)).
  split; [|split; [reflexivity|split]].
  - unfold plot_partial_dos. fold tick_calls.
    rewrite <- (firstn_skipn k indices) at 1. rewrite Eskip, plot_loop_app.
    destruct (plot_loop_in_range points partial_dos total_dos_bool
                (Some names) flip_xy (firstn k indices) Hrect Hnamed
                (ax ++ tick_calls) Int0 0) as (total & Hrun & Hts & _).
    { simpl. fold k. lia. }
    { exact I. }
    rewrite Hrun. cbn [plot_loop].
    rewrite (sum_group_zeros points partial_dos grp Hrect Hgrp).
    assert (Hstep : exists total1,
              (if total_dos_bool
               then add_value total
                      (Arr (group_sum (length points) partial_dos grp))
               else Ok total) = Ok total1).
    { destruct total_dos_bool; [|eauto].
      destruct (add_row_shape (length points) total
                  (group_sum (length points) partial_dos grp) Hts)
        as (t & Ht & _).
      { unfold group_sum. rewrite length_map, length_seq. reflexivity. }
      exists (Arr t). exact Ht. }
    destruct Hstep as [total1 Hstep]. rewrite Hstep.
    assert (Hnone : nth_error names (0 + length (firstn k indices)) = None).
    { apply nth_error_None. rewrite Hk. fold k. lia. }
    rewrite Hnone, <- app_assoc. reflexivity.
  - rewrite group_curves_length. exact Hk.
  - apply group_curves_plots.
Qed.

Lemma plot_short_legend_raises_witness :
  exists drawn,
    plot_partial_dos [] [0; 1] [[1; 2]; [3; 4]] true (Some [[0]; [1]]%Z)
      (Some ["a"%string]) None None true false
    = (tick_calls ++ drawn, Raise IndexError)
    /\ length drawn = 1%nat.
Proof.
  destruct (plot_short_legend_raises [] [0; 1] [[1; 2]; [3; 4]] true
              [[0]; [1]]%Z ["a"%string] None None true false)
    as (drawn & H1 & _ & H2 & _).
  - repeat constructor.
  - repeat constructor; unfold in_range; simpl; lia.
  - simpl. lia.
  - exists drawn. auto.
Defined.

(** X11.  [plot_partial_dos] with the total switched on, on a grouping in
    range (and a legend, if any, that names every group): it succeeds; after
    the ticks it draws one curve per group, then shades the total, which
    holds at every frequency index the sum of all the rows the groups
    select, and it ends with the two zero lines and the grid. *)
Theorem plot_partial_dos_total
    (ax : axes) (points : list R) (partial_dos : list (list R))
    (indices : list (list Z)) (legend : option (list string))
    (xlabel ylabel : option string) (draw_grid flip_xy : bool) :
  Np.rectangular (length points) partial_dos ->
  Forall (Forall (in_range (length partial_dos))) indices ->
  legend_covers legend (length indices) ->
  exists drawn total labels,
    plot_partial_dos ax points partial_dos true (Some indices) legend xlabel
      ylabel draw_grid flip_xy
    = (ax ++ tick_calls ++ drawn ++ [fill_call flip_xy total points]
          ++ labels ++ [ax_axvline; ax_axhline; ax_grid draw_grid],
       Ok tt)
    /\ length drawn = length indices
    /\ Forall is_plot drawn
    /\ forall i, (i < length points)%nat ->
         value_at total i
         = Np.sum (map (row_entry partial_dos i) (concat indices)).
Proof.
  intros Hrect Hall Hleg. unfold plot_partial_dos. fold tick_calls.
  destruct (plot_loop_in_range points partial_dos true legend flip_xy indices
              Hrect Hall (ax ++ tick_calls) Int0 0 Hleg I)
    as (total & Hrun & _ & _ & Htv).
  rewrite Hrun.
  exists (group_curves flip_xy points partial_dos legend 0 indices), total.
  exists ((match legend with Some _ => [ax_legend] | None => [] end)
          ++ (match truthy xlabel with Some s => [ax_set_xlabel s] | None => [] end)
          ++ (match truthy ylabel with Some s => [ax_set_ylabel s] | None => [] end)).
  split.
  - unfold fill_call.
    destruct flip_xy, legend, (truthy xlabel), (truthy ylabel);
      cbn [app]; rewrite <- ?app_assoc; cbn [app]; reflexivity.
  - split; [apply group_curves_length|]. split; [apply group_curves_plots|].
    intros i Hi. rewrite (Htv eq_refl i Hi). unfold row_entry. simpl. lra.
Qed.

Lemma plot_partial_dos_total_witness :
  exists drawn total labels,
    plot_partial_dos [] [0; 1] [[1; 2]; [3; 4]] true (Some [[1]; [0]]%Z) None
      None None true false
    = (tick_calls ++ drawn ++ [fill_call false total [0; 1]]
          ++ labels ++ [ax_axvline; ax_axhline; ax_grid true],
       Ok tt)
    /\ length drawn = 2%nat.
Proof.
  destruct (plot_partial_dos_total [] [0; 1] [[1; 2]; [3; 4]] [[1]; [0]]%Z
              None None None true false)
    as (drawn & total & labels & H1 & H2 & _).
  - repeat constructor.
  - repeat constructor; unfold in_range; simpl; lia.
  - exact I.
  - exists drawn, total, labels. auto.
Defined.

(** ** The groups of equivalent atoms *)

Lemma filter_or_disjoint {A} (p q : A -> bool) (S : list A) :
  (forall x, In x S -> p x = true -> q x = false) ->
  Permutation (filter (fun x => p x || q x) S) (filter p S ++ filter q S).
Proof.
  induction S as [|a S IH]; intros H; simpl.
  - constructor.
  - assert (IH' := IH (fun x Hx => H x (or_intror Hx))).
    destruct (p a) eqn:Ep; simpl.
    + rewrite (H a (or_introl eq_refl) Ep). constructor. exact IH'.
    + destruct (q a); [|exact IH'].
      apply Permutation_cons_app. exact IH'.
Qed.

Lemma filter_all {A} (p : A -> bool) (S : list A) :
  (forall x, In x S -> p x = true) -> filter p S = S.
Proof.
  induction S as [|a S IH]; intros H; simpl; [reflexivity|].
  rewrite (H a (or_introl eq_refl)), IH; [reflexivity|].
  intros x Hx. apply H. right. exact Hx.
Qed.

Lemma filter_none {A} (S : list A) : filter (fun _ => false) S = [].
Proof. induction S; simpl; auto. Qed.

(** Grouping positions by distinct values splits the positions whose
    value is listed. *)
Lemma groups_by_value (m : nat -> Z) (values : list Z) (S : list nat) :
  NoDup values ->
  Permutation
    (concat (map (fun i => filter (fun k => (m k =? i)%Z) S) values))
    (filter (fun k => existsb (Z.eqb (m k)) values) S).
Proof.
  induction 1 as [|i values Hi Hnd IH]; simpl.
  - rewrite filter_none. constructor.
  - eapply Permutation_trans; [apply Permutation_app_head; exact IH|].
    apply Permutation_sym.
    apply (filter_or_disjoint (fun k => (m k =? i)%Z)
             (fun k => existsb (Z.eqb (m k)) values)).
    intros k _ Hk. apply Z.eqb_eq in Hk.
    destruct (existsb (Z.eqb (m k)) values) eqn:E; [|reflexivity].
    exfalso. apply Hi. apply existsb_exists in E.
    destruct E as (j & Hj & Hjk). apply Z.eqb_eq in Hjk. congruence.
Qed.

(** X12.  When the independent atoms are distinct and every atom is
    mapped to one of them, the groups of [get_pdos_indices] hold every
    atom exactly once; passed to [get_pdos] on a partial DOS with one row
    per atom they raise no error, give one sum per independent atom, and
    these sums add up to the sum of all the rows. *)
Theorem get_pdos_indices_partition (s : symmetry) :
  NoDup (get_independent_atoms s) ->
  (forall k, (k < length (get_map_atoms s))%nat ->
     In (nth k (get_map_atoms s) 0%Z) (get_independent_atoms s)) ->
  Permutation (concat (get_pdos_indices s))
    (map Z.of_nat (seq 0 (length (get_map_atoms s))))
  /\ forall ax n partial_dos,
       length partial_dos = length (get_map_atoms s) ->
       Np.rectangular n partial_dos ->
       exists pdos_list,
         get_pdos ax partial_dos (Some (get_pdos_indices s)) = Ok pdos_list
         /\ length pdos_list = length (get_independent_atoms s)
         /\ forall i, (i < n)%nat ->
              Np.sum (map (fun v => value_at v i) pdos_list)
              = Np.sum_n (length partial_dos)
                  (fun j => nth i (nth j partial_dos []) 0).
Proof.
  intros Hnd Hmap.
  set (m := get_map_atoms s) in *. set (ind := get_independent_atoms s) in *.
  assert (Hperm : Permutation (concat (get_pdos_indices s))
                    (map Z.of_nat (seq 0 (length m)))).
  { unfold get_pdos_indices, where_eq. fold m ind.
    rewrite <- (map_map (fun i => filter (fun k => (nth k m 0 =? i)%Z)
                                    (seq 0 (length m)))
                  (map Z.of_nat) ind).
    rewrite <- concat_map. apply Permutation_map.
    eapply Permutation_trans;
      [apply (groups_by_value (fun k => nth k m 0%Z) ind _ Hnd)|].
    rewrite filter_all; [apply Permutation_refl|].
    intros k Hk. apply in_seq in Hk. apply existsb_exists.
    exists (nth k m 0%Z). split; [apply Hmap; lia | apply Z.eqb_refl]. }
  split; [exact Hperm|].
  intros ax n partial_dos Hlen Hrect.
  assert (Hall : Forall (Forall (in_range (length partial_dos)))
                   (get_pdos_indices s)).
  { apply Forall_concat. rewrite Forall_forall. intros x Hx.
    apply (Permutation_in _ Hperm) in Hx.
    apply in_map_iff in Hx. destruct Hx as (j & <- & Hj).
    apply in_seq in Hj. unfold in_range. lia. }
  destruct (get_pdos_loop_in_range n partial_dos _ Hrect Hall)
    as (l & Hrun & Hl & Hval).
  exists l. split; [exact Hrun|]. split.
  { rewrite Hl. unfold get_pdos_indices. apply length_map. }
  intros i Hi. rewrite (Hval i Hi).
  rewrite (sum_map_permutation _ _ _ Hperm), map_map, Hlen.
  rewrite <- sum_map_seq. f_equal. apply map_ext.
  intros j. rewrite Nat2Z.id. reflexivity.
Qed.

Lemma get_pdos_indices_partition_witness :
  Permutation (concat (get_pdos_indices two_site_symmetry))
    (map Z.of_nat (seq 0 3)).
Proof.
  destruct (get_pdos_indices_partition two_site_symmetry) as [H _].
  - repeat constructor; simpl; intuition discriminate.
  - intros k Hk. destruct k as [|[|[|k]]]; simpl in *; auto; lia.
  - exact H.
Defined.

(** ** The streaming tetrahedron path *)

Lemma sum_n_shift (n : nat) (f : nat -> R) :
  Np.sum_n (S n) f = f 0%nat + Np.sum_n n (fun k => f (S k)).
Proof.
  induction n as [|n IH].
  - simpl. lra.
  - change (Np.sum_n (S (S n)) f) with (Np.sum_n (S n) f + f (S n)).
    rewrite IH. simpl. lra.
Qed.

Lemma nth_mul_scalar (iw : list (list R)) (w : R) (f b : nat) :
  nth b (nth f (Np.mul_scalar iw w) []) 0 = nth b (nth f iw []) 0 * w.
Proof.
  unfold Np.mul_scalar.
  change (@nil R) with (map (fun x => x * w) []) at 1.
  rewrite (map_nth (map (fun x => x * w)) iw [] f).
  replace 0 with (0 * w) at 1 by ring.
  apply (map_nth (fun x => x * w)).
Qed.

Lemma Np_mul_scalar_length (iw : list (list R)) (w : R) :
  length (Np.mul_scalar iw w) = length iw.
Proof. unfold Np.mul_scalar. apply length_map. Qed.

Lemma iw_shape_nth (iws : list (list (list R))) (ng nf nb g : nat) :
  iw_shape iws ng nf nb -> (g < ng)%nat ->
  length (nth g iws []) = nf /\ Np.rectangular nb (nth g iws []).
Proof.
  intros [Hlen Hall] Hg. rewrite Forall_forall in Hall.
  apply Hall. apply nth_In. lia.
Qed.

(** The loop of [_run_tetrahedron_method]: every matrix yielded adds its
    contraction with the coefficients of its grid point. *)
Lemma partial_accumulate_value (weights : list R)
    (e2 : list (list (list R))) (nch nf nb : nat)
    (iws : list (list (list R))) :
  forall (i : nat) (pdos : list (list R)),
  (i + length iws <= length weights)%nat ->
  (i + length iws <= length e2)%nat ->
  Forall (fun at_g => length at_g = nch) e2 ->
  Forall (fun iw => length iw = nf) iws ->
  length pdos = nch -> Np.rectangular nf pdos ->
  exists pdos',
    PartialDos.accumulate weights e2 nb i iws pdos = Some pdos'
    /\ length pdos' = nch /\ Np.rectangular nf pdos'
    /\ forall j f, (j < nch)%nat -> (f < nf)%nat ->
         nth f (nth j pdos' []) 0
         = nth f (nth j pdos []) 0
           + Np.sum_n (length iws) (fun k =>
               nth (i + k) weights 0
               * Np.sum_n nb (fun b =>
                   nth b (nth f (nth k iws []) []) 0
                   * nth b (nth j (nth (i + k) e2 []) []) 0)).
Proof.
  induction iws as [|iw rest IH]; intros i pdos Hw He He2 Hiw Hlen Hrect.
  - exists pdos. simpl. repeat split; auto. intros; lra.
  - simpl in Hw, He.
    apply Forall_cons_iff in Hiw. destruct Hiw as [Hiw0 Hiwr].
    cbn [PartialDos.accumulate]. cbn [length].
    assert (Hnf : length iw = nf) by exact Hiw0.
    clear Hiw0. subst nf.
    rewrite (nth_error_nth' weights 0) by lia.
    rewrite (nth_error_nth' e2 []) by lia.
    set (w := nth i weights 0). set (e2i := nth i e2 []).
    assert (He2i : length e2i = length pdos).
    { rewrite Forall_forall in He2. rewrite Hlen. apply He2.
      apply nth_In. lia. }
    rewrite Np_mul_scalar_length.
    set (increment :=
      map (fun j => map (fun f =>
             Np.sum_n nb (fun b =>
               nth b (nth f (Np.mul_scalar iw w) []) 0
               * nth b (nth j e2i []) 0))
             (seq 0 (length iw))) (seq 0 (length e2i))).
    set (pdos1 := Np.zip_with (Np.zip_with Rplus) pdos increment).
    assert (Hinc_len : length increment = length pdos)
      by (unfold increment; rewrite length_map, length_seq; exact He2i).
    assert (Hrow : forall j, (j < length pdos)%nat ->
              nth j pdos1 []
              = Np.zip_with Rplus (nth j pdos [])
                  (map (fun f =>
                     Np.sum_n nb (fun b =>
                       nth b (nth f (Np.mul_scalar iw w) []) 0
                       * nth b (nth j e2i []) 0))
                     (seq 0 (length iw)))).
    { intros j Hj. unfold pdos1.
      rewrite (nth_zip_with _ pdos increment j [] [] []) by lia.
      unfold increment. rewrite nth_map_seq by lia. reflexivity. }
    assert (Hlen1 : length pdos1 = length pdos).
    { unfold pdos1. rewrite length_zip_with, Hinc_len. apply Nat.min_id. }
    assert (Hrect1 : Np.rectangular (length iw) pdos1).
    { unfold Np.rectangular. apply Forall_nth. intros j d Hj.
      rewrite Hlen1 in Hj.
      rewrite (nth_indep _ d []) by (rewrite Hlen1; exact Hj).
      rewrite (Hrow j Hj), length_zip_with, length_map, length_seq.
      rewrite (rectangular_nth _ pdos j Hrect Hj). apply Nat.min_id. }
    destruct (IH (S i) pdos1) as (pdos' & Hrun & Hl' & Hr' & Hval);
      try assumption; try lia.
    exists pdos'. split; [exact Hrun|]. split; [exact Hl'|].
    split; [exact Hr'|].
    intros j f Hj Hf. rewrite (Hval j f Hj Hf).
    rewrite (Hrow j) by lia.
    rewrite (nth_zip_with Rplus _ _ f 0 0 0)
      by (rewrite ?length_map, ?length_seq,
            ?(rectangular_nth _ pdos j Hrect); lia).
    rewrite nth_map_seq by lia.
    rewrite sum_n_shift. rewrite Nat.add_0_r. fold w e2i.
    cbn [nth].
    rewrite (sum_n_ext (length rest)
               (fun k => nth (S i + k) weights 0
                         * Np.sum_n nb (fun b =>
                             nth b (nth f (nth k rest []) []) 0
                             * nth b (nth j (nth (S i + k) e2 []) []) 0))
               (fun k => nth (i + S k) weights 0
                         * Np.sum_n nb (fun b =>
                             nth b (nth f (nth k rest []) []) 0
                             * nth b (nth j (nth (i + S k) e2 []) []) 0)))
      by (intros k _; rewrite Nat.add_succ_r; reflexivity).
    rewrite (sum_n_ext nb _
               (fun b => w * (nth b (nth f iw []) 0 * nth b (nth j e2i []) 0)))
      by (intros b _; rewrite nth_mul_scalar; ring).
    rewrite sum_n_scal. lra.
Qed.

Lemma sum_map_mul_r (w : R) (l : list R) :
  Np.sum (map (fun x => x * w) l) = w * Np.sum l.
Proof.
  induction l as [|x l IH]; simpl; [ring | rewrite IH; ring].
Qed.

(** The loop of the streaming branch of [TotalDos.run]. *)
Lemma total_accumulate_value (weights : list R) (nf : nat)
    (iws : list (list (list R))) :
  forall (i : nat) (dos : list R),
  (i + length iws <= length weights)%nat ->
  Forall (fun iw => length iw = nf) iws ->
  length dos = nf ->
  exists dos',
    TotalDos.accumulate weights i iws dos = Some dos'
    /\ length dos' = nf
    /\ forall f, (f < nf)%nat ->
         nth f dos' 0
         = nth f dos 0
           + Np.sum_n (length iws) (fun k =>
               nth (i + k) weights 0 * Np.sum (nth f (nth k iws []) [])).
Proof.
  induction iws as [|iw rest IH]; intros i dos Hw Hiw Hlen.
  - exists dos. simpl. repeat split; auto. intros; lra.
  - simpl in Hw. apply Forall_cons_iff in Hiw. destruct Hiw as [Hiw0 Hiwr].
    cbn [TotalDos.accumulate]. cbn [length].
    rewrite (nth_error_nth' weights 0) by lia.
    set (w := nth i weights 0).
    set (dos1 := Np.zip_with Rplus dos (map Np.sum (Np.mul_scalar iw w))).
    assert (Hl1 : length dos1 = nf).
    { unfold dos1. rewrite length_zip_with, length_map, Np_mul_scalar_length.
      rewrite Hlen, Hiw0. apply Nat.min_id. }
    destruct (IH (S i) dos1) as (dos' & Hrun & Hl' & Hval);
      try assumption; try lia.
    exists dos'. split; [exact Hrun|]. split; [exact Hl'|].
    intros f Hf. rewrite (Hval f Hf). unfold dos1.
    rewrite (nth_zip_with Rplus _ _ f 0 0 0)
      by (rewrite ?length_map, ?Np_mul_scalar_length; lia).
    rewrite (nth_map_lt Np.sum _ f 0 [])
      by (rewrite Np_mul_scalar_length; lia).
    unfold Np.mul_scalar.
    rewrite (nth_map_lt (map (fun x => x * w)) iw f [] []) by lia.
    rewrite sum_map_mul_r, sum_n_shift, Nat.add_0_r. fold w. cbn [nth].
    rewrite (sum_n_ext (length rest)
               (fun k => nth (S i + k) weights 0
                         * Np.sum (nth f (nth k rest []) []))
               (fun k => nth (i + S k) weights 0
                         * Np.sum (nth f (nth k rest []) [])))
      by (intros k _; rewrite Nat.add_succ_r; reflexivity).
    lra.
Qed.

Lemma zeros_nth (nch : nat) (points : list R) (j f : nat) :
  nth f (nth j (map (fun _ : nat => map (fun _ : R => 0) points) (seq 0 nch))
           []) 0 = 0.
Proof.
  destruct (Nat.lt_ge_cases j nch) as [Hj|Hj].
  - rewrite nth_map_seq by exact Hj.
    destruct (Nat.lt_ge_cases f (length points)) as [Hf|Hf].
    + apply (nth_map_lt (fun _ : R => 0) points f 0 0). exact Hf.
    + apply nth_overflow. rewrite length_map. exact Hf.
  - rewrite (nth_overflow _ [])
      by (rewrite length_map, length_seq; exact Hj).
    destruct f; reflexivity.
Qed.

Section Streaming.

Variable integration_weight :
  list Z -> list R -> list (list R) -> list (list Z) -> list Z ->
  list (list (list Z)) -> nat -> nat -> nat -> R.
Variable ir_weights : list Z -> list R.
Variable linalg_inv : list (list R) -> option (list (list R)).
Variable get_tetrahedra : list (list R) -> list Z -> list (list (list Z)).
Variable thm_iter : TetrahedronMesh -> list R -> list (list (list R)).

(** The state the streaming tetrahedron path of the partial DOS leaves. *)
Lemma partial_dos_run_tetrahedron
    (p : PartialDos.t) (thm : TetrahedronMesh) (points : list R) (nb : nat) :
  Dos._tetrahedron_mesh (PartialDos.base p) = Some thm ->
  Dos._frequency_points (PartialDos.base p) = Some points ->
  Np.ncols (Dos._frequencies (PartialDos.base p)) = nb ->
  iw_shape (thm_iter thm points) (length (Dos._weights (PartialDos.base p)))
    (length points) nb ->
  eigvecs2_shape (PartialDos._eigvecs2 p)
    (length (Dos._weights (PartialDos.base p)))
    (Np.ncols (PartialDos._eigvecs2 p)) nb ->
  exists pdos,
    PartialDos.run thm_iter p
    = Some (PartialDos.mk (PartialDos.base p) (PartialDos._eigenvectors p)
              (Some pdos) (PartialDos._eigvecs2 p) (PartialDos._openmp_thm p))
    /\ length pdos = Np.ncols (PartialDos._eigvecs2 p)
    /\ Np.rectangular (length points) pdos
    /\ forall j f,
         (j < Np.ncols (PartialDos._eigvecs2 p))%nat ->
         (f < length points)%nat ->
         nth f (nth j pdos []) 0
         = streamed_sum (Dos._weights (PartialDos.base p))
             (thm_iter thm points) (PartialDos._eigvecs2 p) nb j f.
Proof.
  intros Hthm Hpts Hnb [Hil Hiall] [Hel Heall].
  unfold PartialDos.run, PartialDos._run_tetrahedron_method.
  rewrite Hthm, Hpts, Hnb.
  destruct (partial_accumulate_value (Dos._weights (PartialDos.base p))
              (PartialDos._eigvecs2 p) (Np.ncols (PartialDos._eigvecs2 p))
              (length points) nb (thm_iter thm points) 0
              (map (fun _ => map (fun _ => 0) points)
                 (seq 0 (Np.ncols (PartialDos._eigvecs2 p)))))
    as (pdos & Hrun & Hl & Hr & Hval).
  - simpl. lia.
  - simpl. lia.
  - eapply Forall_impl; [|exact Heall]. intros a [Ha _]. exact Ha.
  - eapply Forall_impl; [|exact Hiall]. intros a [Ha _]. exact Ha.
  - rewrite length_map, length_seq. reflexivity.
  - unfold Np.rectangular. rewrite Forall_forall. intros r Hr.
    apply in_map_iff in Hr. destruct Hr as (j & <- & _). apply length_map.
  - exists pdos. rewrite Hrun. split; [reflexivity|].
    split; [exact Hl|]. split; [exact Hr|].
    intros j f Hj Hf. rewrite (Hval j f Hj Hf), zeros_nth.
    unfold streamed_sum. simpl. lra.
Qed.

(** X13.  The partial DOS in tetrahedron mode: from the integration
    weights the tetrahedron mesh yields, one matrix of frequency points by
    bands per grid point, [run] stores for every channel [j] and frequency
    index [f] the sum over the grid points [g] and the bands [b] of
    [weight[g] * iw[g][f][b] * eigvecs2[g][j][b]], with no division by any
    total. *)
Theorem partial_dos_tetrahedron_value
    (p : PartialDos.t) (thm : TetrahedronMesh) (points : list R) (nb : nat) :
  Dos._tetrahedron_mesh (PartialDos.base p) = Some thm ->
  Dos._frequency_points (PartialDos.base p) = Some points ->
  Np.ncols (Dos._frequencies (PartialDos.base p)) = nb ->
  iw_shape (thm_iter thm points) (length (Dos._weights (PartialDos.base p)))
    (length points) nb ->
  eigvecs2_shape (PartialDos._eigvecs2 p)
    (length (Dos._weights (PartialDos.base p)))
    (Np.ncols (PartialDos._eigvecs2 p)) nb ->
  exists p' pdos,
    PartialDos.run thm_iter p = Some p'
    /\ PartialDos._partial_dos p' = Some pdos
    /\ length pdos = Np.ncols (PartialDos._eigvecs2 p)
    /\ Np.rectangular (length points) pdos
    /\ forall j f,
         (j < Np.ncols (PartialDos._eigvecs2 p))%nat ->
         (f < length points)%nat ->
         nth f (nth j pdos []) 0
         = streamed_sum (Dos._weights (PartialDos.base p))
             (thm_iter thm points) (PartialDos._eigvecs2 p) nb j f.
Proof.
  intros Hthm Hpts Hnb Hiw He2.
  destruct (partial_dos_run_tetrahedron p thm points nb Hthm Hpts Hnb Hiw He2)
    as (pdos & Hrun & H).
  eexists. exists pdos. split; [exact Hrun|]. split; [reflexivity | exact H].
Qed.

(** X14.  In tetrahedron mode too the channels add up: with coefficients
    that sum to one over the channels, the rows of the partial DOS summed
    over all the channels give, at every frequency index, the DOS that the
    streaming branch of [TotalDos.run] forms from the same integration
    weights. *)
Theorem partial_dos_tetrahedron_sums_to_total
    (p : PartialDos.t) (t : TotalDos.t) (thm : TetrahedronMesh)
    (points : list R) (nb : nat) :
  PartialDos.base p = TotalDos.base t ->
  TotalDos._openmp_thm t = false ->
  Dos._tetrahedron_mesh (TotalDos.base t) = Some thm ->
  Dos._frequency_points (TotalDos.base t) = Some points ->
  Np.ncols (Dos._frequencies (TotalDos.base t)) = nb ->
  iw_shape (thm_iter thm points) (length (Dos._weights (TotalDos.base t)))
    (length points) nb ->
  eigvecs2_shape (PartialDos._eigvecs2 p)
    (length (Dos._weights (TotalDos.base t)))
    (Np.ncols (PartialDos._eigvecs2 p)) nb ->
  normalized (PartialDos._eigvecs2 p) (Np.ncols (PartialDos._eigvecs2 p)) nb ->
  exists p' t' pdos dos,
    PartialDos.run thm_iter p = Some p'
    /\ TotalDos.run integration_weight ir_weights linalg_inv get_tetrahedra
         thm_iter t = Some t'
    /\ PartialDos._partial_dos p' = Some pdos
    /\ TotalDos._dos t' = Some dos
    /\ length dos = length points
    /\ forall f, (f < length points)%nat ->
         Np.sum_n (length pdos) (fun j => nth f (nth j pdos []) 0)
         = nth f dos 0.
Proof.
  intros Hbase Homp Hthm Hpts Hnb Hiw He2 Hnorm.
  destruct (partial_dos_run_tetrahedron p thm points nb)
    as (pdos & Hprun & Hpl & _ & Hpval); rewrite ?Hbase; try assumption.
  destruct (total_accumulate_value (Dos._weights (TotalDos.base t))
              (length points) (thm_iter thm points) 0
              (map (fun _ => 0) points))
    as (dos & Htrun & Htl & Htval).
  { destruct Hiw as [Hl _]. simpl. lia. }
  { destruct Hiw as [_ Hall]. eapply Forall_impl; [|exact Hall].
    intros a [Ha _]. exact Ha. }
  { apply length_map. }
  eexists. eexists. exists pdos, dos.
  split; [exact Hprun|]. split.
  { unfold TotalDos.run. rewrite Hthm, Homp, Hpts, Htrun. reflexivity. }
  split; [reflexivity|]. split; [reflexivity|]. split; [exact Htl|].
  intros f Hf. rewrite Hpl.
  rewrite (sum_n_ext _ _ (fun j =>
             streamed_sum (Dos._weights (TotalDos.base t))
               (thm_iter thm points) (PartialDos._eigvecs2 p) nb j f))
    by (intros j Hj; rewrite <- Hbase; apply Hpval; assumption).
  rewrite (Htval f Hf).
  rewrite (nth_map_lt (fun _ : R => 0) points f 0 0) by exact Hf.
  unfold streamed_sum.
  rewrite (sum_n_exchange (Np.ncols (PartialDos._eigvecs2 p))
             (length (thm_iter thm points))).
  rewrite Rplus_0_l. apply sum_n_ext. intros g Hg. simpl.
  rewrite sum_n_scal. f_equal.
  rewrite (sum_n_exchange (Np.ncols (PartialDos._eigvecs2 p)) nb).
  destruct Hiw as [Hil Hiall].
  destruct (iw_shape_nth _ _ _ _ g (conj Hil Hiall) ltac:(lia)) as [Hf' Hrect].
  rewrite sum_as_sum_n, (rectangular_nth nb _ f Hrect) by lia.
  apply sum_n_ext. intros b Hb.
  rewrite sum_n_scal, Hnorm; [ring | | exact Hb].
  destruct He2 as [Hel _]. lia.
Qed.

End Streaming.

Lemma partial_dos_tetrahedron_value_witness :
  exists p' pdos,
    PartialDos.run unit_thm_iter one_atom_partial_streaming = Some p'
    /\ PartialDos._partial_dos p' = Some pdos
    /\ length pdos = 1%nat.
Proof.
  destruct (partial_dos_tetrahedron_value unit_thm_iter
              one_atom_partial_streaming one_atom_thm [1; 2; 3] 3
              eq_refl eq_refl eq_refl)
    as (p' & pdos & H1 & H2 & H3 & _).
  - split; [reflexivity | repeat constructor].
  - split; [reflexivity | repeat constructor].
  - exists p', pdos. auto.
Defined.

Lemma partial_dos_tetrahedron_sums_to_total_witness :
  exists p' t' pdos dos,
    PartialDos.run unit_thm_iter one_atom_partial_streaming = Some p'
    /\ TotalDos.run no_weight no_ir_weights identity_inv no_tetrahedra
         unit_thm_iter one_atom_streaming = Some t'
    /\ PartialDos._partial_dos p' = Some pdos
    /\ TotalDos._dos t' = Some dos
    /\ forall f, (f < 3)%nat ->
         Np.sum_n (length pdos) (fun j => nth f (nth j pdos []) 0)
         = nth f dos 0.
Proof.
  destruct (partial_dos_tetrahedron_sums_to_total no_weight no_ir_weights
              identity_inv no_tetrahedra unit_thm_iter
              one_atom_partial_streaming one_atom_streaming one_atom_thm
              [1; 2; 3] 3 eq_refl eq_refl eq_refl eq_refl eq_refl)
    as (p' & t' & pdos & dos & H1 & H2 & H3 & H4 & _ & H6).
  - split; [reflexivity | repeat constructor].
  - split; [reflexivity | repeat constructor].
  - exact one_atom_normalized.
  - exists p', t', pdos, dos. auto.
Defined.

(** ** The projection coefficients of the partial DOS *)

Lemma abs2_value (z : complex) : abs2 z = re z ^ 2 + im z ^ 2.
Proof.
  unfold abs2. apply pow2_sqrt.
  pose proof (pow2_ge_0 (re z)). pose proof (pow2_ge_0 (im z)). lra.
Qed.

Lemma shape3_intro {A} (a : list (list (list A))) (ng nch nb : nat) :
  length a = ng ->
  (forall g, (g < ng)%nat ->
     length (nth g a []) = nch
     /\ forall j, (j < nch)%nat -> length (nth j (nth g a []) []) = nb) ->
  shape3 a ng nch nb.
Proof.
  intros Hl H. split; [exact Hl|].
  apply Forall_nth. intros g d Hg. rewrite (nth_indep _ d []) by exact Hg.
  destruct (H g ltac:(lia)) as [H1 H2]. split; [exact H1|].
  unfold Np.rectangular. apply Forall_nth. intros j d' Hj.
  rewrite (nth_indep _ d' []) by exact Hj. apply H2. lia.
Qed.

Lemma shape3_elim {A} (a : list (list (list A))) (ng nch nb g : nat) :
  shape3 a ng nch nb -> (g < ng)%nat ->
  length (nth g a []) = nch
  /\ forall j, (j < nch)%nat -> length (nth j (nth g a []) []) = nb.
Proof.
  intros [Hl Hall] Hg. rewrite Forall_forall in Hall.
  destruct (Hall (nth g a [])) as [H1 H2]; [apply nth_In; lia|].
  split; [exact H1|]. intros j Hj. apply (rectangular_nth nb _ j H2). lia.
Qed.

(** An elementwise function of an array: shape and entries. *)
Lemma map3_entry {A B} (f : A -> B) (a : list (list (list A)))
    (ng nch nb : nat) (dA : A) (dB : B) :
  shape3 a ng nch nb ->
  shape3 (PartialDos.map3 f a) ng nch nb
  /\ forall g j b, (g < ng)%nat -> (j < nch)%nat -> (b < nb)%nat ->
       nth b (nth j (nth g (PartialDos.map3 f a) []) []) dB
       = f (nth b (nth j (nth g a []) []) dA).
Proof.
  intros Ha.
  assert (Hl : length a = ng) by apply Ha.
  assert (Hg : forall g, (g < ng)%nat ->
            nth g (PartialDos.map3 f a) [] = map (map f) (nth g a [])).
  { intros g Hg. unfold PartialDos.map3.
    apply (nth_map_lt (map (map f)) a g [] []). lia. }
  assert (Hj : forall g j, (g < ng)%nat -> (j < nch)%nat ->
            nth j (nth g (PartialDos.map3 f a) []) []
            = map f (nth j (nth g a []) [])).
  { intros g j Hg' Hj'. rewrite (Hg g Hg').
    destruct (shape3_elim a ng nch nb g Ha Hg') as [H1 _].
    apply (nth_map_lt (map f) _ j [] []). lia. }
  split.
  - apply shape3_intro.
    + unfold PartialDos.map3. rewrite length_map. exact Hl.
    + intros g Hg'. destruct (shape3_elim a ng nch nb g Ha Hg') as [H1 H2].
      split.
      * rewrite (Hg g Hg'), length_map. exact H1.
      * intros j Hj'. rewrite (Hj g j Hg' Hj'), length_map. apply H2.
        exact Hj'.
  - intros g j b Hg' Hj' Hb'. rewrite (Hj g j Hg' Hj').
    destruct (shape3_elim a ng nch nb g Ha Hg') as [_ H2].
    apply nth_map_lt. rewrite (H2 j Hj'). exact Hb'.
Qed.

(** An elementwise operation on two arrays of the same shape. *)
Lemma zip3_entry {A B C} (f : A -> B -> C) (a : list (list (list A)))
    (b : list (list (list B))) (ng nch nb : nat) (dA : A) (dB : B) (dC : C) :
  shape3 a ng nch nb -> shape3 b ng nch nb ->
  shape3 (PartialDos.zip3 f a b) ng nch nb
  /\ forall g j k, (g < ng)%nat -> (j < nch)%nat -> (k < nb)%nat ->
       nth k (nth j (nth g (PartialDos.zip3 f a b) []) []) dC
       = f (nth k (nth j (nth g a []) []) dA)
           (nth k (nth j (nth g b []) []) dB).
Proof.
  intros Ha Hb. unfold PartialDos.zip3.
  assert (Hla : length a = ng) by apply Ha.
  assert (Hlb : length b = ng) by apply Hb.
  assert (Hg : forall g, (g < ng)%nat ->
            nth g (Np.zip_with (Np.zip_with (Np.zip_with f)) a b) []
            = Np.zip_with (Np.zip_with f) (nth g a []) (nth g b [])).
  { intros g Hg. apply nth_zip_with; lia. }
  assert (Hj : forall g j, (g < ng)%nat -> (j < nch)%nat ->
            nth j (Np.zip_with (Np.zip_with f) (nth g a []) (nth g b [])) []
            = Np.zip_with f (nth j (nth g a []) []) (nth j (nth g b []) [])).
  { intros g j Hg' Hj'.
    destruct (shape3_elim a ng nch nb g Ha Hg') as [H1 _].
    destruct (shape3_elim b ng nch nb g Hb Hg') as [H2 _].
    apply nth_zip_with; lia. }
  split.
  - apply shape3_intro.
    + rewrite length_zip_with, Hla, Hlb. apply Nat.min_id.
    + intros g Hg'. rewrite (Hg g Hg').
      destruct (shape3_elim a ng nch nb g Ha Hg') as [H1 K1].
      destruct (shape3_elim b ng nch nb g Hb Hg') as [H2 K2].
      split.
      * rewrite length_zip_with, H1, H2. apply Nat.min_id.
      * intros j Hj'. rewrite (Hj g j Hg' Hj'), length_zip_with.
        rewrite (K1 j Hj'), (K2 j Hj'). apply Nat.min_id.
  - intros g j k Hg' Hj' Hk'. rewrite (Hg g Hg'), (Hj g j Hg' Hj').
    destruct (shape3_elim a ng nch nb g Ha Hg') as [_ K1].
    destruct (shape3_elim b ng nch nb g Hb Hg') as [_ K2].
    apply nth_zip_with; [rewrite (K1 j Hj') | rewrite (K2 j Hj')]; exact Hk'.
Qed.

(** The rows selected for one Cartesian component. *)
Lemma component_entry (c : nat) (e : list (list (list complex)))
    (natom nb : nat) :
  (c < 3)%nat ->
  eigenvectors_shape e (3 * natom) nb ->
  PartialDos.take_rows (map (fun j => j * 3 + c)%nat (seq 0 natom)) e
  = Some (component c natom e)
  /\ shape3 (component c natom e) (length e) natom nb
  /\ forall g j, (g < length e)%nat -> (j < natom)%nat ->
       nth j (nth g (component c natom e) []) []
       = nth (j * 3 + c) (nth g e []) [].
Proof.
  intros Hc He.
  assert (Hidx : Forall (fun i => (i < 3 * natom)%nat)
                   (map (fun j => (j * 3 + c)%nat) (seq 0 natom))).
  { rewrite Forall_forall. intros i Hi.
    apply in_map_iff in Hi. destruct Hi as (j & <- & Hj).
    apply in_seq in Hj. lia. }
  assert (Hrow : forall g, (g < length e)%nat ->
            nth g (component c natom e) []
            = map (fun i => nth i (nth g e []) [])
                (map (fun j => (j * 3 + c)%nat) (seq 0 natom))).
  { intros g Hg. unfold component.
    exact (nth_map_lt
             (fun rows : list (list complex) =>
                map (fun i => nth i rows [])
                  (map (fun j => (j * 3 + c)%nat) (seq 0 natom)))
             e g [] [] Hg). }
  assert (Hent : forall g j, (g < length e)%nat -> (j < natom)%nat ->
            nth j (nth g (component c natom e) []) []
            = nth (j * 3 + c) (nth g e []) []).
  { intros g j Hg Hj. rewrite (Hrow g Hg), map_map.
    apply (nth_map_seq (fun x => nth (x * 3 + c) (nth g e []) []) natom j []).
    exact Hj. }
  split; [|split].
  - apply (take_rows_value _ e (3 * natom) nb He Hidx).
  - apply shape3_intro.
    + unfold component. apply length_map.
    + intros g Hg. split.
      * rewrite (Hrow g Hg), !length_map, length_seq. reflexivity.
      * intros j Hj. rewrite (Hent g j Hg Hj).
        unfold eigenvectors_shape in He. rewrite Forall_forall in He.
        destruct (He (nth g e [])) as [Hn3 Hrect]; [apply nth_In; exact Hg|].
        apply (rectangular_nth nb _ _ Hrect). lia.
  - exact Hent.
Qed.

(** The default mode: the value of every coefficient. *)
Lemma isotropic_projection_value (F : list (list R))
    (e : list (list (list complex))) (nb : nat) :
  eigenvectors_shape e (3 * (Np.ncols F / 3)) nb ->
  exists iso,
    PartialDos.eigvecs2_of F e None false = Some iso
    /\ eigvecs2_shape iso (length e) (Np.ncols F / 3) nb
    /\ forall g j b,
         (g < length e)%nat -> (j < Np.ncols F / 3)%nat -> (b < nb)%nat ->
         nth b (nth j (nth g iso []) []) 0
         = abs2 (nth b (nth (j * 3) (nth g e []) []) c0)
           + abs2 (nth b (nth (j * 3 + 1) (nth g e []) []) c0)
           + abs2 (nth b (nth (j * 3 + 2) (nth g e []) []) c0).
Proof.
  intros He. set (natom := (Np.ncols F / 3)%nat) in *.
  unfold PartialDos.eigvecs2_of. fold natom.
  assert (Hx : map (fun j => (j * 3)%nat) (seq 0 natom)
               = map (fun j => (j * 3 + 0)%nat) (seq 0 natom)).
  { apply map_ext. intros j. lia. }
  rewrite Hx.
  destruct (component_entry 0 e natom nb ltac:(lia) He) as (Tx & Sx & Ex).
  destruct (component_entry 1 e natom nb ltac:(lia) He) as (Ty & Sy & Ey).
  destruct (component_entry 2 e natom nb ltac:(lia) He) as (Tz & Sz & Ez).
  rewrite Tx, Ty, Tz.
  destruct (map3_entry abs2 _ _ _ _ c0 0 Sx) as [Ax Vx].
  destruct (map3_entry abs2 _ _ _ _ c0 0 Sy) as [Ay Vy].
  destruct (map3_entry abs2 _ _ _ _ c0 0 Sz) as [Az Vz].
  destruct (zip3_entry Rplus _ _ _ _ _ 0 0 0 Ax Ay) as [Axy Vxy].
  destruct (zip3_entry Rplus _ _ _ _ _ 0 0 0 Axy Az) as [Axyz Vxyz].
  eexists. split; [reflexivity|]. split; [exact Axyz|].
  intros g j b Hg Hj Hb.
  rewrite (Vxyz g j b Hg Hj Hb), (Vxy g j b Hg Hj Hb).
  rewrite (Vx g j b Hg Hj Hb), (Vy g j b Hg Hj Hb), (Vz g j b Hg Hj Hb).
  rewrite (Ex g j Hg Hj), (Ey g j Hg Hj), (Ez g j Hg Hj).
  replace (j * 3 + 0)%nat with (j * 3)%nat by lia. reflexivity.
Qed.

(** The direction mode: the value of every coefficient, in terms of the
    normalized direction. *)
Lemma direction_projection_value (F : list (list R))
    (e : list (list (list complex))) (nb : nat) (d0 d1 d2 : R)
    (rest : list R) :
  eigenvectors_shape e (3 * (Np.ncols F / 3)) nb ->
  exists dir,
    PartialDos.eigvecs2_of F e (Some (d0 :: d1 :: d2 :: rest)) false = Some dir
    /\ eigvecs2_shape dir (length e) (Np.ncols F / 3) nb
    /\ forall g j b,
         (g < length e)%nat -> (j < Np.ncols F / 3)%nat -> (b < nb)%nat ->
         nth b (nth j (nth g dir []) []) 0
         = abs2 (along (d0 / PartialDos.norm (d0 :: d1 :: d2 :: rest))
                   (d1 / PartialDos.norm (d0 :: d1 :: d2 :: rest))
                   (d2 / PartialDos.norm (d0 :: d1 :: d2 :: rest))
                   (nth b (nth (j * 3) (nth g e []) []) c0)
                   (nth b (nth (j * 3 + 1) (nth g e []) []) c0)
                   (nth b (nth (j * 3 + 2) (nth g e []) []) c0)).
Proof.
  intros He. set (natom := (Np.ncols F / 3)%nat) in *.
  set (n := PartialDos.norm (d0 :: d1 :: d2 :: rest)).
  unfold PartialDos.eigvecs2_of. fold natom.
  assert (Hx : map (fun j => (j * 3)%nat) (seq 0 natom)
               = map (fun j => (j * 3 + 0)%nat) (seq 0 natom)).
  { apply map_ext. intros j. lia. }
  rewrite Hx.
  destruct (component_entry 0 e natom nb ltac:(lia) He) as (Tx & Sx & Ex).
  destruct (component_entry 1 e natom nb ltac:(lia) He) as (Ty & Sy & Ey).
  destruct (component_entry 2 e natom nb ltac:(lia) He) as (Tz & Sz & Ez).
  rewrite Tx, Ty, Tz. fold n. cbn [map nth_error].
  destruct (map3_entry (fun z => PartialDos.cscale z (d0 / n)) _ _ _ _ c0 c0 Sx)
    as [Ax Vx].
  destruct (map3_entry (fun z => PartialDos.cscale z (d1 / n)) _ _ _ _ c0 c0 Sy)
    as [Ay Vy].
  destruct (map3_entry (fun z => PartialDos.cscale z (d2 / n)) _ _ _ _ c0 c0 Sz)
    as [Az Vz].
  destruct (zip3_entry PartialDos.cadd _ _ _ _ _ c0 c0 c0 Ax Ay) as [Axy Vxy].
  destruct (zip3_entry PartialDos.cadd _ _ _ _ _ c0 c0 c0 Axy Az)
    as [Axyz Vxyz].
  destruct (map3_entry abs2 _ _ _ _ c0 0 Axyz) as [Ad Vd].
  eexists. split; [reflexivity|]. split; [exact Ad|].
  intros g j b Hg Hj Hb.
  rewrite (Vd g j b Hg Hj Hb), (Vxyz g j b Hg Hj Hb), (Vxy g j b Hg Hj Hb).
  rewrite (Vx g j b Hg Hj Hb), (Vy g j b Hg Hj Hb), (Vz g j b Hg Hj Hb).
  rewrite (Ex g j Hg Hj), (Ey g j Hg Hj), (Ez g j Hg Hj).
  replace (j * 3 + 0)%nat with (j * 3)%nat by lia. reflexivity.
Qed.

(** X16.  With [xyz_projection] set the constructor ignores [direction]:
    whatever is passed for it, the coefficients are the squared moduli of
    all the eigenvector components, one channel per component, and for
    unit eigenvectors they sum to one over the channels. *)
Theorem xyz_projection_value (F : list (list R))
    (e : list (list (list complex))) (direction : option (list R))
    (n3 nb : nat) :
  eigenvectors_shape e n3 nb ->
  exists xyz,
    PartialDos.eigvecs2_of F e direction true = Some xyz
    /\ eigvecs2_shape xyz (length e) n3 nb
    /\ (forall g k b,
          (g < length e)%nat -> (k < n3)%nat -> (b < nb)%nat ->
          nth b (nth k (nth g xyz []) []) 0
          = abs2 (nth b (nth k (nth g e []) []) c0))
    /\ (unit_eigenvectors e n3 nb -> normalized xyz n3 nb).
Proof.
  intros He.
  assert (Hs : shape3 e (length e) n3 nb) by (split; [reflexivity | exact He]).
  destruct (map3_entry abs2 e _ _ _ c0 0 Hs) as [Sx Vx].
  eexists. split; [reflexivity|]. split; [exact Sx|]. split; [exact Vx|].
  intros Hunit g b Hg Hb.
  assert (Hg' : (g < length e)%nat).
  { destruct Sx as [Hl _]. rewrite Hl in Hg. exact Hg. }
  rewrite <- (Hunit g b Hg' Hb). apply sum_n_ext.
  intros k Hk. apply Vx; assumption.
Qed.

Lemma xyz_projection_value_witness :
  exists xyz,
    PartialDos.eigvecs2_of [[1; 2; 3]] (eigenvectors one_atom_mesh)
      (Some []) true = Some xyz
    /\ normalized xyz 3 3.
Proof.
  destruct (xyz_projection_value [[1; 2; 3]] (eigenvectors one_atom_mesh)
              (Some []) 3 3 one_atom_eigenvectors_shape)
    as (xyz & H1 & _ & _ & H4).
  exists xyz. split; [exact H1 | exact (H4 one_atom_unit_eigenvectors)].
Defined.

(** X17.  The default coefficient of an atom is the sum of the three
    coefficients that the xyz projection gives its Cartesian components:
    channel [j] of the one is the channels [3j], [3j+1], [3j+2] of the
    other added up. *)
Theorem isotropic_sums_xyz (F : list (list R))
    (e : list (list (list complex))) (nb : nat) :
  eigenvectors_shape e (3 * (Np.ncols F / 3)) nb ->
  exists iso xyz,
    PartialDos.eigvecs2_of F e None false = Some iso
    /\ PartialDos.eigvecs2_of F e None true = Some xyz
    /\ forall g j b,
         (g < length e)%nat -> (j < Np.ncols F / 3)%nat -> (b < nb)%nat ->
         nth b (nth j (nth g iso []) []) 0
         = nth b (nth (j * 3) (nth g xyz []) []) 0
           + nth b (nth (j * 3 + 1) (nth g xyz []) []) 0
           + nth b (nth (j * 3 + 2) (nth g xyz []) []) 0.
Proof.
  intros He.
  destruct (isotropic_projection_value F e nb He) as (iso & Hi & _ & Vi).
  assert (Hs : shape3 e (length e) (3 * (Np.ncols F / 3)) nb)
    by (split; [reflexivity | exact He]).
  destruct (map3_entry abs2 e _ _ _ c0 0 Hs) as [_ Vx].
  exists iso. eexists. split; [exact Hi|]. split; [reflexivity|].
  intros g j b Hg Hj Hb.
  rewrite (Vi g j b Hg Hj Hb), !Vx by lia. reflexivity.
Qed.

Lemma isotropic_sums_xyz_witness :
  exists iso xyz,
    PartialDos.eigvecs2_of [[1; 2; 3]] (eigenvectors one_atom_mesh) None false
    = Some iso
    /\ PartialDos.eigvecs2_of [[1; 2; 3]] (eigenvectors one_atom_mesh) None
         true = Some xyz
    /\ nth 0 (nth 0 (nth 0 iso []) []) 0
       = nth 0 (nth 0 (nth 0 xyz []) []) 0
         + nth 0 (nth 1 (nth 0 xyz []) []) 0
         + nth 0 (nth 2 (nth 0 xyz []) []) 0.
Proof.
  destruct (isotropic_sums_xyz [[1; 2; 3]] (eigenvectors one_atom_mesh) 3
              one_atom_eigenvectors_shape) as (iso & xyz & H1 & H2 & H3).
  exists iso, xyz. split; [exact H1|]. split; [exact H2|].
  apply (H3 0%nat 0%nat 0%nat); simpl; lia.
Defined.

Lemma sum_squares_nonneg (d : list R) : 0 <= Np.sum (map (fun x => x ^ 2) d).
Proof.
  induction d as [|x d IH]; simpl; [lra|].
  pose proof (pow2_ge_0 x). simpl in *. lra.
Qed.

Lemma norm_square (d : list R) :
  PartialDos.norm d ^ 2 = Np.sum (map (fun x => x ^ 2) d).
Proof. unfold PartialDos.norm. apply pow2_sqrt. apply sum_squares_nonneg. Qed.

(** The Cauchy-Schwarz inequality in three dimensions. *)
Lemma cauchy3 (a b c p q r : R) :
  (p * a + q * b + r * c) ^ 2
  <= (a ^ 2 + b ^ 2 + c ^ 2) * (p ^ 2 + q ^ 2 + r ^ 2).
Proof.
  assert (H : (a ^ 2 + b ^ 2 + c ^ 2) * (p ^ 2 + q ^ 2 + r ^ 2)
              - (p * a + q * b + r * c) ^ 2
              = (p * b - q * a) ^ 2 + (p * c - r * a) ^ 2
                + (q * c - r * b) ^ 2) by ring.
  pose proof (pow2_ge_0 (p * b - q * a)).
  pose proof (pow2_ge_0 (p * c - r * a)).
  pose proof (pow2_ge_0 (q * c - r * b)). lra.
Qed.

Lemma along_bounded (a b c : R) (x y z : complex) :
  a ^ 2 + b ^ 2 + c ^ 2 <= 1 ->
  0 <= abs2 (along a b c x y z) <= abs2 x + abs2 y + abs2 z.
Proof.
  intros Hn. rewrite !abs2_value.
  unfold along, PartialDos.cadd, PartialDos.cscale. cbn [re im].
  pose proof (cauchy3 a b c (re x) (re y) (re z)) as Hr.
  pose proof (cauchy3 a b c (im x) (im y) (im z)) as Hi.
  pose proof (pow2_ge_0 (re x * a + re y * b + re z * c)).
  pose proof (pow2_ge_0 (im x * a + im y * b + im z * c)).
  pose proof (pow2_ge_0 a). pose proof (pow2_ge_0 b). pose proof (pow2_ge_0 c).
  pose proof (pow2_ge_0 (re x)). pose proof (pow2_ge_0 (re y)).
  pose proof (pow2_ge_0 (re z)). pose proof (pow2_ge_0 (im x)).
  pose proof (pow2_ge_0 (im y)). pose proof (pow2_ge_0 (im z)).
  assert (HP : (a ^ 2 + b ^ 2 + c ^ 2) * (re x ^ 2 + re y ^ 2 + re z ^ 2)
               <= 1 * (re x ^ 2 + re y ^ 2 + re z ^ 2))
    by (apply Rmult_le_compat_r; lra).
  assert (HQ : (a ^ 2 + b ^ 2 + c ^ 2) * (im x ^ 2 + im y ^ 2 + im z ^ 2)
               <= 1 * (im x ^ 2 + im y ^ 2 + im z ^ 2))
    by (apply Rmult_le_compat_r; lra).
  split; lra.
Qed.

(** X18.  The direction mode, for a direction of three or more components
    whose norm is not zero: the constructor succeeds, with one channel per
    atom, and every coefficient lies between zero and the coefficient the
    default mode gives the same atom, grid point and band. *)
Theorem direction_projection_bounded (F : list (list R))
    (e : list (list (list complex))) (nb : nat) (d0 d1 d2 : R)
    (rest : list R) :
  eigenvectors_shape e (3 * (Np.ncols F / 3)) nb ->
  PartialDos.norm (d0 :: d1 :: d2 :: rest) <> 0 ->
  exists dir iso,
    PartialDos.eigvecs2_of F e (Some (d0 :: d1 :: d2 :: rest)) false = Some dir
    /\ PartialDos.eigvecs2_of F e None false = Some iso
    /\ eigvecs2_shape dir (length e) (Np.ncols F / 3) nb
    /\ forall g j b,
         (g < length e)%nat -> (j < Np.ncols F / 3)%nat -> (b < nb)%nat ->
         0 <= nth b (nth j (nth g dir []) []) 0
           <= nth b (nth j (nth g iso []) []) 0.
Proof.
  intros He Hn.
  destruct (direction_projection_value F e nb d0 d1 d2 rest He)
    as (dir & Hd & Sd & Vd).
  destruct (isotropic_projection_value F e nb He) as (iso & Hi & _ & Vi).
  exists dir, iso. split; [exact Hd|]. split; [exact Hi|]. split; [exact Sd|].
  intros g j b Hg Hj Hb.
  rewrite (Vd g j b Hg Hj Hb), (Vi g j b Hg Hj Hb).
  apply along_bounded.
  pose proof (norm_square (d0 :: d1 :: d2 :: rest)) as Hsq.
  pose proof (sum_squares_nonneg rest) as Hrest.
  set (n := PartialDos.norm (d0 :: d1 :: d2 :: rest)) in *.
  cbn [map Np.sum fold_right] in Hsq.
  change (fold_right Rplus 0 (map (fun x => x ^ 2) rest))
    with (Np.sum (map (fun x => x ^ 2) rest)) in Hsq.
  assert (Hn2 : 0 < n ^ 2).
  { pose proof (pow2_ge_0 n). pose proof (pow_nonzero n 2 Hn). lra. }
  replace ((d0 / n) ^ 2 + (d1 / n) ^ 2 + (d2 / n) ^ 2)
    with ((d0 ^ 2 + d1 ^ 2 + d2 ^ 2) / n ^ 2) by (field; exact Hn).
  apply (Rmult_le_reg_r (n ^ 2)); [exact Hn2|].
  unfold Rdiv. rewrite Rmult_assoc, Rinv_l by lra. lra.
Qed.

Lemma direction_projection_bounded_witness :
  exists dir iso,
    PartialDos.eigvecs2_of [[1; 2; 3]] (eigenvectors one_atom_mesh)
      (Some [1; 0; 0]) false = Some dir
    /\ PartialDos.eigvecs2_of [[1; 2; 3]] (eigenvectors one_atom_mesh) None
         false = Some iso
    /\ 0 <= nth 0 (nth 0 (nth 0 dir []) []) 0
         <= nth 0 (nth 0 (nth 0 iso []) []) 0.
Proof.
  destruct (direction_projection_bounded [[1; 2; 3]]
              (eigenvectors one_atom_mesh) 3 1 0 0 []
              one_atom_eigenvectors_shape)
    as (dir & iso & H1 & H2 & _ & H4).
  - unfold PartialDos.norm. cbn [map Np.sum fold_right].
    replace (1 ^ 2 + (0 ^ 2 + (0 ^ 2 + 0))) with 1 by lra.
    rewrite sqrt_1. lra.
  - exists dir, iso. split; [exact H1|]. split; [exact H2|].
    apply (H4 0%nat 0%nat 0%nat); simpl; lia.
Defined.

Lemma sum_squares_scale (k : R) (d : list R) :
  Np.sum (map (fun x => x ^ 2) (map (Rmult k) d))
  = k ^ 2 * Np.sum (map (fun x => x ^ 2) d).
Proof.
  induction d as [|x d IH]; simpl; [ring|].
  simpl in IH. rewrite IH. ring.
Qed.

Lemma norm_scale (k : R) (d : list R) :
  0 <= k -> PartialDos.norm (map (Rmult k) d) = k * PartialDos.norm d.
Proof.
  intros Hk. unfold PartialDos.norm.
  rewrite sum_squares_scale, sqrt_mult_alt by apply pow2_ge_0.
  rewrite sqrt_pow2 by exact Hk. reflexivity.
Qed.

(** X19.  Only the direction of [direction] matters, not its length:
    multiplying all its components by a positive factor leaves the
    outcome of the constructor, and every coefficient, unchanged. *)
Theorem direction_scale_invariant (F : list (list R))
    (e : list (list (list complex))) (d : list R) (k : R) :
  0 < k -> PartialDos.norm d <> 0 ->
  PartialDos.eigvecs2_of F e (Some (map (Rmult k) d)) false
  = PartialDos.eigvecs2_of F e (Some d) false.
Proof.
  intros Hk Hn.
  assert (Hd : map (fun x => x / PartialDos.norm (map (Rmult k) d))
                 (map (Rmult k) d)
               = map (fun x => x / PartialDos.norm d) d).
  { rewrite norm_scale by lra. rewrite map_map. apply map_ext.
    intros x. field. split; [exact Hn | lra]. }
  unfold PartialDos.eigvecs2_of. cbv zeta. rewrite Hd. reflexivity.
Qed.

Lemma direction_scale_invariant_witness :
  PartialDos.eigvecs2_of [[1; 2; 3]] (eigenvectors one_atom_mesh)
    (Some (map (Rmult 2) [1; 0; 0])) false
  = PartialDos.eigvecs2_of [[1; 2; 3]] (eigenvectors one_atom_mesh)
      (Some [1; 0; 0]) false.
Proof.
  apply (direction_scale_invariant [[1; 2; 3]] (eigenvectors one_atom_mesh)
           [1; 0; 0] 2).
  - lra.
  - unfold PartialDos.norm. cbn [map Np.sum fold_right].
    replace (1 ^ 2 + (0 ^ 2 + (0 ^ 2 + 0))) with 1 by lra.
    rewrite sqrt_1. lra.
Defined.

(** X20.  A direction with fewer than three components makes the
    constructor raise, whatever the eigenvectors are, unless
    [xyz_projection] is set. *)
Theorem short_direction_raises (F : list (list R))
    (e : list (list (list complex))) (d : list R) :
  (length d < 3)%nat ->
  PartialDos.eigvecs2_of F e (Some d) false = None.
Proof.
  intros Hd. unfold PartialDos.eigvecs2_of.
  destruct (PartialDos.take_rows _ e); [|reflexivity].
  destruct (PartialDos.take_rows _ e); [|reflexivity].
  destruct (PartialDos.take_rows _ e); [|reflexivity].
  destruct d as [|a [|b [|c d]]]; simpl in *; try reflexivity. lia.
Qed.

Lemma short_direction_raises_witness :
  PartialDos.eigvecs2_of [[1; 2; 3]] (eigenvectors one_atom_mesh)
    (Some [1; 0]) false = None.
Proof.
  apply (short_direction_raises [[1; 2; 3]] (eigenvectors one_atom_mesh)
           [1; 0]).
  simpl. lia.
Defined.

(** ** The sign of the smeared partial DOS *)

Lemma nonneg3_nth (a : list (list (list R))) (g j b : nat) :
  nonneg3 a -> 0 <= nth b (nth j (nth g a []) []) 0.
Proof.
  intros H. apply nonneg_nth.
  assert (H2 : nonneg2 (nth g a [])).
  { destruct (Nat.lt_ge_cases g (length a)) as [Hg|Hg].
    - unfold nonneg3 in H. rewrite Forall_forall in H. apply H.
      apply nth_In. exact Hg.
    - rewrite nth_overflow by exact Hg. constructor. }
  destruct (Nat.lt_ge_cases j (length (nth g a []))) as [Hj|Hj].
  - unfold nonneg2 in H2. rewrite Forall_forall in H2. apply H2.
    apply nth_In. exact Hj.
  - rewrite nth_overflow by exact Hj. constructor.
Qed.

Section SmearedPartial.

Variable thm_iter : TetrahedronMesh -> list R -> list (list (list R)).

(** X21.  In smearing mode, with a kernel of positive width, weights that
    are not negative and coefficients that are not negative, [run] of the
    partial DOS succeeds and stores one row per channel, one column per
    frequency point, and no negative value. *)
Theorem partial_dos_smearing_nonneg
    (self : PartialDos.t) (points : list R) (k : smearing_function) (s : R)
    (nb : nat) :
  Dos._tetrahedron_mesh (PartialDos.base self) = None ->
  Dos._frequency_points (PartialDos.base self) = Some points ->
  Dos._smearing_function (PartialDos.base self) = Some k ->
  width k = Some s -> 0 < s ->
  mesh_shape (Dos._weights (PartialDos.base self))
    (Dos._frequencies (PartialDos.base self)) nb ->
  eigvecs2_shape (PartialDos._eigvecs2 self)
    (length (Dos._frequencies (PartialDos.base self)))
    (Np.ncols (PartialDos._eigvecs2 self)) nb ->
  nonneg (Dos._weights (PartialDos.base self)) ->
  0 < Np.sum (Dos._weights (PartialDos.base self)) ->
  nonneg3 (PartialDos._eigvecs2 self) ->
  exists self' pdos,
    PartialDos.run thm_iter self = Some self'
    /\ PartialDos._partial_dos self' = Some pdos
    /\ length pdos = Np.ncols (PartialDos._eigvecs2 self)
    /\ Np.rectangular (length points) pdos
    /\ nonneg2 pdos.
Proof.
  intros Hthm Hpts Hk Hw Hs [_ Hrect] He2 Hnn Hpos Hnn3.
  destruct (kernel_positive k s Hw Hs) as (c & Hc & Hcpos).
  eexists. eexists. split.
  { unfold PartialDos.run. rewrite Hthm.
    apply (partial_dos_run_smearing self points k c Hpts Hk Hc). }
  split; [reflexivity|].
  unfold Np.transpose. split; [|split].
  - rewrite length_map, length_seq. reflexivity.
  - unfold Np.rectangular. rewrite Forall_forall. intros row Hrow.
    apply in_map_iff in Hrow. destruct Hrow as (j & <- & _).
    rewrite !length_map. reflexivity.
  - unfold nonneg2. rewrite Forall_forall. intros row Hrow.
    apply in_map_iff in Hrow. destruct Hrow as (j & <- & Hj).
    apply in_seq in Hj.
    unfold nonneg. rewrite Forall_forall. intros y Hy.
    apply in_map_iff in Hy. destruct Hy as (col & <- & Hcol).
    apply in_map_iff in Hcol. destruct Hcol as (freq & <- & _).
    rewrite (nth_map_seq _ _ j 0) by lia.
    rewrite (pdos_entry_sum _ _ _ c freq
               (Np.ncols (PartialDos._eigvecs2 self)) nb j Hrect He2)
      by lia.
    apply sum_n_nonneg. intros g _. apply sum_n_nonneg. intros b _.
    apply Rmult_le_pos; [apply Rmult_le_pos|].
    + apply nonneg_nth. unfold nonneg. rewrite Forall_forall.
      intros x Hx. apply in_map_iff in Hx. destruct Hx as (w & <- & Hin).
      apply Rle_mult_inv_pos; [|exact Hpos].
      unfold nonneg in Hnn. rewrite Forall_forall in Hnn. apply Hnn.
      exact Hin.
    + apply Rlt_le. apply Hcpos.
    + apply nonneg3_nth. exact Hnn3.
Qed.

End SmearedPartial.

Lemma partial_dos_smearing_nonneg_witness :
  exists self' pdos,
    PartialDos.run no_thm_iter one_atom_partial = Some self'
    /\ PartialDos._partial_dos self' = Some pdos
    /\ nonneg2 pdos.
Proof.
  destruct (partial_dos_smearing_nonneg no_thm_iter one_atom_partial
              (even_grid (- 9) (11 / 100) 201) (NormalDistribution (Some 1))
              1 3 eq_refl eq_refl eq_refl eq_refl)
    as (self' & pdos & H1 & H2 & _ & _ & H5).
  - lra.
  - split; [reflexivity | repeat constructor].
  - split; [reflexivity | repeat constructor].
  - repeat constructor. simpl. lra.
  - unfold Np.sum. simpl. lra.
  - repeat constructor; lra.
  - exists self', pdos. auto.
Defined.

(** ** The plot of the total DOS *)

Lemma linspace_value (stop : R) (m : nat) :
  linspace stop (Z.of_nat m + 1)
  = Some (map (fun i => if (0 <? Z.of_nat m)%Z then INR i * (stop / INR m)
                        else INR i * stop)
            (seq 0 (S m))).
Proof.
  unfold linspace.
  destruct (Z.ltb_spec (Z.of_nat m + 1) 0) as [H|H]; [lia|].
  replace (Z.of_nat m + 1 - 1)%Z with (Z.of_nat m) by lia.
  replace (Z.to_nat (Z.of_nat m + 1)) with (S m) by lia.
  rewrite <- INR_IZR_INZ. reflexivity.
Qed.



(** X22.  The Debye curve of [plot_total_dos], for a positive pitch between
    the first two frequency points, a positive Debye frequency and a fit
    coefficient: the call succeeds and draws two curves; with [m] the
    integer part of the Debye frequency over the pitch, the Debye curve has
    [m + 2] points: [m + 1] points of the parabola, evenly spaced from 0 to
    the Debye frequency by a step that is not below the pitch, and the
    closing point at the Debye frequency with the value 0.  When the Debye
    frequency is below the pitch the parabola is the single point at 0. *)
Theorem plot_total_dos_Debye_curve
    (ax : axes) (p0 p1 : R) (rest total_dos : list R)
    (freq_Debye coef : R) (xlabel ylabel : option string)
    (draw_grid flip_xy : bool) :
  0 < p1 - p0 -> 0 < freq_Debye ->
  exists xs ys (m : nat),
    plot_total_dos ax (p0 :: p1 :: rest) total_dos (Some freq_Debye)
      (Some coef) xlabel ylabel draw_grid flip_xy
    = (ax ++ tick_calls
          ++ [curve flip_xy (p0 :: p1 :: rest) total_dos; curve flip_xy xs ys]
          ++ label_calls xlabel ylabel ++ [ax_grid draw_grid],
       Some tt)
    /\ INR m <= freq_Debye / (p1 - p0) < INR m + 1
    /\ length xs = (m + 2)%nat
    /\ length ys = (m + 2)%nat
    /\ (forall k, (k <= m)%nat ->
          0 <= nth k xs 0 <= freq_Debye
          /\ nth k ys 0 = coef * nth k xs 0 ^ 2)
    /\ nth 0 xs 0 = 0
    /\ ((1 <= m)%nat ->
          nth m xs 0 = freq_Debye
          /\ p1 - p0 <= freq_Debye / INR m
          /\ forall k, (k < m)%nat ->
               nth (S k) xs 0 - nth k xs 0 = freq_Debye / INR m)
    /\ nth (S m) xs 0 = freq_Debye
    /\ nth (S m) ys 0 = 0.
Proof.
  intros Hp HfD.
  set (q := freq_Debye / (p1 - p0)).
  assert (Hq : 0 < q) by (apply Rdiv_lt_0_compat; assumption).
  pose proof (Int_part_nonneg q (Rlt_le _ _ Hq)) as Hz.
  destruct (base_Int_part q) as [Hb1 Hb2].
  set (m := Z.to_nat (Int_part q)).
  assert (Hm : Int_part q = Z.of_nat m) by (unfold m; lia).
  assert (HmR : IZR (Int_part q) = INR m)
    by (rewrite Hm; symmetry; apply INR_IZR_INZ).
  set (f := fun i : nat =>
              if (0 <? Z.of_nat m)%Z then INR i * (freq_Debye / INR m)
              else INR i * freq_Debye).
  assert (Hx : forall k, (k <= m)%nat ->
            nth k (map f (seq 0 (S m)) ++ [freq_Debye]) 0 = f k).
  { intros k Hk. rewrite app_nth1 by (rewrite length_map, length_seq; lia).
    apply (nth_map_seq f (S m) k 0). lia. }
  assert (Hy : forall k, (k <= m)%nat ->
            nth k (map (fun x => coef * x ^ 2) (map f (seq 0 (S m))) ++ [0]) 0
            = coef * f k ^ 2).
  { intros k Hk. rewrite app_nth1 by (rewrite !length_map, length_seq; lia).
    rewrite (nth_map_lt (fun x => coef * x ^ 2) _ k 0 0)
      by (rewrite length_map, length_seq; lia).
    rewrite (nth_map_seq f (S m) k 0) by lia. reflexivity. }
  assert (Hpos : forall k, (1 <= m)%nat ->
            f k = INR k * (freq_Debye / INR m) /\ 0 < INR m).
  { intros k H1. unfold f.
    destruct (Z.ltb_spec 0 (Z.of_nat m)) as [_|H]; [|lia].
    split; [reflexivity|]. apply lt_0_INR. lia. }
  exists (map f (seq 0 (S m)) ++ [freq_Debye]),
         (map (fun x => coef * x ^ 2) (map f (seq 0 (S m))) ++ [0]), m.
  split.
  { unfold plot_total_dos, Debye_freqs. cbn [nth_error]. cbv zeta.
    destruct (Req_dec_T (p1 - p0) 0) as [H0|_]; [lra|].
    fold q. rewrite (int_nonneg q) by lra. rewrite Hm, linspace_value.
    fold f.
    destruct (Req_dec_T freq_Debye 0) as [H0|_]; [lra|].
    unfold curve, label_calls, tick_calls.
    destruct flip_xy, (truthy xlabel), (truthy ylabel);
      cbn [app]; rewrite <- ?app_assoc; cbn [app]; reflexivity. }
  split; [rewrite <- HmR; lra|].
  split; [rewrite length_app, length_map, length_seq; simpl; lia|].
  split; [rewrite length_app, !length_map, length_seq; simpl; lia|].
  split.
  { intros k Hk. rewrite (Hx k Hk), (Hy k Hk). split; [|reflexivity].
    destruct (Nat.eq_dec m 0) as [H0|H0].
    - assert (k = 0%nat) by lia. subst k. unfold f.
      destruct (0 <? Z.of_nat m)%Z; simpl; lra.
    - destruct (Hpos k ltac:(lia)) as [Hf Hm0]. rewrite Hf.
      assert (Hk0 : 0 <= INR k) by apply pos_INR.
      assert (Hkm : INR k <= INR m) by (apply le_INR; exact Hk).
      assert (Hs : 0 < freq_Debye / INR m)
        by (apply Rdiv_lt_0_compat; assumption).
      split; [apply Rmult_le_pos; lra|].
      replace freq_Debye with (INR m * (freq_Debye / INR m)) at 2
        by (field; lra).
      apply Rmult_le_compat_r; lra. }
  split.
  { rewrite (Hx 0%nat) by lia. unfold f.
    destruct (0 <? Z.of_nat m)%Z; simpl; lra. }
  split.
  { intros H1. split; [|split].
    - rewrite (Hx m) by lia. destruct (Hpos m H1) as [Hf Hm0]. rewrite Hf.
      field. lra.
    - destruct (Hpos 0%nat H1) as [_ Hm0].
      apply (Rmult_le_reg_r (INR m)); [exact Hm0|].
      replace (freq_Debye / INR m * INR m) with freq_Debye by (field; lra).
      assert (Hle : INR m <= q) by (rewrite <- HmR; lra).
      apply (Rmult_le_compat_r (p1 - p0)) in Hle; [|lra].
      unfold q in Hle.
      replace (freq_Debye / (p1 - p0) * (p1 - p0)) with freq_Debye in Hle
        by (field; lra).
      lra.
    - intros k Hk. rewrite (Hx (S k)), (Hx k) by lia.
      destruct (Hpos (S k) H1) as [Hf1 Hm0]. destruct (Hpos k H1) as [Hf0 _].
      rewrite Hf1, Hf0, S_INR. field. lra. }
  split.
  - rewrite app_nth2 by (rewrite length_map, length_seq; lia).
    rewrite length_map, length_seq, Nat.sub_diag. reflexivity.
  - rewrite app_nth2 by (rewrite !length_map, length_seq; lia).
    rewrite !length_map, length_seq, Nat.sub_diag. reflexivity.
Qed.

Lemma plot_total_dos_Debye_curve_witness :
  exists xs ys (m : nat),
    plot_total_dos [] [0; 1] [0; 0] (Some 2) (Some 1) None None true false
    = ([] ++ tick_calls
          ++ [curve false [0; 1] [0; 0]; curve false xs ys]
          ++ label_calls None None ++ [ax_grid true],
       Some tt)
    /\ length xs = (m + 2)%nat
    /\ nth (S m) xs 0 = 2.
Proof.
  destruct (plot_total_dos_Debye_curve [] 0 1 [] [0; 0] 2 1 None None true
              false)
    as (xs & ys & m & H1 & _ & H3 & _ & _ & _ & _ & H8 & _).
  - lra.
  - lra.
  - exists xs, ys, m. split; [exact H1|]. split; [exact H3 | exact H8].
Defined.



(** ** The streaming tetrahedron path of the total DOS *)

Lemma total_accumulate_raises (weights : list R) (iws : list (list (list R))) :
  forall (i : nat) (dos : list R),
  (i <= length weights)%nat ->
  (length weights < i + length iws)%nat ->
  TotalDos.accumulate weights i iws dos = None.
Proof.
  induction iws as [|iw rest IH]; intros i dos Hi Hlen.
  - simpl in Hlen. lia.
  - cbn [TotalDos.accumulate].
    destruct (nth_error weights i) as [w|] eqn:Hw; [|reflexivity].
    assert (i < length weights)%nat
      by (apply nth_error_Some; rewrite Hw; discriminate).
    apply IH; simpl in Hlen; lia.
Qed.

Section StreamingTotal.

Variable integration_weight :
  list Z -> list R -> list (list R) -> list (list Z) -> list Z ->
  list (list (list Z)) -> nat -> nat -> nat -> R.
Variable ir_weights : list Z -> list R.
Variable linalg_inv : list (list R) -> option (list (list R)).
Variable get_tetrahedra : list (list R) -> list Z -> list (list (list Z)).
Variable thm_iter : TetrahedronMesh -> list R -> list (list (list R)).

(** X24.  The total DOS in tetrahedron mode with [_openmp_thm] switched
    off: from the integration weights the mesh yields, one matrix per grid
    point with a row for each frequency point, [run] stores at the
    frequency index [f] the sum over the grid points [g] of [weight[g]]
    times the sum of row [f] of the matrix of [g], with no division by the
    sum of the weights. *)
Theorem total_dos_streaming_value
    (t : TotalDos.t) (thm : TetrahedronMesh) (points : list R) :
  TotalDos._openmp_thm t = false ->
  Dos._tetrahedron_mesh (TotalDos.base t) = Some thm ->
  Dos._frequency_points (TotalDos.base t) = Some points ->
  (length (thm_iter thm points) <= length (Dos._weights (TotalDos.base t)))%nat ->
  Forall (fun iw => length iw = length points) (thm_iter thm points) ->
  exists t' dos,
    TotalDos.run integration_weight ir_weights linalg_inv get_tetrahedra
      thm_iter t = Some t'
    /\ TotalDos._dos t' = Some dos
    /\ TotalDos._freq_Debye t' = TotalDos._freq_Debye t
    /\ length dos = length points
    /\ forall f, (f < length points)%nat ->
         nth f dos 0
         = Np.sum_n (length (thm_iter thm points)) (fun g =>
             nth g (Dos._weights (TotalDos.base t)) 0
             * Np.sum (nth f (nth g (thm_iter thm points) []) [])).
Proof.
  intros Homp Hthm Hpts Hlen Hall.
  destruct (total_accumulate_value (Dos._weights (TotalDos.base t))
              (length points) (thm_iter thm points) 0
              (map (fun _ => 0) points))
    as (dos & Hrun & Hl & Hval);
    [simpl; lia | exact Hall | apply length_map |].
  eexists. exists dos. split.
  { unfold TotalDos.run. rewrite Hthm, Homp, Hpts, Hrun. reflexivity. }
  split; [reflexivity|]. split; [reflexivity|]. split; [exact Hl|].
  intros f Hf. rewrite (Hval f Hf).
  rewrite (nth_map_lt (fun _ : R => 0) points f 0 0) by exact Hf.
  simpl. lra.
Qed.

(** X25.  When the mesh yields integration weights for more grid points
    than there are weights, [run] on the same path raises. *)
Theorem total_dos_streaming_raises
    (t : TotalDos.t) (thm : TetrahedronMesh) (points : list R) :
  TotalDos._openmp_thm t = false ->
  Dos._tetrahedron_mesh (TotalDos.base t) = Some thm ->
  Dos._frequency_points (TotalDos.base t) = Some points ->
  (length (Dos._weights (TotalDos.base t)) < length (thm_iter thm points))%nat ->
  TotalDos.run integration_weight ir_weights linalg_inv get_tetrahedra
    thm_iter t = None.
Proof.
  intros Homp Hthm Hpts Hlen.
  unfold TotalDos.run. rewrite Hthm, Homp, Hpts.
  rewrite total_accumulate_raises by (simpl; lia). reflexivity.
Qed.

End StreamingTotal.

Lemma total_dos_streaming_value_witness :
  exists t' dos,
    TotalDos.run no_weight no_ir_weights identity_inv no_tetrahedra
      unit_thm_iter one_atom_streaming = Some t'
    /\ TotalDos._dos t' = Some dos
    /\ length dos = 3%nat.
Proof.
  destruct (total_dos_streaming_value no_weight no_ir_weights identity_inv
              no_tetrahedra unit_thm_iter one_atom_streaming one_atom_thm
              [1; 2; 3] eq_refl eq_refl eq_refl)
    as (t' & dos & H1 & H2 & _ & H4 & _).
  - simpl. lia.
  - repeat constructor.
  - exists t', dos. auto.
Defined.

Lemma total_dos_streaming_raises_witness :
  TotalDos.run no_weight no_ir_weights identity_inv no_tetrahedra
    unit_thm_iter (with_weights one_atom_streaming []) = None.
Proof.
  apply (total_dos_streaming_raises no_weight no_ir_weights identity_inv
           no_tetrahedra unit_thm_iter (with_weights one_atom_streaming [])
           one_atom_thm [1; 2; 3] eq_refl eq_refl eq_refl).
  simpl. lia.
Defined.
